(** * util: the concurrency primitives of the Go module, embedded in Rocq

    Part I embeds the Go sources: [randomQueue.go] (RandomQueue), [pubsub.go]
    (PubSub, in its two revisions), [debounce.go] (Debouncer and
    PubSubDebouncer) and [workerPool.go] (WorkerPool).  Part II states and
    proves their properties.

    Conventions.
    - A Go call either returns, blocks on a channel operation, or panics:
      the [outcome] type.
    - [time.Time] and [time.Duration] are integers (nanoseconds); the instants
      read by [time.Now()] are arguments of the operation that reads them.
    - Channels live in a store indexed by handles, so that two references to
      the same channel alias.
    - [float64] and [float32] are IEEE 754 binary64 and binary32 values with
      the operations of the Standard Library's [SpecFloat].
    - Mutexes serialise the methods of a value; what a method does under
      its lock is one atomic transition of the sequential state.  Goroutines
      that run alongside (the workers of a pool, the sends of a broadcast
      after its lock is released) are transitions of a step relation. *)

From Stdlib Require Import ZArith List Lia.
From Stdlib Require Import Floats.SpecFloat.
From stdpp Require Import base option list gmap relations.

Local Open Scope Z_scope.

(** * Part I: the embedding *)

(** ** Outcomes of a call *)

Inductive outcome (A : Type) : Type :=
  | Returns (a : A)
  | Blocks
  | Panics.
Arguments Returns {A} a.
Arguments Blocks {A}.
Arguments Panics {A}.

Global Instance outcome_ret : MRet outcome := @Returns.
Global Instance outcome_bind : MBind outcome := λ A B k o,
  match o with
  | Returns a => k a
  | Blocks => Blocks
  | Panics => Panics
  end.

(** Go's [s[i]] for an [int] index: out of range (negative included) panics;
    [index] gives [None] there. *)
Definition index {A} (s : list A) (i : Z) : option A :=
  if i <? 0 then None else s !! Z.to_nat i.

(** The zero value of a Go type. *)
Class ZeroValue (T : Type) := zero_value : T.
Global Instance Z_zero_value : ZeroValue Z := 0.

(** [unsafe.Sizeof]: the number of bytes of a value of the type.  The
    compiler refuses a channel whose element type takes 64 KiB or more. *)
Class Sizeof (T : Type) := {
  sizeof : Z;
  sizeof_range : (0 <=? sizeof) && (sizeof <? 2 ^ 16) = true
}.
Arguments sizeof T {_}.

(** [int] on a 64-bit platform, and [struct{}]. *)
Global Instance Z_sizeof : Sizeof Z := {| sizeof := 8; sizeof_range := eq_refl |}.
Global Instance unit_sizeof : Sizeof unit := {| sizeof := 0; sizeof_range := eq_refl |}.

(** ** randomQueue.go *)

Module RandomQueue.
Section RandomQueue.
Context {T : Type}.

(** [math/rand]: the state of the global source and [rand.Intn], which
    panics for [n <= 0] (the guard in [GetAndRemove] below). *)
Context {rng : Type}.
Variable Intn : rng → Z → Z * rng.

(** The mutex guards every method and is not part of the sequential
    state. *)
Record RandomQueue := { files : list T }.

Definition NewRandomQueue : RandomQueue := {| files := [] |}.

Definition Add (r : RandomQueue) (f : T) : RandomQueue :=
  {| files := files r ++ [f] |}.

Definition Len (r : RandomQueue) : Z := Z.of_nat (length (files r)).

Definition GetAndRemove (r : RandomQueue) (g : rng)
  : outcome (T * RandomQueue * rng) :=
  let n := Z.of_nat (length (files r)) in
  if n <=? 0 then Panics (* rand.Intn(0) *)
  else
    let '(offset, g') := Intn g n in
    match index (files r) offset, index (files r) (n - 1) with
    | Some f, Some l =>
        let files1 := <[Z.to_nat offset := l]> (files r) in
        let files2 := take (Z.to_nat (n - 1)) files1 in
        Returns (f, {| files := files2 |}, g')
    | _, _ => Panics (* index out of range *)
    end.

(** Test drivers: add all the items of a list; call [GetAndRemove] [n]
    times, collecting what it returns. *)
Definition add_all (r : RandomQueue) (xs : list T) : RandomQueue :=
  foldl Add r xs.

Fixpoint drain (n : nat) (r : RandomQueue) (g : rng)
  : outcome (list T * RandomQueue * rng) :=
  match n with
  | O => Returns ([], r, g)
  | S n' =>
      '(f, r1, g1) ← GetAndRemove r g;
      '(out, r2, g2) ← drain n' r1 g1;
      Returns (f :: out, r2, g2)
  end.
End RandomQueue.

(** A source for the examples: it walks through the residues. *)
Definition counter_Intn (g : Z) (n : Z) : Z * Z := (g mod n, g + 1).
End RandomQueue.

(** ** Channels

    A channel value is a handle into a store of channel objects; [make]
    allocates a fresh one.  The store holds the channels as they are when no
    goroutine is parked on them.  A send completes when the buffer has room;
    without room the sender parks until a receiver comes, which in a single
    call is the outcome [Blocks].  (On a full buffer of capacity 1 or more no
    receiver can be parked, since a receiver parks on an empty buffer only;
    with capacity 0 a send completes only together with a receive of another
    goroutine: the hand-off steps of [WorkerPool] and of [PubSubSteps].) *)

Module Chan.
Abbreviation handle := nat.

(** The bounds of [runtime.makechan] on linux/amd64: the largest
    allocation, and the size of the header of a channel. *)
Definition maxAlloc : Z := 2 ^ 48.
Definition hchanSize : Z := 96.

(** The check of [runtime.makechan] on the size of the buffer: the size,
    brought to [int], must not be negative (a [uint] of 2^63 or more is), and
    the buffer must fit under [maxAlloc].  Running out of memory below that
    bound is a fatal error of the runtime, not a panic, and is not
    modelled. *)
Definition size_out_of_range (elemsize size : Z) : bool :=
  (size <? 0) || (2 ^ 63 <=? size) || (maxAlloc - hchanSize <? elemsize * size).

Section Chan.
Context {T : Type} {sz : Sizeof T}.

Record chan := { cap : nat; buf : list T; closed : bool }.

Definition push (msg : T) (ch : chan) : chan :=
  {| cap := cap ch; buf := buf ch ++ [msg]; closed := closed ch |}.

Definition shut (ch : chan) : chan :=
  {| cap := cap ch; buf := buf ch; closed := true |}.

(** [make(chan T, buffSize)] *)
Definition make (σ : gmap nat chan) (buffSize : nat)
  : outcome (handle * gmap nat chan) :=
  if size_out_of_range (sizeof T) (Z.of_nat buffSize) then Panics
  else
    let c := fresh (dom σ) in
    Returns (c, <[c := {| cap := buffSize; buf := []; closed := false |}]> σ).

(** [c <- msg]: panics on a closed channel; a handle outside the store is
    the nil channel, on which a send blocks forever. *)
Definition send (σ : gmap nat chan) (c : handle) (msg : T)
  : outcome (gmap nat chan) :=
  match σ !! c with
  | None => Blocks
  | Some ch =>
      if closed ch then Panics
      else if (length (buf ch) <? cap ch)%nat then Returns (<[c := push msg ch]> σ)
      else Blocks
  end.

(** [c <- msg] when a goroutine is parked in a receive on [c]: the value
    goes to that goroutine directly and the buffer, which is empty (a
    receiver parks on an empty buffer only), stays as it is. *)
Definition handoff (σ : gmap nat chan) (c : handle) : outcome (gmap nat chan) :=
  match σ !! c with
  | None => Blocks
  | Some ch =>
      if closed ch then Panics
      else match buf ch with [] => Returns σ | _ :: _ => Blocks end
  end.

(** [close(c)]: panics on a closed channel and on the nil channel. *)
Definition close (σ : gmap nat chan) (c : handle) : outcome (gmap nat chan) :=
  match σ !! c with
  | None => Panics
  | Some ch => if closed ch then Panics else Returns (<[c := shut ch]> σ)
  end.

(** The channel is open and its buffer takes one more value. *)
Definition has_room (σ : gmap nat chan) (c : handle) : Prop :=
  ∃ ch, σ !! c = Some ch ∧ closed ch = false ∧ (length (buf ch) < cap ch)%nat.

Definition is_open (σ : gmap nat chan) (c : handle) : Prop :=
  ∃ ch, σ !! c = Some ch ∧ closed ch = false.

Definition pop (ch : chan) : chan :=
  {| cap := cap ch; buf := tail (buf ch); closed := closed ch |}.

(** [v, ok := <-c]: the oldest buffered value; on a closed and drained
    channel the zero value with [ok = false] ([None] here); on an open and
    empty channel, and on the nil channel, the receiver waits. *)
Definition recv (σ : gmap nat chan) (c : handle)
  : outcome (option T * gmap nat chan) :=
  match σ !! c with
  | None => Blocks
  | Some ch =>
      match buf ch with
      | v :: _ => Returns (Some v, <[c := pop ch]> σ)
      | [] => if closed ch then Returns (None, σ) else Blocks
      end
  end.

(** No channel of the store is closed. *)
Definition all_open (σ : gmap nat chan) : Prop :=
  ∀ c ch, σ !! c = Some ch → closed ch = false.
End Chan.
Arguments chan : clear implicits.
End Chan.

(** ** pubsub.go

    [PubSub] as in src/email.go (second document). *)

Module PubSub.
Import Chan.
Section PubSub.
Context {T : Type} {sz : Sizeof T}.
Abbreviation store := (gmap nat (chan T)).

Record PubSub := { clients : list handle }.

Definition NewPubSub : PubSub := {| clients := [] |}.

Definition Register (s : PubSub) (σ : store) (buffSize : nat)
  : outcome (handle * PubSub * store) :=
  '(c, σ') ← make σ buffSize;
  Returns (c, {| clients := clients s ++ [c] |}, σ').

(** [for _, v := range buffer { v <- msg }] *)
Fixpoint send_each (buffer : list handle) (σ : store) (msg : T) : outcome store :=
  match buffer with
  | [] => Returns σ
  | v :: rest => σ' ← send σ v msg; send_each rest σ' msg
  end.

Definition Broadcast (s : PubSub) (σ : store) (msg : T) : outcome store :=
  let buffer := clients s in
  send_each buffer σ msg.

(** The loop stops at the first [i] with [s.clients[i] == c]. *)
Definition Unregister (s : PubSub) (σ : store) (c : handle)
  : outcome (PubSub * store) :=
  match list_find (λ v, v = c) (clients s) with
  | None => Returns (s, σ)
  | Some (i, v) =>
      let n := Z.of_nat (length (clients s)) in
      match index (clients s) (n - 1) with
      | Some l =>
          let clients1 := <[i := l]> (clients s) in
          Returns ({| clients := take (Z.to_nat (n - 1)) clients1 |}, σ)
      | None => Panics
      end
  end.

Definition Size (s : PubSub) : Z := Z.of_nat (length (clients s)).

Definition IsActive (s : PubSub) : bool := 0 <? Z.of_nat (length (clients s)).

(** What holds of every [PubSub] built with [Register] and [Unregister]:
    no handle is registered twice, and every handle is allocated. *)
Definition wf (s : PubSub) (σ : store) : Prop :=
  NoDup (clients s) ∧ ∀ c, c ∈ clients s → c ∈ dom σ.

(** The effect on the store of a broadcast that completed: one more value
    in the buffer of every channel of [l], nothing else. *)
Definition delivered (l : list handle) (msg : T) (σ σ' : store) : Prop :=
  ∀ c, σ' !! c = if decide (c ∈ l) then push msg <$> σ !! c else σ !! c.

(** The effect on the store of a broadcast of [msg] to the channels of [l]
    that completed: in each of them [msg] comes after what the buffer held,
    and nothing else is different. *)
Definition appended (l : list handle) (msg : T) (σ σ' : store) : Prop :=
  ∀ c,
    if decide (c ∈ l) then
      ∃ ch ch', σ !! c = Some ch ∧ σ' !! c = Some ch' ∧
                buf ch' = buf ch ++ [msg] ∧ cap ch' = cap ch ∧
                closed ch' = closed ch
    else σ' !! c = σ !! c.

(** What the spec asks of an [Unregister]: called on a registered, open
    channel it returns, the handle is gone from the list, and the channel
    is still open. *)
Definition removes_and_leaves_open
    (Unregister : PubSub → store → handle → outcome (PubSub * store)) : Prop :=
  ∀ s σ c, NoDup (clients s) → c ∈ clients s → is_open σ c →
    ∃ s' σ', Unregister s σ c = Returns (s', σ') ∧
             (c ∉ clients s') ∧ is_open σ' c.
End PubSub.
End PubSub.

(** ** pubsub.go, the revision of src/unnamed/part_005

    [Register], [Broadcast], [Size] and [IsActive] read as above (without
    the read locks of the last two); [Unregister] closes the channel it
    finds before it removes it. *)

Module PubSubClosing.
Import Chan.
Export PubSub(PubSub, clients, NewPubSub, Register, Broadcast).
Section PubSubClosing.
Context {T : Type}.
Abbreviation store := (gmap nat (chan T)).

Definition Unregister (s : PubSub) (σ : store) (c : handle)
  : outcome (PubSub * store) :=
  match list_find (λ v, v = c) (clients s) with
  | None => Returns (s, σ)
  | Some (i, v) =>
      σ' ← close σ v;
      let n := Z.of_nat (length (clients s)) in
      match index (clients s) (n - 1) with
      | Some l =>
          let clients1 := <[i := l]> (clients s) in
          Returns ({| clients := take (Z.to_nat (n - 1)) clients1 |}, σ')
      | None => Panics
      end
  end.
End PubSubClosing.
End PubSubClosing.

(** ** package time *)

Module time.
(** An instant, in nanoseconds since the zero [Time]; a [Duration] is a
    number of nanoseconds. *)
Abbreviation Time := Z.
Abbreviation Duration := Z.

Definition Millisecond : Duration := 1000000.

(** The zero value of [time.Time]. *)
Definition zero : Time := 0.

(** [t.After(u)] *)
Definition After (t u : Time) : bool := u <? t.

(** [t.Add(d)] *)
Definition Add (t : Time) (d : Duration) : Time := t + d.
End time.

(** ** Floating point: float64, float32 and package math *)

Module float.
Definition float64 := spec_float.
Definition float32 := spec_float.

Definition sub64 (x y : float64) : float64 := SFsub 53 1024 x y.
Definition sub32 (x y : float32) : float32 := SFsub 24 128 x y.

(** The conversion [float64(x)] of a [float32]: exact, the value is brought
    to the binary64 representation. *)
Definition float64_of_float32 (x : float32) : float64 :=
  match x with
  | S754_finite s m e => binary_round 53 1024 s m e
  | _ => x
  end.

(** [math.Abs] *)
Definition Abs (x : float64) : float64 := SFabs x.

(** [x > y] and [x < y] on float64 *)
Definition gt (x y : float64) : bool := SFltb y x.
Definition lt (x y : float64) : bool := SFltb x y.

(** The constants [0.00000001] and [0.00001], converted to float64. *)
Definition epsilon64 : float64 := S754_finite false 0x15798EE2308C3A (-79).
Definition epsilon32 : float64 := S754_finite false 0x14F8B588E368F1 (-69).

(** [math.Abs(x - y)] on float64, and [math.Abs(float64(x - y))] on
    float32: the differences [SetValue] compares with the constants. *)
Definition delta64 (x y : float64) : float64 := Abs (sub64 x y).
Definition delta32 (x y : float32) : float64 := Abs (float64_of_float32 (sub32 x y)).

(** A float64 or float32 from an integer and a binary exponent. *)
Definition of_Z64 (m e : Z) : float64 := binary_normalize 53 1024 m e false.
Definition of_Z32 (m e : Z) : float32 := binary_normalize 24 128 m e false.
End float.

(** ** debounce.go: the fetcher closure *)

Module Fetch.
Section Fetch.
Context {T E F : Type}.

(** A [func() (T, error)] is a closure: [F] is the state it captures, and a
    call returns the value, the error ([None] for nil) and the new state.
    [calls] counts the invocations. *)
Record world := { closure : F; calls : nat }.

Definition invoke (fetcher : F → T * option E * F) (w : world)
  : T * option E * world :=
  let '(v, err, st) := fetcher (closure w) in
  (v, err, {| closure := st; calls := S (calls w) |}).
End Fetch.
Arguments world : clear implicits.

(** The fetchers of debounce_test.go.  [successive] returns 1, 2, 3, ...;
    [flaky] does the same until its flag [fail] is set, and then returns 0
    and an error. *)
Definition successive (n : Z) : Z * option unit * Z := (n + 1, None, n + 1).

Definition flaky (st : Z * bool) : Z * option unit * (Z * bool) :=
  let '(value, fail) := st in
  if fail then (0, Some tt, st) else (value + 1, None, (value + 1, fail)).
End Fetch.

(** ** debounce.go: Debouncer *)

Module Debouncer.
Import time Fetch.
Section Debouncer.
Context {T E F : Type} {zero : ZeroValue T}.

Record Debouncer := {
  fetcher : F → T * option E * F;
  lastValue : T;
  timeOut : Time;
  delay : Duration
}.

Definition NewDebouncer (delay : Duration) (fetcher : F → T * option E * F)
  : Debouncer :=
  {| fetcher := fetcher; lastValue := zero_value;
     timeOut := time.zero; delay := delay |}.

(** [now] is what [time.Now()] reads in the condition, [now'] what it reads
    after the fetch. *)
Definition GetValue (d : Debouncer) (w : world F) (now now' : Time)
  : T * option E * Debouncer * world F :=
  if After now (timeOut d) then
    let '(value, err, w') := invoke (fetcher d) w in
    match err with
    | None =>
        let d' := {| fetcher := fetcher d; lastValue := value;
                     timeOut := Add now' (delay d); delay := delay d |} in
        (lastValue d', None, d', w')
    | Some _ => (lastValue d, None, d, w')
    end
  else (lastValue d, None, d, w).
End Debouncer.
Arguments Debouncer : clear implicits.
End Debouncer.

(** ** debounce.go: PubSubDebouncer

    The [context] field is left out; the background goroutine [fetcher] is
    in [FetcherLoop] below, and [Register] reports whether it starts it. *)

Module PubSubDebouncer.
Import time Fetch Chan float.

(** What [SetValue] asks of the type parameter [T comparable].

    [as_float64 x] is the type assertion [any(x).(float64)]: the value when
    the dynamic type of [x] is [float64] itself, [None] otherwise (the
    assertion then panics, and the [case float64] of a type switch is not
    taken).  For a type that is not an interface type the dynamic type is
    [T]; a defined type such as [type Celsius float64] is not [float64].
    [as_float32] is the same for [float32].

    [neq x y] is Go's [x != y] on [T]; [None] when the comparison panics,
    which it does on two interface values whose common dynamic type is not
    comparable. *)
Class comparable (T : Type) := {
  as_float64 : T → option float64;
  as_float32 : T → option float32;
  neq : T → T → option bool
}.

(** [x != y] on floating-point values: IEEE 754, so that a NaN differs from
    every value, itself included, and [-0] equals [+0]. *)
Definition float_neq (x y : spec_float) : bool := negb (SFeqb x y).

Definition float64_comparable : comparable float64 :=
  {| as_float64 := Some; as_float32 := λ _, None;
     neq := λ x y, Some (float_neq x y) |}.

Definition float32_comparable : comparable float32 :=
  {| as_float64 := λ _, None; as_float32 := Some;
     neq := λ x y, Some (float_neq x y) |}.

(** [int] *)
Definition Z_comparable : comparable Z :=
  {| as_float64 := λ _, None; as_float32 := λ _, None;
     neq := λ x y, Some (negb (x =? y)) |}.

(** A defined type [type Celsius float64]: the values and the [!=] of
    [float64], under another dynamic type. *)
Definition Celsius := float64.

Definition Celsius_comparable : comparable Celsius :=
  {| as_float64 := λ _, None; as_float32 := λ _, None;
     neq := λ x y, Some (float_neq x y) |}.

(** The interface type [any], which satisfies [comparable]: a value is nil
    or holds a value of a dynamic type, here [float64], [float32], [int] or
    a slice (given by the address of its array), the last of which is not
    comparable. *)
Inductive any : Type :=
  | nil_any
  | any_float64 (x : float64)
  | any_float32 (x : float32)
  | any_int (x : Z)
  | any_slice (addr : nat).

Definition any_neq (x y : any) : option bool :=
  match x, y with
  | nil_any, nil_any => Some false
  | any_float64 a, any_float64 b => Some (float_neq a b)
  | any_float32 a, any_float32 b => Some (float_neq a b)
  | any_int a, any_int b => Some (negb (a =? b))
  | any_slice _, any_slice _ => None (* comparing uncomparable type *)
  | _, _ => Some true
  end.

Definition any_comparable : comparable any :=
  {| as_float64 := λ x, match x with any_float64 a => Some a | _ => None end;
     as_float32 := λ x, match x with any_float32 a => Some a | _ => None end;
     neq := any_neq |}.

Section PubSubDebouncer.
Context {T E F : Type} {zero : ZeroValue T} {sz : Sizeof T} {dyn : comparable T}.
Abbreviation store := (gmap nat (chan T)).

Record PubSubDebouncer := {
  lastValue : T;
  listeners : PubSub.PubSub;
  delay : Duration;
  timeOut : Time;
  fetcherFunc : F → T * option E * F
}.

Definition NewPubSubDebouncer (delay : Duration) (fetcher : F → T * option E * F)
  : outcome PubSubDebouncer :=
  if delay <? 100 * Millisecond then Panics
  else Returns {| lastValue := zero_value; listeners := PubSub.NewPubSub;
                  delay := delay; timeOut := time.zero; fetcherFunc := fetcher |}.

Definition set_lastValue (d : PubSubDebouncer) (v : T) : PubSubDebouncer :=
  {| lastValue := v; listeners := listeners d; delay := delay d;
     timeOut := timeOut d; fetcherFunc := fetcherFunc d |}.

Definition set_timeOut (d : PubSubDebouncer) (t : Time) : PubSubDebouncer :=
  {| lastValue := lastValue d; listeners := listeners d; delay := delay d;
     timeOut := t; fetcherFunc := fetcherFunc d |}.

Definition set_listeners (d : PubSubDebouncer) (s : PubSub.PubSub) : PubSubDebouncer :=
  {| lastValue := lastValue d; listeners := s; delay := delay d;
     timeOut := timeOut d; fetcherFunc := fetcherFunc d |}.

(** [now] is what [time.Now()] reads in the condition, [now'] what it reads
    after the fetch. *)
Definition GetValue (d : PubSubDebouncer) (w : world F) (now now' : Time)
  : T * option E * PubSubDebouncer * world F :=
  if After now (timeOut d) then
    let '(v, err, w') := invoke (fetcherFunc d) w in
    let d1 := set_lastValue d v in
    match err with
    | None =>
        let d2 := set_timeOut d1 (Add now' (delay d1)) in
        (lastValue d2, None, d2, w')
    | Some e => (lastValue d1, Some e, d1, w')
    end
  else (lastValue d, None, d, w).

(** The reading "[GetValue] invokes the fetch function if and only if the
    current time is at or past the refresh deadline". *)
Definition fetches_at_or_past_deadline : Prop :=
  ∀ d w now now',
    calls (GetValue d w now now').2 = S (calls w) ↔ timeOut d ≤ now.

Definition GetValueMust (d : PubSubDebouncer) (w : world F) (now now' : Time)
  : outcome (T * PubSubDebouncer * world F) :=
  let '(value, err, d', w') := GetValue d w now now' in
  match err with
  | Some _ => Panics
  | None => Returns (value, d', w')
  end.

(** The [switch] of [SetValue] on the dynamic type of [value], up to the
    decision to replace the cached value.  In the two floating-point cases
    the cached value is read through a type assertion, which panics when its
    dynamic type is another one. *)
Definition differs (last value : T) : outcome bool :=
  match as_float64 value with
  | Some v =>
      match as_float64 last with
      | Some l => Returns (gt (delta64 l v) epsilon64)
      | None => Panics
      end
  | None =>
      match as_float32 value with
      | Some v =>
          match as_float32 last with
          | Some l => Returns (gt (delta32 l v) epsilon32)
          | None => Panics
          end
      | None =>
          match neq last value with
          | Some b => Returns b
          | None => Panics
          end
      end
  end.

(** The outer outcome is that of the part under the lock: a panic of the
    [switch] comes before any field is written.  The fields are written
    under the lock and the broadcast follows: the new state is there
    whatever the outcome of the broadcast, which is the inner outcome. *)
Definition SetValue (d : PubSubDebouncer) (σ : store) (value : T) (now : Time)
  : outcome (PubSubDebouncer * outcome store) :=
  differs (lastValue d) value ≫= λ doBroadcast : bool,
  let d1 := if doBroadcast then set_lastValue d value else d in
  let d2 := set_timeOut d1 (Add now (delay d1)) in
  Returns (d2, if doBroadcast then PubSub.Broadcast (listeners d2) σ value
               else Returns σ).

(** The two ways for [SetValue] to return.  Either the cached value stays
    and nothing is sent: only the deadline is new, and the store of channels
    is as it was.  Or the value is cached and broadcast: when every
    subscriber's channel has room, each of them (and no other channel) gets
    the value once. *)
Definition keeps_value_and_silent
    (d : PubSubDebouncer) (σ : store) (value : T) (now : Time) : Prop :=
  ∃ d', SetValue d σ value now = Returns (d', Returns σ) ∧
        lastValue d' = lastValue d ∧ timeOut d' = now + delay d ∧
        delay d' = delay d ∧ listeners d' = listeners d ∧
        fetcherFunc d' = fetcherFunc d.

Definition updates_and_broadcasts_once
    (d : PubSubDebouncer) (σ : store) (value : T) (now : Time) : Prop :=
  NoDup (PubSub.clients (listeners d)) →
  (∀ c, c ∈ PubSub.clients (listeners d) → has_room σ c) →
  ∃ d' σ', SetValue d σ value now = Returns (d', Returns σ') ∧
           lastValue d' = value ∧ timeOut d' = now + delay d ∧
           delay d' = delay d ∧ listeners d' = listeners d ∧
           fetcherFunc d' = fetcherFunc d ∧
           PubSub.appended (PubSub.clients (listeners d)) value σ σ'.

(** The last component tells whether [go d.fetcher()] runs: when it is
    [true] a new goroutine stands at the top of [fetcher], whose steps are
    those of [FetcherLoop] below and interleave with the callers'. *)
Definition Register (d : PubSubDebouncer) (σ : store)
  : outcome (handle * PubSubDebouncer * store * bool) :=
  let wasActive := PubSub.IsActive (listeners d) in
  '(newListener, s', σ') ← PubSub.Register (listeners d) σ 1;
  Returns (newListener, set_listeners d s', σ', negb wasActive).

Definition Unregister (d : PubSubDebouncer) (σ : store) (c : handle)
  : outcome (PubSubDebouncer * store) :=
  '(s', σ') ← PubSub.Unregister (listeners d) σ c;
  Returns (set_listeners d s', σ').
End PubSubDebouncer.
Arguments PubSubDebouncer : clear implicits.
End PubSubDebouncer.

(** ** workerPool.go

    The pool runs [numWorkers] goroutines next to its callers, so its
    behaviour is a transition system.  A state holds the two channel
    buffers, the counter, and where every goroutine stands; a step is one
    statement of one goroutine.  [Post] is two steps ([count.Add(1)], then
    the send), [Result] is two steps (the receive, then [count.Add(-1)]).
    A send on a channel completes into the buffer, or directly to a
    goroutine that waits to receive (the only way with [backlog = 0]).
    A panic ends the program: the steps are those of runs without one. *)

Module WorkerPool.

(** [atomic.Int32]: additions wrap around. *)
Definition wrap32 (z : Z) : Z := (z + 2 ^ 31) mod 2 ^ 32 - 2 ^ 31.

Section WorkerPool.
Context {W R : Type} {sizeW : Sizeof W} {sizeR : Sizeof R}.
Variable f : W → R.
Variable backlog : Z.

Record WorkerPool := {
  work : list W;       (* buffer of the channel [work] *)
  result : list R;     (* buffer of the channel [result] *)
  closed : bool;       (* [work] is closed *)
  count : Z;           (* the atomic counter *)
  idle : nat;          (* workers waiting at [range pool.work] *)
  holding : list R;    (* workers waiting at [pool.result <- pool.f(w)] *)
  posting : list W;    (* [Post] calls waiting at [wp.work <- w] *)
  receiving : list R;  (* [Result] calls before [wp.count.Add(-1)] *)
  posted : list W;     (* history: the arguments of the [Post] calls *)
  retrieved : list R   (* history: the values the [Result] calls returned *)
}.

(** The two checks, then [make(chan R, backlog)] and [make(chan W, backlog)]
    with the check of the runtime on the size of each buffer. *)
Definition NewWorkerPool (numWorkers : Z) : outcome WorkerPool :=
  if backlog <? 0 then Panics
  else if numWorkers <? 1 then Panics
  else if Chan.size_out_of_range (sizeof R) backlog then Panics
  else if Chan.size_out_of_range (sizeof W) backlog then Panics
  else Returns {| work := []; result := []; closed := false; count := 0;
                  idle := Z.to_nat numWorkers; holding := [];
                  posting := []; receiving := [];
                  posted := []; retrieved := [] |}.

Definition Len (wp : WorkerPool) : Z := count wp.

Definition IsActive (wp : WorkerPool) : bool := 0 <? count wp.

(** The statements a goroutine can execute next.  An index names the
    waiting call or worker that moves. *)
Inductive action : Type :=
  | PostAdd (w : W)          (* Post: wp.count.Add(1) *)
  | PostSend (i : nat)       (* Post: wp.work <- w, into the buffer *)
  | PostHandoff (i : nat)    (* Post: wp.work <- w, to a waiting worker *)
  | WorkerTake               (* worker: w := <-pool.work; pool.f(w) *)
  | WorkerSend (i : nat)     (* worker: pool.result <- v, into the buffer *)
  | WorkerExit               (* worker: pool.work closed and drained *)
  | ResultRecv               (* Result: v := <-wp.result, from the buffer *)
  | ResultHandoff (i : nat)  (* Result: v := <-wp.result, from a waiting worker *)
  | ResultAdd (i : nat)      (* Result: wp.count.Add(-1); return v *)
  | Close.                   (* Close: close(wp.work) *)

Definition exec (a : action) (s : WorkerPool) : option WorkerPool :=
  match a with
  | PostAdd w =>
      Some {| work := work s; result := result s; closed := closed s;
              count := wrap32 (count s + 1);
              idle := idle s; holding := holding s;
              posting := posting s ++ [w]; receiving := receiving s;
              posted := posted s ++ [w]; retrieved := retrieved s |}
  | PostSend i =>
      match posting s !! i with
      | Some w =>
          if negb (closed s) && (Z.of_nat (length (work s)) <? backlog) then
            Some {| work := work s ++ [w]; result := result s; closed := closed s;
                    count := count s; idle := idle s; holding := holding s;
                    posting := delete i (posting s); receiving := receiving s;
                    posted := posted s; retrieved := retrieved s |}
          else None
      | None => None
      end
  | PostHandoff i =>
      match posting s !! i, work s, idle s with
      | Some w, [], S n =>
          if negb (closed s) then
            Some {| work := []; result := result s; closed := closed s;
                    count := count s; idle := n; holding := holding s ++ [f w];
                    posting := delete i (posting s); receiving := receiving s;
                    posted := posted s; retrieved := retrieved s |}
          else None
      | _, _, _ => None
      end
  | WorkerTake =>
      match work s, idle s with
      | w :: rest, S n =>
          Some {| work := rest; result := result s; closed := closed s;
                  count := count s; idle := n; holding := holding s ++ [f w];
                  posting := posting s; receiving := receiving s;
                  posted := posted s; retrieved := retrieved s |}
      | _, _ => None
      end
  | WorkerSend i =>
      match holding s !! i with
      | Some v =>
          if Z.of_nat (length (result s)) <? backlog then
            Some {| work := work s; result := result s ++ [v]; closed := closed s;
                    count := count s; idle := S (idle s);
                    holding := delete i (holding s);
                    posting := posting s; receiving := receiving s;
                    posted := posted s; retrieved := retrieved s |}
          else None
      | None => None
      end
  | WorkerExit =>
      match work s, idle s with
      | [], S n =>
          if closed s then
            Some {| work := []; result := result s; closed := closed s;
                    count := count s; idle := n; holding := holding s;
                    posting := posting s; receiving := receiving s;
                    posted := posted s; retrieved := retrieved s |}
          else None
      | _, _ => None
      end
  | ResultRecv =>
      match result s with
      | v :: rest =>
          Some {| work := work s; result := rest; closed := closed s;
                  count := count s; idle := idle s; holding := holding s;
                  posting := posting s; receiving := receiving s ++ [v];
                  posted := posted s; retrieved := retrieved s |}
      | [] => None
      end
  | ResultHandoff i =>
      match holding s !! i, result s with
      | Some v, [] =>
          Some {| work := work s; result := []; closed := closed s;
                  count := count s; idle := S (idle s);
                  holding := delete i (holding s);
                  posting := posting s; receiving := receiving s ++ [v];
                  posted := posted s; retrieved := retrieved s |}
      | _, _ => None
      end
  | ResultAdd i =>
      match receiving s !! i with
      | Some v =>
          Some {| work := work s; result := result s; closed := closed s;
                  count := wrap32 (count s + -1);
                  idle := idle s; holding := holding s;
                  posting := posting s; receiving := delete i (receiving s);
                  posted := posted s; retrieved := retrieved s ++ [v] |}
      | None => None
      end
  | Close =>
      if closed s then None
      else
        Some {| work := work s; result := result s; closed := true;
                count := count s; idle := idle s; holding := holding s;
                posting := posting s; receiving := receiving s;
                posted := posted s; retrieved := retrieved s |}
  end.

Definition step (s s' : WorkerPool) : Prop := ∃ a, exec a s = Some s'.

(** Run a schedule. *)
Fixpoint run (acts : list action) (s : WorkerPool) : option WorkerPool :=
  match acts with
  | [] => Some s
  | a :: rest => match exec a s with Some s' => run rest s' | None => None end
  end.

(** No [Post] or [Result] call is under way. *)
Definition quiescent (s : WorkerPool) : Prop :=
  posting s = [] ∧ receiving s = [].

(** The statement of the in-flight invariant, for the pools made by
    [NewWorkerPool numWorkers]: whenever no call is under way, [Len()] is the
    number of [Post] calls minus the number of [Result] calls, and it is not
    negative. *)
Definition in_flight_exact (numWorkers : Z) : Prop :=
  ∀ s0 s, NewWorkerPool numWorkers = Returns s0 → rtc step s0 s → quiescent s →
    Len s = Z.of_nat (length (posted s)) - Z.of_nat (length (retrieved s)) ∧
    0 ≤ Len s.
(** Every result owed for a posted item is in exactly one place: returned to
    a caller, in the hands of a [Result] call, in the result buffer, held by
    a worker, or still to be computed from an item that waits in the work
    buffer or in a [Post] call.  The counter is the number of [Post] calls
    minus the number of [Result] calls that returned, in 32 bits. *)
Definition conserved (s : WorkerPool) : Prop :=
  f <$> posted s ≡ₚ
    retrieved s ++ receiving s ++ result s ++ holding s
    ++ (f <$> work s) ++ (f <$> posting s).

Definition counted (s : WorkerPool) : Prop :=
  count s = wrap32 (Z.of_nat (length (posted s)) - Z.of_nat (length (retrieved s))).

(** The workers: as long as the channel [work] is open or holds an item,
    none of the [n] workers has left its loop. *)
Definition manned (n : nat) (s : WorkerPool) : Prop :=
  closed s = false ∨ work s ≠ [] → (idle s + length (holding s))%nat = n.

(** The state after [n] calls [Post(w)] that all returned, on a pool whose
    workers have not run yet. *)
Definition after_posts (numWorkers : Z) (w : W) (n : nat) : WorkerPool :=
  {| work := replicate n w; result := []; closed := false;
     count := wrap32 (Z.of_nat n);
     idle := Z.to_nat numWorkers; holding := [];
     posting := []; receiving := [];
     posted := replicate n w; retrieved := [] |}.
End WorkerPool.
Arguments WorkerPool : clear implicits.

(** The schedule of TestWorkerPool on one worker and [backlog = 0]: every
    item is handed to the worker and its result handed to the caller; then
    the channel is closed and the worker exits. *)
Definition test_schedule : list (action (W:=Z)) :=
  concat ((λ i, [PostAdd i; PostHandoff 0; ResultHandoff 0; ResultAdd 0])
            <$> seqZ 1 10)
  ++ [Close; WorkerExit].

End WorkerPool.

(** ** pubsub.go: sequences of calls

    A client program of one [PubSub] (src/email.go) as the list of its
    calls: the three methods, and a subscriber receiving from its channel. *)

Module PubSubRun.
Import Chan PubSub.
Section PubSubRun.
Context {T : Type} {sz : Sizeof T}.
Abbreviation store := (gmap nat (chan T)).

Inductive call : Type :=
  | DoRegister (buffSize : nat)
  | DoUnregister (c : handle)
  | DoBroadcast (msg : T)
  | DoReceive (c : handle).

Definition do (o : call) (st : PubSub * store) : outcome (PubSub * store) :=
  let '(s, σ) := st in
  match o with
  | DoRegister buffSize =>
      '(_, s', σ') ← Register s σ buffSize; Returns (s', σ')
  | DoUnregister c => Unregister s σ c
  | DoBroadcast msg => σ' ← Broadcast s σ msg; Returns (s, σ')
  | DoReceive c => '(_, σ') ← recv σ c; Returns (s, σ')
  end.

Fixpoint run (calls : list call) (st : PubSub * store) : outcome (PubSub * store) :=
  match calls with
  | [] => Returns st
  | o :: rest => st' ← do o st; run rest st'
  end.
End PubSubRun.
End PubSubRun.

(** ** pubsub.go: calls of several goroutines

    [Broadcast] holds the read lock only while it copies the list of
    clients; its sends come after, one at a time, and calls of other
    goroutines come between them.  A state holds the [PubSub], the channels
    and the [Broadcast] calls under way, each with its message and the
    channels of its [buffer] it has not yet sent to.  A step is a call of
    [Register] or [Unregister], the snapshot of a [Broadcast], one send of a
    [Broadcast] under way (into the buffer, or handed to a goroutine that
    waits to receive from the channel), or a receive by a subscriber.
    [Blocks] tells that the step cannot be taken in the state.  The
    [Unregister] is that of the one or the other revision. *)

Module PubSubSteps.
Import Chan PubSub.
Section PubSubSteps.
Context {T : Type} {sz : Sizeof T}.
Abbreviation store := (gmap nat (chan T)).
Variable Unregister : PubSub → store → handle → outcome (PubSub * store).

Record state := {
  pubsub : PubSub;
  chans : store;
  under_way : list (T * list handle)
}.

Definition initial : state :=
  {| pubsub := NewPubSub; chans := ∅; under_way := [] |}.

Inductive action : Type :=
  | DoRegister (buffSize : nat)  (* Register(buffSize) *)
  | DoUnregister (c : handle)    (* Unregister(c) *)
  | Snapshot (msg : T)           (* Broadcast: the copy under the read lock *)
  | Send (i : nat)               (* Broadcast: v <- msg, into the buffer *)
  | Handoff (i : nat)            (* Broadcast: v <- msg, to a waiting receiver *)
  | Receive (c : handle).        (* a subscriber: <-c, from the buffer *)

Definition exec (a : action) (st : state) : outcome state :=
  match a with
  | DoRegister buffSize =>
      '(_, s', σ') ← Register (pubsub st) (chans st) buffSize;
      Returns {| pubsub := s'; chans := σ'; under_way := under_way st |}
  | DoUnregister c =>
      '(s', σ') ← Unregister (pubsub st) (chans st) c;
      Returns {| pubsub := s'; chans := σ'; under_way := under_way st |}
  | Snapshot msg =>
      let buffer := clients (pubsub st) in
      Returns {| pubsub := pubsub st; chans := chans st;
                 under_way := under_way st ++ [(msg, buffer)] |}
  | Send i =>
      match under_way st !! i with
      | Some (msg, v :: rest) =>
          σ' ← send (chans st) v msg;
          Returns {| pubsub := pubsub st; chans := σ';
                     under_way := <[i := (msg, rest)]> (under_way st) |}
      | _ => Blocks
      end
  | Handoff i =>
      match under_way st !! i with
      | Some (msg, v :: rest) =>
          σ' ← handoff (chans st) v;
          Returns {| pubsub := pubsub st; chans := σ';
                     under_way := <[i := (msg, rest)]> (under_way st) |}
      | _ => Blocks
      end
  | Receive c =>
      '(_, σ') ← recv (chans st) c;
      Returns {| pubsub := pubsub st; chans := σ'; under_way := under_way st |}
  end.

Fixpoint run (acts : list action) (st : state) : outcome state :=
  match acts with
  | [] => Returns st
  | a :: rest => st' ← exec a st; run rest st'
  end.

(** The sizes of the [Register] calls of a schedule all pass the check of
    [make]. *)
Definition sizes_in_range (acts : list action) : Prop :=
  ∀ buffSize, DoRegister buffSize ∈ acts →
    size_out_of_range (sizeof T) (Z.of_nat buffSize) = false.
End PubSubSteps.
Arguments state : clear implicits.
Arguments action : clear implicits.
End PubSubSteps.

(** ** math.go (src/unnamed/part_000) *)

Module AlmostEqual.
Import float.

(** The constant [1e-6], converted to float64. *)
Definition epsilon : float64 := S754_finite false 0x10C6F7A0B5ED8D (-72).

(** [AlmostEqual[float64]] and [AlmostEqual[float32]]: for float64 the
    conversion [float64(a - b)] is the identity. *)
Definition AlmostEqual64 (a b : float64) : bool :=
  let delta := Abs (sub64 a b) in
  lt delta epsilon.

Definition AlmostEqual32 (a b : float32) : bool :=
  let delta := Abs (float64_of_float32 (sub32 a b)) in
  lt delta epsilon.

Definition is_finite (x : spec_float) : bool :=
  match x with
  | S754_zero _ | S754_finite _ _ _ => true
  | S754_infinity _ | S754_nan => false
  end.
End AlmostEqual.

(** ** strings.go (src/valueTracker.go, second document)

    A string is its bytes.  [for _, r := range s] decodes one rune after the
    other with the UTF-8 decoder of the runtime, here [DecodeRune]: the rune
    and the number of bytes it takes. *)

Module Strings.
Section Strings.
Variable DecodeRune : list Byte.byte → Z * nat.

(** ['0'] is 48 and ['9'] is 57. *)
Definition isASCIIDigit (r : Z) : bool := (48 <=? r) && (r <=? 57).

(** The loop of [IsASCIIDigits]; the string gets shorter at every turn, and
    [fuel] bounds the turns. *)
Fixpoint range_digits (fuel : nat) (s : list Byte.byte) : bool :=
  match s with
  | [] => true
  | _ :: _ =>
      match fuel with
      | O => false
      | S fuel' =>
          let '(r, width) := DecodeRune s in
          if negb (isASCIIDigit r) then false
          else range_digits fuel' (drop width s)
      end
  end.

Definition IsASCIIDigits (s : list Byte.byte) : bool :=
  match s with
  | [] => false
  | _ :: _ => range_digits (length s) s
  end.
End Strings.

(** The value of a byte, and a decoder for the examples: an ASCII byte is
    its own rune, any other byte is taken for an invalid one (U+FFFD, one
    byte wide). *)
Definition byte_value (b : Byte.byte) : Z := Z.of_N (Byte.to_N b).

Definition ascii_or_error (s : list Byte.byte) : Z * nat :=
  match s with
  | [] => (65533, 0%nat)
  | b :: _ => if byte_value b <? 128 then (byte_value b, 1%nat) else (65533, 1%nat)
  end.
End Strings.

(** ** debounce.go: the background goroutine of PubSubDebouncer

    One turn of the loop of [fetcher] is two steps of the goroutine: the
    fetch with the [SetValue] that follows a success, and, after the wait of
    the [select], the decision to go on.  Between the two, other goroutines
    may register and unregister listeners: the decision reads the debouncer
    as it is then. *)

Module FetcherLoop.
Import time Fetch Chan PubSubDebouncer.
Section FetcherLoop.
Context {T E F : Type} {dyn : comparable T}.
Abbreviation store := (gmap nat (chan T)).

(** [value, err := d.fetcherFunc(); if err == nil { d.SetValue(value) }] *)
Definition fetch_and_set (d : PubSubDebouncer T E F) (σ : store) (w : world F)
    (now : Time) : outcome (PubSubDebouncer T E F * outcome store) * world F :=
  let '(value, err, w') := invoke (fetcherFunc d) w in
  match err with
  | None => (SetValue d σ value now, w')
  | Some _ => (Returns (d, Returns σ), w')
  end.

(** The [select] and the check after it: [done] tells that the case
    [<-d.context.Done()] was taken.  [true]: the loop goes on. *)
Definition wake (d : PubSubDebouncer T E F) (done : bool) : bool :=
  if done then false
  else PubSub.IsActive (listeners d).
End FetcherLoop.
End FetcherLoop.

(** ** arrayUtils.go (src/unnamed/part_003 and part_004, the same code) *)

Module Count.

(** [int64] additions wrap around. *)
Definition wrap64 (z : Z) : Z := (z + 2 ^ 63) mod 2 ^ 64 - 2 ^ 63.

Section Count.
Context {T : Type}.
Variable f : T → bool.

(** [d[s:e]]: panics unless [0 <= s <= e <= len(d)] (the capacity is taken
    to be the length). *)
Definition slice (d : list T) (s e : Z) : outcome (list T) :=
  if (0 <=? s) && (s <=? e) && (e <=? Z.of_nat (length d))
  then Returns (take (Z.to_nat (e - s)) (drop (Z.to_nat s) d))
  else Panics.

(** [for _, ele := range blk { if f(ele) { count++ } }] *)
Definition count_in (count : Z) (blk : list T) : Z :=
  foldl (λ c ele, if f ele then wrap64 (c + 1) else c) count blk.

(** The goroutines started by the first loop, in the order of their start:
    each has its block and will send its count. *)
Fixpoint spawn (n : nat) (d : list T) (block start : Z) : outcome (list Z) :=
  match n with
  | O => Returns []
  | S n' =>
      blk ← slice d start (start + block);
      rest ← spawn n' d block (start + block);
      Returns (count_in 0 blk :: rest)
  end.

(** [for ; cpuCount > 0; cpuCount-- { total += <-results }]: [arrival] is
    the order in which the goroutines get to send; when no goroutine is left
    to send, the receive waits for ever. *)
Fixpoint collect (cpuCount : nat) (arrival : list nat) (results : list Z)
    (total : Z) : outcome Z :=
  match cpuCount with
  | O => Returns total
  | S cpuCount' =>
      match arrival with
      | [] => Blocks
      | i :: rest =>
          match results !! i with
          | Some c => collect cpuCount' rest results (wrap64 (total + c))
          | None => Blocks
          end
      end
  end.

(** The number of elements of [d] that satisfy [f], and the sum of a list
    of counts. *)
Definition satisfying (d : list T) : Z := Z.of_nat (length (List.filter f d)).

Definition sumZ (l : list Z) : Z := foldr Z.add 0 l.

(** [cpuCount] is [runtime.NumCPU()]. *)
Definition Count (cpuCount : Z) (arrival : list nat) (d : list T) : outcome Z :=
  if cpuCount =? 0 then Panics (* integer divide by zero *)
  else
    let len := Z.of_nat (length d) in
    let block := len `quot` cpuCount in
    let blockRemainder := len `rem` cpuCount in
    total ←
      (if 0 <? block then
         results ← spawn (Z.to_nat cpuCount) d block 0;
         collect (Z.to_nat cpuCount) arrival results 0
       else Returns 0);
    if 0 <? blockRemainder then
      blk ← slice d (len - blockRemainder) len;
      Returns (count_in total blk)
    else Returns total.
End Count.
End Count.

(** * Part II: properties *)

(** ** Slices: overwrite a slot with the last element, then chop *)

Section overwrite_and_chop.
Context {A : Type}.
Implicit Types l : list A.

Lemma overwrite_chop_length l i x :
  length (take (length l - 1)%nat (<[i:=x]> l)) = (length l - 1)%nat.
Proof. rewrite length_take, length_insert. lia. Qed.

Lemma last_snoc_inv l x : last l = Some x → ∃ l1, l = l1 ++ [x].
Proof.
  destruct l as [|y l' _] using rev_ind; [done|].
  rewrite last_snoc. intros [= ->]. eauto.
Qed.

Lemma overwrite_chop_perm l i f x :
  l !! i = Some f → last l = Some x →
  l ≡ₚ f :: take (length l - 1)%nat (<[i:=x]> l).
Proof.
  intros Hi Hlast. destruct (last_snoc_inv _ _ Hlast) as [l1 ->].
  pose proof (lookup_lt_Some _ _ _ Hi) as Hlt.
  rewrite length_app in *. simpl in *.
  replace (length l1 + 1 - 1)%nat with (length l1) by lia.
  destruct (decide (i < length l1)%nat) as [Hin|Hout].
  - rewrite lookup_app_l in Hi by done.
    rewrite insert_app_l by done.
    rewrite take_app_length' by (by rewrite length_insert).
    rewrite insert_take_drop by done.
    rewrite <- (take_drop_middle l1 i f Hi) at 1.
    solve_Permutation.
  - assert (i = length l1) as -> by lia.
    rewrite list_lookup_middle in Hi by done. injection Hi as <-.
    rewrite list_insert_id by (by rewrite list_lookup_middle).
    rewrite take_app_length.
    by rewrite Permutation_app_comm.
Qed.
End overwrite_and_chop.

(** ** RandomQueue *)

Section RandomQueue_properties.
Import RandomQueue.
Context {T rng : Type}.
Variable Intn : rng → Z → Z * rng.
Hypothesis Intn_range : ∀ g n, 0 < n → 0 ≤ (Intn g n).1 < n.
Implicit Types r : @RandomQueue T.

Lemma files_add_all r xs : files (add_all r xs) = files r ++ xs.
Proof.
  revert r. induction xs as [|x xs IH]; intros r; simpl.
  - by rewrite app_nil_r.
  - rewrite IH. simpl. by rewrite <- app_assoc.
Qed.

Lemma GetAndRemove_empty r g : files r = [] → GetAndRemove Intn r g = Panics.
Proof. intros Hr. unfold GetAndRemove. by rewrite Hr. Qed.

Lemma GetAndRemove_nonempty r g :
  files r ≠ [] →
  ∃ f l,
    0 ≤ (Intn g (Len r)).1 < Len r ∧
    files r !! Z.to_nat (Intn g (Len r)).1 = Some f ∧
    files r !! (length (files r) - 1)%nat = Some l ∧
    GetAndRemove Intn r g =
      Returns (f,
               {| files := take (length (files r) - 1)%nat
                             (<[Z.to_nat (Intn g (Len r)).1 := l]> (files r)) |},
               (Intn g (Len r)).2).
Proof.
  intros Hne. unfold Len.
  assert (0 < Z.of_nat (length (files r))) as Hn.
  { destruct (files r); [done|]. simpl. lia. }
  pose proof (Intn_range g _ Hn) as Hoff.
  destruct (lookup_lt_is_Some_2 (files r)
              (Z.to_nat (Intn g (Z.of_nat (length (files r)))).1)) as [f Hf]; [lia|].
  destruct (lookup_lt_is_Some_2 (files r) (length (files r) - 1)%nat)
    as [l Hl]; [lia|].
  exists f, l. split; [done|]. split; [done|]. split; [done|].
  unfold GetAndRemove.
  destruct (Z.leb_spec (Z.of_nat (length (files r))) 0); [lia|].
  destruct (Intn g (Z.of_nat (length (files r)))) as [o g'] eqn:HI. simpl in *.
  unfold index.
  destruct (Z.ltb_spec o 0); [lia|].
  destruct (Z.ltb_spec (Z.of_nat (length (files r)) - 1) 0); [lia|].
  replace (Z.to_nat (Z.of_nat (length (files r)) - 1))
    with (length (files r) - 1)%nat by lia.
  by rewrite Hf, Hl.
Qed.

Lemma GetAndRemove_perm r g f r' g' :
  GetAndRemove Intn r g = Returns (f, r', g') →
  files r ≡ₚ f :: files r' ∧ Len r' = Len r - 1.
Proof.
  intros Hg.
  destruct (decide (files r = [])) as [He|Hne].
  { by rewrite GetAndRemove_empty in Hg. }
  destruct (GetAndRemove_nonempty r g Hne) as (f0 & l & Hoff & Hf & Hl & Heq).
  rewrite Heq in Hg. injection Hg as <- <- <-. split.
  - simpl. apply overwrite_chop_perm; [done|].
    rewrite last_lookup.
    by replace (pred (length (files r))) with (length (files r) - 1)%nat by lia.
  - unfold Len. simpl. rewrite overwrite_chop_length.
    destruct (files r); [done|]. simpl. lia.
Qed.

Lemma drain_all n : ∀ r g,
  length (files r) = n →
  ∃ out r' g',
    drain Intn n r g = Returns (out, r', g') ∧ files r' = [] ∧ out ≡ₚ files r.
Proof.
  induction n as [|n IH]; intros r g Hlen; simpl.
  - exists [], r, g. apply nil_length_inv in Hlen. by rewrite Hlen.
  - assert (files r ≠ []) as Hne by (intros Hr; by rewrite Hr in Hlen).
    destruct (GetAndRemove_nonempty r g Hne) as (f & l & _ & _ & _ & Heq).
    pose proof (GetAndRemove_perm _ _ _ _ _ Heq) as [Hperm HLen].
    rewrite Heq. simpl.
    set (r1 := {| files := _ |}) in *.
    destruct (IH r1 (Intn g (Len r)).2) as (out & r' & g' & Hd & He & Hp).
    { unfold Len in HLen. lia. }
    rewrite Hd. simpl. exists (f :: out), r', g'.
    split; [done|]. split; [done|]. by rewrite Hperm, Hp.
Qed.

(** C4. On a queue of [n > 0] items [GetAndRemove] takes the index that
    [rand.Intn(n)] returns (an index of [[0, n)]; its distribution is that
    of [math/rand]), returns the item in that slot, copies the last item
    into the slot and cuts the slice to [n - 1] items.  Hence adding the
    items [xs] and removing [length xs] times returns a permutation of [xs]
    and leaves [Len() = 0]; on an empty queue [GetAndRemove] panics. *)
Theorem GetAndRemove_swap_with_last :
  (∀ r g, files r ≠ [] →
     let n := Len r in
     let offset := (Intn g n).1 in
     ∃ f l r',
       0 ≤ offset < n ∧
       index (files r) offset = Some f ∧
       index (files r) (n - 1) = Some l ∧
       files r' = take (Z.to_nat (n - 1)) (<[Z.to_nat offset := l]> (files r)) ∧
       GetAndRemove Intn r g = Returns (f, r', (Intn g n).2) ∧
       Len r' = n - 1) ∧
  (∀ (xs : list T) g, ∃ out r' g',
     drain Intn (length xs) (add_all NewRandomQueue xs) g = Returns (out, r', g') ∧
     Len r' = 0 ∧ out ≡ₚ xs ∧
     GetAndRemove Intn r' g' = Panics) ∧
  (∀ r g, Len r = 0 → GetAndRemove Intn r g = Panics).
Proof.
  split; [|split].
  - intros r g Hne. cbv zeta.
    destruct (GetAndRemove_nonempty r g Hne) as (f & l & Hoff & Hf & Hl & Heq).
    pose proof (GetAndRemove_perm _ _ _ _ _ Heq) as [_ HLen].
    exists f, l. eexists. unfold index.
    destruct (Z.ltb_spec (Intn g (Len r)).1 0); [lia|].
    destruct (Z.ltb_spec (Len r - 1) 0); [lia|].
    replace (Z.to_nat (Len r - 1)) with (length (files r) - 1)%nat
      by (unfold Len; lia).
    split; [exact Hoff|]. split; [exact Hf|]. split; [exact Hl|].
    split; [|split]; [|exact Heq|exact HLen]. reflexivity.
  - intros xs g.
    destruct (drain_all (length xs) (add_all NewRandomQueue xs) g)
      as (out & r' & g' & Hd & He & Hp).
    { by rewrite files_add_all. }
    exists out, r', g'. split; [done|]. split.
    { unfold Len. by rewrite He. }
    split; [by rewrite Hp, files_add_all|].
    by apply GetAndRemove_empty.
  - intros r g HLen. apply GetAndRemove_empty.
    unfold Len in HLen. apply nil_length_inv. lia.
Qed.
End RandomQueue_properties.

Lemma counter_Intn_range g n : 0 < n → 0 ≤ (RandomQueue.counter_Intn g n).1 < n.
Proof. intros Hn. simpl. by apply Z.mod_pos_bound. Qed.

Example GetAndRemove_run :
  RandomQueue.drain RandomQueue.counter_Intn 4
    (RandomQueue.add_all RandomQueue.NewRandomQueue [10; 20; 30; 40]) 1
  = Returns ([20; 30; 40; 10], RandomQueue.NewRandomQueue, 5).
Proof. reflexivity. Qed.

Lemma GetAndRemove_swap_with_last_witness :
  let q := RandomQueue.add_all RandomQueue.NewRandomQueue [10; 20; 30; 40] in
  (∀ g n, 0 < n → 0 ≤ (RandomQueue.counter_Intn g n).1 < n) ∧
  RandomQueue.files q ≠ [] ∧
  (∃ r', RandomQueue.GetAndRemove RandomQueue.counter_Intn q 6
           = Returns (30, r', 7) ∧
         RandomQueue.files r' = [10; 20; 40] ∧ RandomQueue.Len r' = 3) ∧
  (∃ out r' g',
     RandomQueue.drain RandomQueue.counter_Intn 4 q 1 = Returns (out, r', g') ∧
     RandomQueue.Len r' = 0 ∧ out ≡ₚ [10; 20; 30; 40] ∧
     RandomQueue.GetAndRemove RandomQueue.counter_Intn r' g' = Panics) ∧
  RandomQueue.GetAndRemove RandomQueue.counter_Intn
    (RandomQueue.NewRandomQueue (T:=Z)) 0 = Panics.
Proof.
  intros q.
  destruct (GetAndRemove_swap_with_last (T:=Z)
              RandomQueue.counter_Intn counter_Intn_range) as (H1 & H2 & H3).
  assert (RandomQueue.files q ≠ []) as Hq by discriminate.
  split; [exact counter_Intn_range|]. split; [exact Hq|]. split; [|split].
  - destruct (H1 q 6 Hq) as (f & l & r' & _ & Hf & Hl & Hfiles & Hget & HLen).
    injection Hf as <-. injection Hl as <-.
    exists r'. split; [exact Hget|]. split; [exact Hfiles|exact HLen].
  - exact (H2 [10; 20; 30; 40] 1).
  - apply H3. reflexivity.
Defined.

(** ** Channels *)

Section Chan_properties.
Import Chan.
Context {T : Type}.
Implicit Types σ : gmap nat (chan T).

Lemma send_has_room σ c msg :
  has_room σ c →
  ∃ ch, σ !! c = Some ch ∧ send σ c msg = Returns (<[c := push msg ch]> σ).
Proof.
  intros (ch & Hc & Hop & Hlen). exists ch. split; [done|].
  unfold send. rewrite Hc, Hop.
  by destruct (Nat.ltb_spec (length (buf ch)) (cap ch)); [|lia].
Qed.

Lemma send_Returns_inv σ c msg σ' :
  send σ c msg = Returns σ' →
  has_room σ c ∧ ∃ ch, σ !! c = Some ch ∧ σ' = <[c := push msg ch]> σ.
Proof.
  unfold send, has_room. destruct (σ !! c) as [ch|] eqn:Hc; [|done].
  destruct (closed ch) eqn:Hop; [done|].
  destruct (Nat.ltb_spec (length (buf ch)) (cap ch)); [|done].
  intros [= <-]. eauto 10.
Qed.

Lemma has_room_insert_ne σ c c' ch :
  c ≠ c' → has_room (<[c := ch]> σ) c' ↔ has_room σ c'.
Proof. intros Hne. unfold has_room. by rewrite lookup_insert_ne. Qed.
End Chan_properties.

(** ** PubSub *)

Section PubSub_properties.
Import Chan PubSub.
Context {T : Type} {sz : Sizeof T}.
Implicit Types (s : PubSub) (σ : gmap nat (chan T)) (c : handle).

Lemma send_each_room l : ∀ σ (msg : T),
  NoDup l → (∀ c, c ∈ l → has_room σ c) →
  ∃ σ', send_each l σ msg = Returns σ' ∧ delivered l msg σ σ'.
Proof.
  induction l as [|v rest IH]; intros σ msg Hnd Hroom; simpl.
  - exists σ. split; [done|]. intros c.
    rewrite decide_False; [done|]. apply not_elem_of_nil.
  - apply NoDup_cons in Hnd as [Hv Hnd].
    destruct (send_has_room σ v msg) as (ch & Hch & ->).
    { apply Hroom, elem_of_cons. by left. }
    simpl. destruct (IH (<[v := push msg ch]> σ) msg Hnd) as (σ' & -> & Hd).
    { intros c Hc. apply has_room_insert_ne; [by intros ->|].
      apply Hroom, elem_of_cons. by right. }
    exists σ'. split; [done|]. intros c. rewrite (Hd c).
    destruct (decide (c = v)) as [->|Hne].
    + rewrite decide_False by done.
      rewrite decide_True by (apply elem_of_cons; by left).
      by rewrite lookup_insert_eq, Hch.
    + rewrite lookup_insert_ne by done.
      destruct (decide (c ∈ rest)) as [Hin|Hout].
      * by rewrite decide_True by (apply elem_of_cons; by right).
      * rewrite decide_False; [done|].
        rewrite elem_of_cons. by intros [?|?].
Qed.

Lemma send_each_Returns_room l : ∀ σ (msg : T) σ',
  NoDup l → send_each l σ msg = Returns σ' → ∀ c, c ∈ l → has_room σ c.
Proof.
  induction l as [|v rest IH]; intros σ msg σ' Hnd Hs c Hc.
  { by apply not_elem_of_nil in Hc. }
  apply NoDup_cons in Hnd as [Hv Hnd]. simpl in Hs.
  destruct (send σ v msg) as [σ1| |] eqn:Hsend; try done. simpl in Hs.
  apply send_Returns_inv in Hsend as (Hroom & ch & Hch & ->).
  apply elem_of_cons in Hc as [->|Hc]; [done|].
  eapply has_room_insert_ne; [|by eapply IH]. by intros ->.
Qed.

Lemma delivered_appended l (msg : T) σ σ' :
  (∀ c, c ∈ l → has_room σ c) → delivered l msg σ σ' → appended l msg σ σ'.
Proof.
  intros Hroom Hd c. specialize (Hd c). destruct (decide (c ∈ l)) as [Hc|Hc].
  - destruct (Hroom c Hc) as (ch & Hch & _). rewrite Hch in Hd.
    exists ch, (push msg ch). by split.
  - done.
Qed.

Lemma Unregister_absent s σ c :
  c ∉ clients s → Unregister s σ c = Returns (s, σ).
Proof.
  intros Hc. unfold Unregister.
  destruct (list_find _ _) as [[i v]|] eqn:Hf; [|done].
  apply list_find_Some in Hf as (Hi & -> & _).
  exfalso. apply Hc. by eapply list_elem_of_lookup_2.
Qed.

Lemma Unregister_present s σ c :
  c ∈ clients s →
  ∃ i l,
    clients s !! i = Some c ∧
    (∀ j, (j < i)%nat → clients s !! j ≠ Some c) ∧
    last (clients s) = Some l ∧
    Unregister s σ c =
      Returns ({| clients := take (length (clients s) - 1)%nat
                               (<[i := l]> (clients s)) |}, σ).
Proof.
  intros Hc. unfold Unregister.
  destruct (list_find _ _) as [[i v]|] eqn:Hf.
  - apply list_find_Some in Hf as (Hi & -> & Hfirst).
    pose proof (lookup_lt_Some _ _ _ Hi) as Hlt.
    destruct (lookup_lt_is_Some_2 (clients s) (length (clients s) - 1)%nat)
      as [l Hl]; [lia|].
    exists i, l. split; [done|]. split.
    { intros j Hj Hcj. by eapply Hfirst. }
    split.
    { rewrite last_lookup.
      by replace (pred (length (clients s))) with (length (clients s) - 1)%nat by lia. }
    unfold index.
    destruct (Z.ltb_spec (Z.of_nat (length (clients s)) - 1) 0); [lia|].
    replace (Z.to_nat (Z.of_nat (length (clients s)) - 1))
      with (length (clients s) - 1)%nat by lia.
    by rewrite Hl.
  - apply list_find_None in Hf. exfalso.
    rewrite Forall_forall in Hf. by eapply Hf.
Qed.

Lemma Unregister_perm s σ c s' σ' :
  c ∈ clients s → Unregister s σ c = Returns (s', σ') →
  clients s ≡ₚ c :: clients s' ∧ σ' = σ.
Proof.
  intros Hc Hu.
  destruct (Unregister_present s σ c Hc) as (i & l & Hi & _ & Hl & Heq).
  rewrite Heq in Hu. injection Hu as <- <-. split; [|done].
  simpl. by apply overwrite_chop_perm.
Qed.

(** [make] with a size in range allocates. *)
Lemma make_in_range σ n :
  size_out_of_range (sizeof T) (Z.of_nat n) = false →
  make σ n = Returns (fresh (dom σ),
                      <[fresh (dom σ) := {| cap := n; buf := []; closed := false |}]> σ).
Proof. intros Hr. unfold make. by rewrite Hr. Qed.

Lemma make_out_of_range σ n :
  size_out_of_range (sizeof T) (Z.of_nat n) = true → make σ n = Panics.
Proof. intros Hr. unfold make. by rewrite Hr. Qed.

Lemma make_Returns_inv σ n c σ' :
  make σ n = Returns (c, σ') →
  size_out_of_range (sizeof T) (Z.of_nat n) = false ∧ c = fresh (dom σ) ∧
  σ' = <[c := {| cap := n; buf := []; closed := false |}]> σ.
Proof.
  unfold make. destruct (size_out_of_range _ _); [done|]. by intros [= <- <-].
Qed.

(** A buffer of one element is always in range. *)
Lemma size_one_in_range : size_out_of_range (sizeof T) 1 = false.
Proof.
  pose proof (sizeof_range (T:=T)) as Hs.
  apply andb_true_iff in Hs as [H0%Z.leb_le H1%Z.ltb_lt].
  unfold size_out_of_range, maxAlloc, hchanSize.
  repeat (apply orb_false_iff; split).
  - by apply Z.ltb_ge.
  - by apply Z.leb_gt.
  - apply Z.ltb_ge. lia.
Qed.

Lemma Register_Returns_inv s σ n c s' σ' :
  Register s σ n = Returns (c, s', σ') →
  size_out_of_range (sizeof T) (Z.of_nat n) = false ∧ c = fresh (dom σ) ∧
  s' = {| clients := clients s ++ [c] |} ∧
  σ' = <[c := {| cap := n; buf := []; closed := false |}]> σ.
Proof.
  unfold Register. destruct (make σ n) as [[c0 σ0]| |] eqn:Hm; simpl; try done.
  intros [= <- <- <-]. apply make_Returns_inv in Hm as (? & ? & ?). done.
Qed.

(** [wf] is an invariant of [Register] and [Unregister]. *)
Lemma Register_wf s σ n c s' σ' :
  wf s σ → Register s σ n = Returns (c, s', σ') → wf s' σ' ∧ c ∉ clients s.
Proof.
  intros [Hnd Hdom] (_ & -> & -> & ->)%Register_Returns_inv.
  pose proof (is_fresh (dom σ)) as Hfresh.
  assert (fresh (dom σ) ∉ clients s) as Hnew by (intros Hc; by apply Hfresh, Hdom).
  split; [|done]. split; simpl.
  - apply NoDup_app. split; [done|]. split; [|apply NoDup_singleton].
    intros c Hc ->%list_elem_of_singleton. done.
  - intros c [Hc| ->%list_elem_of_singleton]%elem_of_app; rewrite dom_insert_L.
    + apply elem_of_union. right. by apply Hdom.
    + apply elem_of_union. left. by apply elem_of_singleton.
Qed.

Lemma Unregister_wf s σ c s' σ' :
  wf s σ → Unregister s σ c = Returns (s', σ') → wf s' σ' ∧ c ∉ clients s'.
Proof.
  intros [Hnd Hdom] Hu.
  destruct (decide (c ∈ clients s)) as [Hc|Hc].
  - destruct (Unregister_perm _ _ _ _ _ Hc Hu) as [Hp ->].
    rewrite Hp in Hnd. apply NoDup_cons in Hnd as [Hn Hnd].
    split; [|done]. split; [done|].
    intros c' Hc'. apply Hdom. rewrite Hp. apply elem_of_cons. by right.
  - rewrite Unregister_absent in Hu by done. injection Hu as <- <-.
    by split.
Qed.

(** C7. [Unregister] of a channel that is not registered returns and
    changes nothing.  For a registered channel (no handle is registered
    twice) it overwrites the slot of the channel with the last handle and
    chops the list: exactly that channel is gone, every other handle stays.
    A later [Broadcast] appends the message once to the buffer of every
    handle that is still registered, and whenever the broadcast would have
    completed with [c] registered it completes without it, with the same
    effect on every other channel. *)
Theorem Unregister_frame s σ c :
  (c ∉ clients s → Unregister s σ c = Returns (s, σ)) ∧
  (c ∈ clients s → NoDup (clients s) →
     ∃ i l s',
       clients s !! i = Some c ∧ last (clients s) = Some l ∧
       clients s' = take (length (clients s) - 1)%nat (<[i := l]> (clients s)) ∧
       Unregister s σ c = Returns (s', σ) ∧
       clients s ≡ₚ c :: clients s' ∧ (c ∉ clients s') ∧ NoDup (clients s') ∧
       (∀ c', c' ≠ c → c' ∈ clients s ↔ c' ∈ clients s') ∧
       ∀ (msg : T) σ0,
         ((∀ c', c' ∈ clients s' → has_room σ0 c') →
            ∃ σ1, Broadcast s' σ0 msg = Returns σ1 ∧
                  delivered (clients s') msg σ0 σ1) ∧
         (∀ σ1, Broadcast s σ0 msg = Returns σ1 →
            ∃ σ1', Broadcast s' σ0 msg = Returns σ1' ∧
                   ∀ c', c' ≠ c → σ1' !! c' = σ1 !! c')).
Proof.
  split; [apply Unregister_absent|].
  intros Hc Hnd.
  destruct (Unregister_present s σ c Hc) as (i & l & Hi & _ & Hl & Heq).
  destruct (Unregister_perm _ _ _ _ _ Hc Heq) as [Hp _].
  set (s' := {| clients := _ |}) in *.
  assert ((c ∉ clients s') ∧ NoDup (clients s')) as [Hout Hnd'].
  { rewrite Hp in Hnd. by apply NoDup_cons in Hnd. }
  assert (∀ c', c' ≠ c → c' ∈ clients s ↔ c' ∈ clients s') as Hsame.
  { intros c' Hne. rewrite Hp, elem_of_cons. split; [by intros [?|?]|by right]. }
  exists i, l, s'. do 8 (split; [done|]). intros msg σ0. split.
  - intros Hroom. by apply send_each_room.
  - intros σ1 Hb. unfold Broadcast in *.
    pose proof (send_each_Returns_room _ _ _ _ Hnd Hb) as Hroom.
    destruct (send_each_room (clients s) σ0 msg Hnd Hroom) as (σ1a & Hb1 & Hd1).
    rewrite Hb in Hb1. injection Hb1 as <-.
    destruct (send_each_room (clients s') σ0 msg Hnd') as (σ1' & Hb' & Hd').
    { intros c' Hc'. apply Hroom. rewrite Hp. apply elem_of_cons. by right. }
    exists σ1'. split; [done|]. intros c' Hne.
    rewrite (Hd' c'), (Hd1 c').
    destruct (decide (c' ∈ clients s')) as [Hin|Hnin].
    + by rewrite decide_True by (by apply Hsame).
    + rewrite decide_False; [done|]. by rewrite Hsame.
Qed.
End PubSub_properties.

Lemma Unregister_frame_witness :
  let s := {| PubSub.clients := [0; 1; 2]%nat |} in
  let σ : gmap nat (Chan.chan Z) :=
    {[ 0%nat := {| Chan.cap := 1%nat; Chan.buf := []; Chan.closed := false |};
       1%nat := {| Chan.cap := 1%nat; Chan.buf := []; Chan.closed := false |};
       2%nat := {| Chan.cap := 1%nat; Chan.buf := []; Chan.closed := false |} ]} in
  PubSub.Unregister s σ 7%nat = Returns (s, σ) ∧
  PubSub.Unregister s σ 0%nat = Returns ({| PubSub.clients := [2; 1]%nat |}, σ) ∧
  ∃ σ1, PubSub.Broadcast {| PubSub.clients := [2; 1]%nat |} σ 5 = Returns σ1 ∧
        σ1 !! 1%nat = Some {| Chan.cap := 1%nat; Chan.buf := [5]; Chan.closed := false |} ∧
        σ1 !! 0%nat = σ !! 0%nat.
Proof.
  intros s σ.
  assert (NoDup (PubSub.clients s)) as Hnd.
  { apply NoDup_ListNoDup. repeat constructor; simpl; intuition lia. }
  assert (0%nat ∈ PubSub.clients s) as Hin by (apply elem_of_cons; by left).
  assert (7%nat ∉ PubSub.clients s) as Hout.
  { intros Hc. apply list_elem_of_In in Hc. simpl in Hc. intuition lia. }
  split; [exact (proj1 (Unregister_frame s σ 7%nat) Hout)|].
  destruct (proj2 (Unregister_frame s σ 0%nat) Hin Hnd)
    as (i & l & s' & Hi & Hl & Hcl & Hu & _ & _ & _ & _ & Hb).
  assert (i = 0%nat) as ->.
  { destruct i as [|[|[|i]]]; [done|discriminate Hi..]. }
  injection Hl as <-. simpl in Hcl.
  assert (s' = {| PubSub.clients := [2; 1]%nat |}) as ->.
  { destruct s'. simpl in Hcl. by rewrite Hcl. }
  split; [exact Hu|].
  destruct (proj1 (Hb 5 σ)) as (σ1 & Hb1 & Hd).
  { intros c' Hc'. apply list_elem_of_In in Hc'. simpl in Hc'.
    destruct Hc' as [<-|[<-|[]]]; eexists; (split; [reflexivity|split; [reflexivity|simpl; lia]]). }
  exists σ1. split; [exact Hb1|]. split.
  - rewrite (Hd 1%nat). reflexivity.
  - rewrite (Hd 0%nat). reflexivity.
Defined.

(** ** PubSub.Unregister and the channel it removes *)

Section Unregister_and_close.
Import Chan PubSub.
Context {T : Type}.
Implicit Types (s : PubSub) (σ : gmap nat (chan T)) (c : handle).

Lemma Unregister_keeps_store s σ c :
  ∃ s', Unregister s σ c = Returns (s', σ).
Proof.
  destruct (decide (c ∈ clients s)) as [Hc|Hc].
  - destruct (Unregister_present s σ c Hc) as (i & l & _ & _ & _ & Heq). eauto.
  - rewrite Unregister_absent by done. eauto.
Qed.

Lemma Unregister_removes s σ c s' σ' :
  NoDup (clients s) → c ∈ clients s → Unregister s σ c = Returns (s', σ') →
  c ∉ clients s'.
Proof.
  intros Hnd Hc Hu. destruct (Unregister_perm _ _ _ _ _ Hc Hu) as [Hp _].
  rewrite Hp in Hnd. by apply NoDup_cons in Hnd as [? _].
Qed.

Lemma Unregister_closing_present s σ c ch :
  c ∈ clients s → σ !! c = Some ch → closed ch = false →
  ∃ s', Unregister s σ c = Returns (s', σ) ∧
        PubSubClosing.Unregister s σ c = Returns (s', <[c := shut ch]> σ).
Proof.
  intros Hc Hch Hop.
  destruct (Unregister_present s σ c Hc) as (i & l & Hi & _ & Hl & Heq).
  revert Heq. unfold PubSubClosing.Unregister, Unregister.
  destruct (list_find _ _) as [[j v]|] eqn:Hf.
  2:{ apply list_find_None in Hf. rewrite Forall_forall in Hf.
      by destruct (Hf c Hc). }
  apply list_find_Some in Hf as (_ & -> & _).
  unfold close. rewrite Hch, Hop. simpl.
  destruct (index _ _) as [l'|]; [|done].
  intros _. eauto.
Qed.

(** C6. [Unregister] (src/email.go) never closes a channel: whatever the
    handle, it returns, and the store of channels it returns is the one it
    was given.  For a registered channel that is open (handles are
    registered once), the handle is gone from the subscriber list, the other
    handles stay, and the channel is still open after the call, in the very
    state it was in. *)
Theorem Unregister_leaves_channel_open s σ c :
  (∃ s', Unregister s σ c = Returns (s', σ)) ∧
  (NoDup (clients s) → c ∈ clients s → is_open σ c →
   ∃ s' σ' ch,
     Unregister s σ c = Returns (s', σ') ∧
     (c ∉ clients s') ∧ (∀ c', c' ≠ c → c' ∈ clients s ↔ c' ∈ clients s') ∧
     σ !! c = Some ch ∧ σ' !! c = Some ch ∧ closed ch = false ∧
     is_open σ' c ∧ ∀ c', σ' !! c' = σ !! c').
Proof.
  split; [apply Unregister_keeps_store|].
  intros Hnd Hc (ch & Hch & Hop).
  destruct (Unregister_keeps_store s σ c) as [s' Hu].
  destruct (Unregister_perm _ _ _ _ _ Hc Hu) as [Hp _].
  exists s', σ, ch. split; [done|]. split; [by eapply Unregister_removes|].
  split.
  { intros c' Hne. rewrite Hp, elem_of_cons. split; [by intros [?|?]|by right]. }
  do 3 (split; [done|]). split; [by exists ch|done].
Qed.

(** The two revisions of pubsub.go side by side.  [Unregister] of
    src/email.go returns with the store of channels as it was, whatever the
    handle: it closes nothing, and a registered handle (registered once) is
    gone from the list.  [Unregister] of src/unnamed/part_005 removes a
    registered open channel in the same way and closes it, as its doc
    comment says. *)
Lemma Unregister_close_by_revision :
  (∀ s σ c, ∃ s', Unregister s σ c = Returns (s', σ)) ∧
  removes_and_leaves_open (T:=T) Unregister ∧
  (∀ s σ c, NoDup (clients s) → c ∈ clients s → is_open σ c →
     ∃ s' σ', PubSubClosing.Unregister s σ c = Returns (s', σ') ∧
              (c ∉ clients s') ∧ ¬ is_open σ' c ∧
              (∀ c', c' ≠ c → σ' !! c' = σ !! c')).
Proof.
  split; [apply Unregister_keeps_store|]. split.
  - intros s σ c Hnd Hc Hopen.
    destruct (Unregister_keeps_store s σ c) as [s' Hu].
    exists s', σ. split; [done|]. split; [|done].
    by eapply Unregister_removes.
  - intros s σ c Hnd Hc (ch & Hch & Hop).
    destruct (Unregister_closing_present s σ c ch Hc Hch Hop) as (s' & Hu & Hu').
    exists s', (<[c := shut ch]> σ). split; [done|]. split; [|split].
    + by eapply Unregister_removes.
    + intros (ch' & Hch' & Hop'). rewrite lookup_insert_eq in Hch'.
      by injection Hch' as <-.
    + intros c' Hne. by rewrite lookup_insert_ne.
Qed.
End Unregister_and_close.

Lemma Unregister_leaves_channel_open_witness :
  let open := {| Chan.cap := 1%nat; Chan.buf := [7]; Chan.closed := false |} in
  let s := {| PubSub.clients := [0; 1]%nat |} in
  let σ : gmap nat (Chan.chan Z) := {[ 0%nat := open; 1%nat := open ]} in
  PubSub.Unregister s σ 0%nat = Returns ({| PubSub.clients := [1%nat] |}, σ) ∧
  ∃ s' σ',
    PubSub.Unregister s σ 0%nat = Returns (s', σ') ∧
    (0%nat ∉ PubSub.clients s') ∧ σ' !! 0%nat = Some open ∧
    Chan.is_open σ' 0%nat.
Proof.
  intros open s σ. split; [vm_compute; reflexivity|].
  destruct (proj2 (Unregister_leaves_channel_open s σ 0%nat))
    as (s' & σ' & ch & Hu & Hout & _ & Hch & Hch' & _ & Hopen & _).
  - apply NoDup_ListNoDup. repeat constructor; simpl; intuition lia.
  - apply elem_of_cons. by left.
  - exists open. by split.
  - injection Hch as <-. by exists s', σ'.
Defined.

(** The two revisions on one input: the [Unregister] of
    src/unnamed/part_005 removes the handle of the registered channel 0 and
    closes the channel, that of src/email.go removes the handle and leaves
    the channel as it was. *)
Example Unregister_of_both_revisions :
  let open := {| Chan.cap := 1%nat; Chan.buf := [7]; Chan.closed := false |} in
  let s := {| PubSub.clients := [0; 1]%nat |} in
  let σ : gmap nat (Chan.chan Z) := {[ 0%nat := open; 1%nat := open ]} in
  PubSubClosing.Unregister s σ 0%nat
  = Returns ({| PubSub.clients := [1%nat] |},
             {[ 0%nat := Chan.shut open; 1%nat := open ]}) ∧
  PubSub.Unregister s σ 0%nat = Returns ({| PubSub.clients := [1%nat] |}, σ) ∧
  Chan.closed (Chan.shut open) = true.
Proof. vm_compute. done. Qed.

(** The revision of src/unnamed/part_005 does not leave the channel
    open. *)
Lemma Unregister_closing_closes :
  ¬ PubSub.removes_and_leaves_open (T:=Z) PubSubClosing.Unregister.
Proof.
  intros Hclaim.
  pose (open := {| Chan.cap := 1%nat; Chan.buf := @nil Z; Chan.closed := false |}).
  destruct (Hclaim {| PubSub.clients := [0%nat] |} {[ 0%nat := open ]} 0%nat)
    as (s' & σ' & Hu & _ & (ch & Hch & Hop)).
  - apply NoDup_singleton.
  - by apply list_elem_of_singleton.
  - by exists open.
  - vm_compute in Hu. injection Hu as _ <-.
    vm_compute in Hch. injection Hch as <-. discriminate Hop.
Qed.

(** ** Debouncer *)

Section Debouncer_properties.
Import time Fetch Debouncer.
Context {T E F : Type}.
Implicit Types (d : Debouncer T E F) (w : world F).

Lemma Debouncer_GetValue_cached d w now now' :
  now ≤ timeOut d → GetValue d w now now' = (lastValue d, None, d, w).
Proof.
  intros Hle. unfold GetValue, After.
  by destruct (Z.ltb_spec (timeOut d) now); [lia|].
Qed.

(** C9. [Debouncer.GetValue] returns a nil error whatever the fetcher does.
    When the fetcher fails, the call returns the value cached before, and
    the Debouncer is as it was (value and timeout); nothing of the error
    reaches the caller. *)
Theorem Debouncer_GetValue_discards_error :
  (∀ d w now now', (GetValue d w now now').1.1.2 = None) ∧
  (∀ d w now now' v e st,
     timeOut d < now → fetcher d (closure w) = (v, Some e, st) →
     GetValue d w now now'
     = (lastValue d, None, d, {| closure := st; calls := S (calls w) |})).
Proof.
  split.
  - intros d w now now'. unfold GetValue.
    destruct (After now (timeOut d)); [|done].
    destruct (invoke (fetcher d) w) as [[v [e|]] w']; done.
  - intros d w now now' v e st Hlt Hf. unfold GetValue, After, invoke.
    destruct (Z.ltb_spec (timeOut d) now); [|lia].
    by rewrite Hf.
Qed.
End Debouncer_properties.

Lemma Debouncer_GetValue_discards_error_witness :
  let d := {| Debouncer.fetcher := Fetch.flaky; Debouncer.lastValue := 1;
              Debouncer.timeOut := 30 * time.Millisecond;
              Debouncer.delay := 30 * time.Millisecond |} in
  let w := {| Fetch.closure := (1, true); Fetch.calls := 1 |} in
  Debouncer.GetValue d w (35 * time.Millisecond) (35 * time.Millisecond)
  = (1, None, d, {| Fetch.closure := (1, true); Fetch.calls := 2 |}).
Proof.
  intros d w.
  apply (proj2 (Debouncer_GetValue_discards_error (T:=Z)) d w _ _ 0 tt (1, true));
    reflexivity.
Defined.

(** debounce_test.go, TestDebouncer_GetValue_IgnoresErrorsAndKeepsLastValue,
    with the instants 1ms, 36ms and 71ms. *)
Example Debouncer_GetValue_test :
  let ms := time.Millisecond in
  let d0 := Debouncer.NewDebouncer (E:=unit) (30 * ms) Fetch.flaky in
  let w0 := {| Fetch.closure := (0, false); Fetch.calls := 0 |} in
  let '(v1, e1, d1, w1) := Debouncer.GetValue d0 w0 (1 * ms) (1 * ms) in
  let w1' := {| Fetch.closure := (1, true); Fetch.calls := Fetch.calls w1 |} in
  let '(v2, e2, d2, w2) := Debouncer.GetValue d1 w1' (36 * ms) (36 * ms) in
  let w2' := {| Fetch.closure := (1, false); Fetch.calls := Fetch.calls w2 |} in
  let '(v3, e3, d3, w3) := Debouncer.GetValue d2 w2' (71 * ms) (71 * ms) in
  (v1, e1) = (1, None) ∧ (v2, e2) = (1, None) ∧ (v3, e3) = (2, None) ∧
  Fetch.calls w3 = 3%nat.
Proof. vm_compute. done. Qed.

(** ** PubSubDebouncer.GetValue *)

Section PubSubDebouncer_GetValue.
Import time Fetch PubSubDebouncer.
Context {T E F : Type}.
Implicit Types (d : PubSubDebouncer T E F) (w : world F).

Lemma GetValue_cached d w now now' :
  now ≤ timeOut d →
  GetValue (E:=E) d w now now' = (lastValue d, None, d, w).
Proof.
  intros Hle. unfold GetValue, After.
  by destruct (Z.ltb_spec (timeOut d) now); [lia|].
Qed.

Lemma GetValue_fetch_ok d w now now' (v : T) st :
  timeOut d < now → fetcherFunc d (closure w) = (v, @None E, st) →
  GetValue d w now now'
  = (v, None, set_timeOut (set_lastValue d v) (now' + delay d),
     {| closure := st; calls := S (calls w) |}).
Proof.
  intros Hlt Hf. unfold GetValue, After, invoke, Add.
  destruct (Z.ltb_spec (timeOut d) now); [|lia].
  by rewrite Hf.
Qed.

Lemma GetValue_fetch_error d w now now' (v : T) (e : E) st :
  timeOut d < now → fetcherFunc d (closure w) = (v, Some e, st) →
  GetValue d w now now'
  = (v, Some e, set_lastValue d v, {| closure := st; calls := S (calls w) |}).
Proof.
  intros Hlt Hf. unfold GetValue, After, invoke.
  destruct (Z.ltb_spec (timeOut d) now); [|lia].
  by rewrite Hf.
Qed.

Lemma GetValue_calls d w now now' :
  calls (GetValue (E:=E) d w now now').2
  = if timeOut d <? now then S (calls w) else calls w.
Proof.
  unfold GetValue, After, invoke.
  destruct (timeOut d <? now); [|done].
  by destruct (fetcherFunc d (closure w)) as [[v [e|]] st].
Qed.
End PubSubDebouncer_GetValue.

(** C1 on the code: the failed fetch of
    TestPubSubDebouncer_GetValue_RespectsDelayAndErrors.  The cache holds 1
    and its deadline has passed; the fetcher returns 0 and an error.
    [GetValue] returns the error and leaves the deadline alone, but the
    value it returns, and the value now cached, is the 0 of the failed
    fetch, not the 1 cached before. *)
Theorem GetValue_failed_fetch_overwrites_cache :
  let ms := time.Millisecond in
  let d := {| PubSubDebouncer.lastValue := 1;
              PubSubDebouncer.listeners := PubSub.NewPubSub;
              PubSubDebouncer.delay := 120 * ms;
              PubSubDebouncer.timeOut := 121 * ms;
              PubSubDebouncer.fetcherFunc := Fetch.flaky |} in
  let w := {| Fetch.closure := (1, true); Fetch.calls := 1 |} in
  let '(v, err, d', w') := PubSubDebouncer.GetValue d w (131 * ms) (131 * ms) in
  v = 0 ∧ err = Some tt ∧
  PubSubDebouncer.lastValue d' = 0 ∧
  PubSubDebouncer.lastValue d' ≠ PubSubDebouncer.lastValue d ∧
  PubSubDebouncer.timeOut d' = PubSubDebouncer.timeOut d ∧
  Fetch.calls w' = 2%nat.
Proof. vm_compute. repeat split; done. Qed.

(** The reading of C3 with "at or past" fails at the deadline itself, where
    [GetValue] does not fetch; and [NewPubSubDebouncer] refuses the delay of
    50ms of the example. *)
Lemma GetValue_at_deadline_no_fetch :
  ¬ PubSubDebouncer.fetches_at_or_past_deadline (T:=Z) (E:=unit) (F:=Z) ∧
  PubSubDebouncer.NewPubSubDebouncer (T:=Z) (50 * time.Millisecond) Fetch.successive
  = Panics.
Proof.
  split; [|reflexivity].
  intros Hclaim.
  pose (d := {| PubSubDebouncer.lastValue := 1;
                PubSubDebouncer.listeners := PubSub.NewPubSub;
                PubSubDebouncer.delay := 100 * time.Millisecond;
                PubSubDebouncer.timeOut := 500;
                PubSubDebouncer.fetcherFunc := Fetch.successive |}).
  pose (w := {| Fetch.closure := 1; Fetch.calls := 1 |}).
  destruct (Hclaim d w 500 500) as [_ Hfetch].
  vm_compute in Hfetch. discriminate Hfetch. discriminate.
Qed.

Section PubSubDebouncer_debounce.
Import time Fetch PubSubDebouncer.

(** C3, amended.  [GetValue] invokes the fetch function if and only if the
    instant it reads is strictly after the deadline.  After a successful
    fetch the value is cached and the deadline is the instant read after the
    fetch plus [delay]; up to the deadline the cached value is returned with
    a nil error and without a fetch.  A debouncer made by
    [NewPubSubDebouncer] (so [delay >= 100ms]) over a fetcher returning 1, 2,
    3, ... returns [(1, nil)] at its first call, [(1, nil)] without another
    fetch 20ms after that call began, and [(2, nil)] once more than [delay]
    has passed since the first fetch returned. *)
Theorem GetValue_debounce :
  (∀ {T E F} (d : PubSubDebouncer T E F) (w : world F) now now',
     calls (GetValue (E:=E) d w now now').2 = S (calls w) ↔ timeOut d < now) ∧
  (∀ {T E F} (d : PubSubDebouncer T E F) (w : world F) now now' (v : T) st,
     timeOut d < now → fetcherFunc d (closure w) = (v, @None E, st) →
     GetValue d w now now'
     = (v, None, set_timeOut (set_lastValue d v) (now' + delay d),
        {| closure := st; calls := S (calls w) |})) ∧
  (∀ {T E F} (d : PubSubDebouncer T E F) (w : world F) now now',
     now ≤ timeOut d →
     GetValue (E:=E) d w now now' = (lastValue d, None, d, w)) ∧
  (∀ delay d0 t0 t0' t1' t2 t2',
     NewPubSubDebouncer (T:=Z) delay successive = Returns d0 →
     0 < t0 → t0 ≤ t0' → t0' + delay < t2 →
     let w0 := {| closure := 0; calls := 0 |} in
     let '(v1, e1, d1, w1) := GetValue (E:=unit) d0 w0 t0 t0' in
     let '(v2, e2, d2, w2) := GetValue (E:=unit) d1 w1 (t0 + 20 * Millisecond) t1' in
     let '(v3, e3, d3, w3) := GetValue (E:=unit) d2 w2 t2 t2' in
     100 * Millisecond ≤ delay ∧
     (v1, e1) = (1, None) ∧ calls w1 = 1%nat ∧
     (v2, e2) = (1, None) ∧ calls w2 = 1%nat ∧
     (v3, e3) = (2, None) ∧ calls w3 = 2%nat).
Proof.
  split; [|split; [|split]].
  - intros T E F d w now now'. rewrite GetValue_calls.
    destruct (Z.ltb_spec (timeOut d) now); split; try done; lia.
  - intros T E F d w now now' v st. apply GetValue_fetch_ok.
  - intros T E F d w now now'. apply GetValue_cached.
  - intros delay d0 t0 t0' t1' t2 t2' Hnew Ht0 Ht0' Ht2 w0.
    unfold NewPubSubDebouncer in Hnew.
    destruct (Z.ltb_spec delay (100 * Millisecond)) as [|Hdelay]; [done|].
    injection Hnew as <-.
    rewrite (GetValue_fetch_ok _ w0 t0 t0' 1 1) by (done || (simpl; unfold time.zero; lia)).
    rewrite GetValue_cached by (simpl; unfold Millisecond in *; lia).
    rewrite (GetValue_fetch_ok _ _ t2 t2' 2 2) by (done || (simpl; lia)).
    done.
Qed.
End PubSubDebouncer_debounce.

Lemma GetValue_debounce_witness :
  let ms := time.Millisecond in
  ∃ d0, PubSubDebouncer.NewPubSubDebouncer (T:=Z) (100 * ms) Fetch.successive
        = Returns d0 ∧
  let w0 := {| Fetch.closure := 0; Fetch.calls := 0 |} in
  let '(v1, e1, d1, w1) := PubSubDebouncer.GetValue (E:=unit) d0 w0 (1 * ms) (1 * ms) in
  let '(v2, e2, d2, w2) := PubSubDebouncer.GetValue (E:=unit) d1 w1 (21 * ms) (21 * ms) in
  let '(v3, e3, d3, w3) := PubSubDebouncer.GetValue (E:=unit) d2 w2 (111 * ms) (111 * ms) in
  (v1, e1) = (1, None) ∧ (v2, e2) = (1, None) ∧ Fetch.calls w2 = 1%nat ∧
  (v3, e3) = (2, None) ∧ Fetch.calls w3 = 2%nat.
Proof.
  intros ms. eexists. split; [reflexivity|].
  pose proof (proj2 (proj2 (proj2 GetValue_debounce)) (100 * ms) _
                (1 * ms) (1 * ms) (21 * ms) (111 * ms) (111 * ms)
                eq_refl eq_refl) as Hrun.
  specialize (Hrun ltac:(vm_compute; discriminate) eq_refl).
  vm_compute in Hrun. vm_compute. tauto.
Defined.

(** ** Floating point comparisons *)

Section float_properties.
Import float.

Lemma SFcompare_Lt_Gt x y : SFcompare x y = Some Lt → SFcompare y x = Some Gt.
Proof.
  destruct x as [sx|sx| |sx mx ex], y as [sy|sy| |sy my ey];
    try destruct sx; try destruct sy; simpl; try done.
  - rewrite (Z.compare_antisym ex ey).
    destruct (ex ?= ey); simpl; try done.
    pose proof (Pos.compare_cont_antisym mx my Eq) as Ha. simpl in Ha.
    rewrite <- Ha. by destruct (Pos.compare_cont Eq mx my).
  - rewrite (Z.compare_antisym ex ey).
    destruct (ex ?= ey); simpl; try done.
    pose proof (Pos.compare_cont_antisym mx my Eq) as Ha. simpl in Ha.
    rewrite <- Ha. by destruct (Pos.compare_cont Eq mx my).
Qed.

Lemma lt_not_gt (x y : float64) : lt x y = true → gt x y = false.
Proof.
  unfold lt, gt, SFltb. destruct (SFcompare x y) as [[]|] eqn:Hc; try done.
  intros _. by rewrite (SFcompare_Lt_Gt _ _ Hc).
Qed.

(** The two constants are the float64 nearest to 1/10^8 and to 1/10^5:
    the quotients, rounded to nearest even. *)
Lemma epsilon64_value :
  SFdiv 53 1024 (of_Z64 1 0) (of_Z64 100000000 0) = epsilon64.
Proof. vm_compute. reflexivity. Qed.

Lemma epsilon32_value :
  SFdiv 53 1024 (of_Z64 1 0) (of_Z64 100000 0) = epsilon32.
Proof. vm_compute. reflexivity. Qed.
End float_properties.

(** ** PubSubDebouncer.SetValue *)

Section PubSubDebouncer_SetValue.
Import time Fetch Chan PubSub PubSubDebouncer.
Context {T E F : Type} {dyn : comparable T}.
Implicit Types (d : PubSubDebouncer T E F) (σ : gmap nat (chan T)).

Lemma differs_not_Blocks (last value : T) : differs last value ≠ Blocks.
Proof.
  unfold differs.
  destruct (as_float64 value); [by destruct (as_float64 last)|].
  destruct (as_float32 value); [by destruct (as_float32 last)|].
  by destruct (neq last value).
Qed.

(** The [default] case of the switch: [d.lastValue != value]. *)
Lemma differs_default (last value : T) :
  as_float64 value = None → as_float32 value = None →
  differs last value
  = match neq last value with Some b => Returns b | None => Panics end.
Proof. intros H64 H32. unfold differs. by rewrite H64, H32. Qed.

Lemma SetValue_same d σ value now :
  differs (lastValue d) value = Returns false →
  SetValue d σ value now = Returns (set_timeOut d (now + delay d), Returns σ).
Proof. intros Hd. unfold SetValue. by rewrite Hd. Qed.

Lemma SetValue_changed d σ value now :
  differs (lastValue d) value = Returns true →
  SetValue d σ value now
  = Returns (set_timeOut (set_lastValue d value) (now + delay d),
             Broadcast (listeners d) σ value).
Proof. intros Hd. unfold SetValue. by rewrite Hd. Qed.

Lemma SetValue_Panics d σ value now :
  SetValue d σ value now = Panics ↔ differs (lastValue d) value = Panics.
Proof.
  unfold SetValue. by destruct (differs (lastValue d) value) as [[]| |].
Qed.

Lemma SetValue_not_Blocks d σ value now : SetValue d σ value now ≠ Blocks.
Proof.
  unfold SetValue. pose proof (differs_not_Blocks (lastValue d) value).
  by destruct (differs (lastValue d) value) as [[]| |].
Qed.

Lemma SetValue_Returns_inv d σ value now d' sent :
  SetValue d σ value now = Returns (d', sent) →
  ∃ b : bool,
    differs (lastValue d) value = Returns b ∧
    timeOut d' = now + delay d ∧ delay d' = delay d ∧
    listeners d' = listeners d ∧ fetcherFunc d' = fetcherFunc d ∧
    lastValue d' = (if b then value else lastValue d) ∧
    sent = (if b then Broadcast (listeners d) σ value else Returns σ).
Proof.
  unfold SetValue. destruct (differs (lastValue d) value) as [b| |]; try done.
  simpl. intros [= <- <-]. exists b. by destruct b.
Qed.

Lemma SetValue_silent d σ value now :
  differs (lastValue d) value = Returns false →
  keeps_value_and_silent d σ value now.
Proof.
  intros Hd. exists (set_timeOut d (now + delay d)).
  by rewrite SetValue_same.
Qed.

Lemma SetValue_broadcasts d σ value now :
  differs (lastValue d) value = Returns true →
  updates_and_broadcasts_once d σ value now.
Proof.
  intros Hd Hnd Hroom. rewrite SetValue_changed by done.
  destruct (send_each_room _ σ value Hnd Hroom) as (σ' & Hb & Hdel).
  exists (set_timeOut (set_lastValue d value) (now + delay d)), σ'.
  unfold Broadcast. rewrite Hb. do 6 (split; [done|]).
  by apply delivered_appended.
Qed.
End PubSubDebouncer_SetValue.

Section PubSubDebouncer_deadline.
Import time Fetch Chan PubSub PubSubDebouncer float.

(** C10. Every [SetValue] that gets past the comparison of its [switch]
    sets the deadline to [now + delay], also when the value does not differ
    and nothing is broadcast; a [GetValue] that reads an instant up to that
    deadline returns the cached value without a fetch.  For float64,
    float32 and int the comparison cannot panic, so that every call does so:
    within the epsilon the cached value stays, nothing is sent, and the
    deadline is new all the same.  The comparison is the only place where
    [SetValue] can panic (on an interface type, when the dynamic types do
    not fit), and it comes before the deadline is written. *)
Theorem SetValue_always_moves_deadline :
  (∀ T E F (dyn : comparable T) (d : PubSubDebouncer T E F) σ value now d' sent,
     SetValue d σ value now = Returns (d', sent) →
     timeOut d' = now + delay d ∧ delay d' = delay d ∧
     (differs (lastValue d) value = Returns false →
        lastValue d' = lastValue d ∧ sent = Returns σ) ∧
     (∀ (w : world F) t t',
        t ≤ now + delay d →
        GetValue d' w t t' = (lastValue d', None, d', w) ∧
        calls (GetValue d' w t t').2 = calls w)) ∧
  (∀ E F (d : PubSubDebouncer float64 E F) σ value now,
     ∃ d' sent,
       SetValue (dyn:=float64_comparable) d σ value now = Returns (d', sent) ∧
       timeOut d' = now + delay d ∧
       (gt (delta64 (lastValue d) value) epsilon64 = false →
          lastValue d' = lastValue d ∧ sent = Returns σ)) ∧
  (∀ E F (d : PubSubDebouncer float32 E F) σ value now,
     ∃ d' sent,
       SetValue (dyn:=float32_comparable) d σ value now = Returns (d', sent) ∧
       timeOut d' = now + delay d ∧
       (gt (delta32 (lastValue d) value) epsilon32 = false →
          lastValue d' = lastValue d ∧ sent = Returns σ)) ∧
  (∀ E F (d : PubSubDebouncer Z E F) σ value now,
     ∃ d' sent,
       SetValue (dyn:=Z_comparable) d σ value now = Returns (d', sent) ∧
       timeOut d' = now + delay d ∧
       (lastValue d = value → lastValue d' = lastValue d ∧ sent = Returns σ)) ∧
  (∀ T E F (dyn : comparable T) (d : PubSubDebouncer T E F) σ value now,
     SetValue d σ value now ≠ Blocks ∧
     (SetValue d σ value now = Panics ↔
      differs (lastValue d) value = Panics)).
Proof.
  assert (∀ T E F (dyn : comparable T) (d : PubSubDebouncer T E F) σ value now
            (b : bool),
            differs (lastValue d) value = Returns b →
            ∃ d' sent,
              SetValue d σ value now = Returns (d', sent) ∧
              timeOut d' = now + delay d ∧
              (b = false → lastValue d' = lastValue d ∧ sent = Returns σ))
    as Hret.
  { intros T E F dyn d σ value now b Hb. unfold SetValue. rewrite Hb. simpl.
    eexists. eexists. split; [reflexivity|]. split; [by destruct b|].
    by intros ->. }
  split; [|split; [|split; [|split]]].
  - intros T E F dyn d σ value now d' sent Hset.
    destruct (SetValue_Returns_inv _ _ _ _ _ _ Hset)
      as (b & Hb & Ht & Hdelay & _ & _ & Hlast & Hsent).
    split; [done|]. split; [done|]. split.
    + intros Hsame. rewrite Hsame in Hb. injection Hb as <-. done.
    + intros w t t' Hle.
      assert (GetValue d' w t t' = (lastValue d', None, d', w)) as ->; [|done].
      apply GetValue_cached. lia.
  - intros E F d σ value now.
    destruct (Hret float64 E F float64_comparable d σ value now
                (gt (delta64 (lastValue d) value) epsilon64) eq_refl)
      as (d' & sent & Hset & Ht & Hkeep).
    by exists d', sent.
  - intros E F d σ value now.
    destruct (Hret float32 E F float32_comparable d σ value now
                (gt (delta32 (lastValue d) value) epsilon32) eq_refl)
      as (d' & sent & Hset & Ht & Hkeep).
    by exists d', sent.
  - intros E F d σ value now.
    destruct (Hret Z E F Z_comparable d σ value now
                (negb (lastValue d =? value)) eq_refl)
      as (d' & sent & Hset & Ht & Hkeep).
    exists d', sent. split; [done|]. split; [done|].
    intros Heq. apply Hkeep. rewrite Heq, Z.eqb_refl. done.
  - intros T E F dyn d σ value now.
    split; [apply SetValue_not_Blocks|apply SetValue_Panics].
Qed.
End PubSubDebouncer_deadline.

Lemma SetValue_always_moves_deadline_witness :
  let ms := time.Millisecond in
  let d := {| PubSubDebouncer.lastValue := 7;
              PubSubDebouncer.listeners := PubSub.NewPubSub;
              PubSubDebouncer.delay := 120 * ms;
              PubSubDebouncer.timeOut := 10 * ms;
              PubSubDebouncer.fetcherFunc := Fetch.successive |} in
  let d' := {| PubSubDebouncer.lastValue := 7;
               PubSubDebouncer.listeners := PubSub.NewPubSub;
               PubSubDebouncer.delay := 120 * ms;
               PubSubDebouncer.timeOut := 320 * ms;
               PubSubDebouncer.fetcherFunc := Fetch.successive |} in
  let w := {| Fetch.closure := 7; Fetch.calls := 1 |} in
  PubSubDebouncer.SetValue (dyn:=PubSubDebouncer.Z_comparable)
    d (∅ : gmap nat (Chan.chan Z)) 7 (200 * ms) = Returns (d', Returns ∅) ∧
  PubSubDebouncer.timeOut d' = 200 * ms + 120 * ms ∧
  PubSubDebouncer.GetValue (E:=unit) d' w (320 * ms) (320 * ms) = (7, None, d', w).
Proof.
  intros ms d d' w.
  destruct (proj1 SetValue_always_moves_deadline Z unit Z
              PubSubDebouncer.Z_comparable
              d (∅ : gmap nat (Chan.chan Z)) 7 (200 * ms) d' (Returns ∅) eq_refl)
    as (Ht & _ & _ & Hget).
  split; [reflexivity|]. split; [exact Ht|].
  refine (proj1 (Hget w (320 * ms) (320 * ms) _)). vm_compute. discriminate.
Defined.

Section PubSubDebouncer_change_detection.
Import time Fetch Chan PubSub PubSubDebouncer float.

(** C2. For float64 a [SetValue] whose difference to the cached value is
    not above 1e-8 (below it, in particular) keeps the cached value and
    sends nothing, and one whose difference is above 1e-8 caches the value,
    sets the deadline to [now + delay] and sends the value once to every
    registered channel; the same for float32 with 1e-5.  For a value of
    another dynamic type it is Go's [!=] that decides in the same way; on
    int, [!=] holds of any two different values. *)
Theorem SetValue_change_detection :
  (∀ E F (d : PubSubDebouncer float64 E F) σ value now,
     (gt (delta64 (lastValue d) value) epsilon64 = false →
        keeps_value_and_silent (dyn:=float64_comparable) d σ value now) ∧
     (gt (delta64 (lastValue d) value) epsilon64 = true →
        updates_and_broadcasts_once (dyn:=float64_comparable) d σ value now)) ∧
  (∀ E F (d : PubSubDebouncer float32 E F) σ value now,
     (gt (delta32 (lastValue d) value) epsilon32 = false →
        keeps_value_and_silent (dyn:=float32_comparable) d σ value now) ∧
     (gt (delta32 (lastValue d) value) epsilon32 = true →
        updates_and_broadcasts_once (dyn:=float32_comparable) d σ value now)) ∧
  (∀ x y : float64, lt x y = true → gt x y = false) ∧
  epsilon64 = SFdiv 53 1024 (of_Z64 1 0) (of_Z64 (10 ^ 8) 0) ∧
  epsilon32 = SFdiv 53 1024 (of_Z64 1 0) (of_Z64 (10 ^ 5) 0) ∧
  (∀ T E F (dyn : comparable T) (d : PubSubDebouncer T E F) σ value now,
     as_float64 value = None → as_float32 value = None →
     (neq (lastValue d) value = Some true →
        updates_and_broadcasts_once d σ value now) ∧
     (neq (lastValue d) value = Some false →
        keeps_value_and_silent d σ value now) ∧
     (neq (lastValue d) value = None → SetValue d σ value now = Panics)) ∧
  (∀ E F (d : PubSubDebouncer Z E F) σ value now,
     (lastValue d ≠ value →
        updates_and_broadcasts_once (dyn:=Z_comparable) d σ value now) ∧
     (lastValue d = value →
        keeps_value_and_silent (dyn:=Z_comparable) d σ value now)).
Proof.
  split; [|split; [|split; [|split; [|split; [|split]]]]].
  - intros E F d σ value now. split; intros Hcmp.
    + apply (SetValue_silent (dyn:=float64_comparable)).
      unfold differs. simpl. by rewrite Hcmp.
    + apply (SetValue_broadcasts (dyn:=float64_comparable)).
      unfold differs. simpl. by rewrite Hcmp.
  - intros E F d σ value now. split; intros Hcmp.
    + apply (SetValue_silent (dyn:=float32_comparable)).
      unfold differs. simpl. by rewrite Hcmp.
    + apply (SetValue_broadcasts (dyn:=float32_comparable)).
      unfold differs. simpl. by rewrite Hcmp.
  - apply lt_not_gt.
  - symmetry. apply epsilon64_value.
  - symmetry. apply epsilon32_value.
  - intros T E F dyn d σ value now H64 H32.
    pose proof (differs_default (lastValue d) value H64 H32) as Hd.
    split; [|split]; intros Hneq; rewrite Hneq in Hd.
    + by apply SetValue_broadcasts.
    + by apply SetValue_silent.
    + by apply SetValue_Panics.
  - intros E F d σ value now. split; intros Hcmp.
    + apply (SetValue_broadcasts (dyn:=Z_comparable)).
      unfold differs. simpl. by destruct (Z.eqb_spec (lastValue d) value).
    + apply (SetValue_silent (dyn:=Z_comparable)).
      unfold differs. simpl. by destruct (Z.eqb_spec (lastValue d) value).
Qed.
End PubSubDebouncer_change_detection.

Lemma SetValue_change_detection_witness :
  let one := float.of_Z64 1 0 in
  let near := float.of_Z64 (2 ^ 30 + 1) (-30) in
  let far := float.of_Z64 3 (-1) in
  let empty := {| Chan.cap := 1%nat; Chan.buf := @nil float.float64;
                  Chan.closed := false |} in
  let σ : gmap nat (Chan.chan float.float64) := {[ 0%nat := empty; 1%nat := empty ]} in
  let d := {| PubSubDebouncer.lastValue := one;
              PubSubDebouncer.listeners := {| PubSub.clients := [0; 1]%nat |};
              PubSubDebouncer.delay := 120 * time.Millisecond;
              PubSubDebouncer.timeOut := 0;
              PubSubDebouncer.fetcherFunc := λ n : nat, (one, @None unit, n) |} in
  float.lt (float.delta64 one near) float.epsilon64 = true ∧
  float.gt (float.delta64 one far) float.epsilon64 = true ∧
  (∃ d', PubSubDebouncer.SetValue (dyn:=PubSubDebouncer.float64_comparable) d σ near 5
         = Returns (d', Returns σ) ∧
         PubSubDebouncer.lastValue d' = one ∧
         PubSubDebouncer.timeOut d' = 5 + 120 * time.Millisecond) ∧
  ∃ d' σ', PubSubDebouncer.SetValue (dyn:=PubSubDebouncer.float64_comparable) d σ far 5
           = Returns (d', Returns σ') ∧
           PubSubDebouncer.lastValue d' = far ∧
           PubSubDebouncer.timeOut d' = 5 + 120 * time.Millisecond ∧
           (Chan.buf <$> σ' !! 0%nat) = Some [far] ∧
           (Chan.buf <$> σ' !! 1%nat) = Some [far].
Proof.
  intros one near far empty σ d.
  assert (float.lt (float.delta64 one near) float.epsilon64 = true) as Hnear
    by (vm_compute; reflexivity).
  assert (float.gt (float.delta64 one far) float.epsilon64 = true) as Hfar
    by (vm_compute; reflexivity).
  destruct SetValue_change_detection as (H64 & _ & Hlt & _ & _ & _ & _).
  split; [exact Hnear|]. split; [exact Hfar|]. split.
  - destruct (proj1 (H64 unit nat d σ near 5) (Hlt _ _ Hnear))
      as (d' & Hset & Hlast & Ht & _).
    exists d'. split; [exact Hset|]. split; [exact Hlast|exact Ht].
  - destruct (proj2 (H64 unit nat d σ far 5) Hfar)
      as (d' & σ' & Hset & Hlast & Ht & _ & _ & _ & Happ).
    + apply NoDup_ListNoDup. repeat constructor; simpl; intuition lia.
    + intros c Hc. apply list_elem_of_In in Hc. simpl in Hc.
      destruct Hc as [<-|[<-|[]]]; exists empty;
        (split; [reflexivity|split; [reflexivity|simpl; lia]]).
    + exists d', σ'. split; [exact Hset|]. split; [exact Hlast|].
      split; [exact Ht|].
      pose proof (Happ 0%nat) as H0. pose proof (Happ 1%nat) as H1.
      simpl in H0, H1.
      destruct H0 as (ch0 & ch0' & Ha & Hb & Hc & _).
      destruct H1 as (ch1 & ch1' & Ha1 & Hb1 & Hc1 & _).
      injection Ha as <-. injection Ha1 as <-.
      rewrite Hb, Hb1. simpl. rewrite Hc, Hc1. done.
Defined.

(** ** WorkerPool *)

Section wrap32_properties.
Import WorkerPool.

Lemma wrap32_add_l a b : wrap32 (wrap32 a + b) = wrap32 (a + b).
Proof.
  unfold wrap32. f_equal.
  replace ((a + 2 ^ 31) mod 2 ^ 32 - 2 ^ 31 + b + 2 ^ 31)
    with ((a + 2 ^ 31) mod 2 ^ 32 + b) by lia.
  rewrite Zplus_mod_idemp_l. f_equal. lia.
Qed.

Lemma wrap32_small a : - 2 ^ 31 ≤ a < 2 ^ 31 → wrap32 a = a.
Proof.
  intros Ha. unfold wrap32. rewrite Z.mod_small; lia.
Qed.
End wrap32_properties.

Section WorkerPool_properties.
Import WorkerPool.
Context {W R : Type} {sizeW : Sizeof W} {sizeR : Sizeof R}.
Variable f : W → R.
Variable backlog : Z.
Implicit Types s : WorkerPool W R.

Lemma NewWorkerPool_Returns_inv numWorkers s0 :
  NewWorkerPool backlog numWorkers = Returns s0 →
  0 ≤ backlog ∧ 1 ≤ numWorkers ∧
  Chan.size_out_of_range (sizeof R) backlog = false ∧
  Chan.size_out_of_range (sizeof W) backlog = false ∧
  s0 = {| work := []; result := []; closed := false; count := 0;
          idle := Z.to_nat numWorkers; holding := [];
          posting := []; receiving := [];
          posted := []; retrieved := [] |}.
Proof.
  unfold NewWorkerPool.
  destruct (Z.ltb_spec backlog 0); [done|].
  destruct (Z.ltb_spec numWorkers 1); [done|].
  destruct (Chan.size_out_of_range (sizeof R) backlog); [done|].
  destruct (Chan.size_out_of_range (sizeof W) backlog); [done|].
  by intros [= <-].
Qed.

Lemma NewWorkerPool_inv numWorkers s0 :
  NewWorkerPool backlog numWorkers = Returns s0 → conserved f s0 ∧ counted s0.
Proof.
  intros (_ & _ & _ & _ & ->)%NewWorkerPool_Returns_inv.
  unfold conserved, counted. simpl. split; reflexivity.
Qed.

Lemma exec_conserved a s s' :
  exec f backlog a s = Some s' → conserved f s → conserved f s'.
Proof.
  unfold conserved. intros Hex Hc.
  destruct a as [w|i|i| |i| | |i|i| ]; simpl in Hex.
  - injection Hex as <-. simpl. rewrite !fmap_app, Hc. simpl. solve_Permutation.
  - destruct (posting s !! i) as [w|] eqn:Hi; [|done].
    destruct (_ && _); [|done]. injection Hex as <-. simpl.
    rewrite Hc, fmap_app. simpl.
    rewrite (delete_Permutation (posting s) i w Hi) at 1.
    rewrite fmap_cons. solve_Permutation.
  - destruct (posting s !! i) as [w|] eqn:Hi; [|done].
    destruct (work s) as [|w0 rest] eqn:Hw; [|done].
    destruct (idle s) as [|n]; [done|].
    destruct (negb (closed s)); [|done]. injection Hex as <-. simpl.
    rewrite Hc. simpl.
    rewrite (delete_Permutation (posting s) i w Hi) at 1.
    rewrite fmap_cons. solve_Permutation.
  - destruct (work s) as [|w rest] eqn:Hw; [done|].
    destruct (idle s) as [|n]; [done|]. injection Hex as <-. simpl.
    rewrite Hc. simpl. solve_Permutation.
  - destruct (holding s !! i) as [v|] eqn:Hi; [|done].
    destruct (_ <? _); [|done]. injection Hex as <-. simpl.
    rewrite Hc.
    rewrite (delete_Permutation (holding s) i v Hi) at 1.
    solve_Permutation.
  - destruct (work s) as [|w rest] eqn:Hw; [|done].
    destruct (idle s) as [|n]; [done|].
    destruct (closed s); [|done]. injection Hex as <-. simpl.
    by rewrite Hc.
  - destruct (result s) as [|v rest] eqn:Hr; [done|].
    injection Hex as <-. simpl. rewrite Hc. solve_Permutation.
  - destruct (holding s !! i) as [v|] eqn:Hi; [|done].
    destruct (result s) as [|v0 rest] eqn:Hr; [|done].
    injection Hex as <-. simpl. rewrite Hc. simpl.
    rewrite (delete_Permutation (holding s) i v Hi) at 1.
    solve_Permutation.
  - destruct (receiving s !! i) as [v|] eqn:Hi; [|done].
    injection Hex as <-. simpl. rewrite Hc.
    rewrite (delete_Permutation (receiving s) i v Hi) at 1.
    solve_Permutation.
  - destruct (closed s); [done|]. injection Hex as <-. simpl. by rewrite Hc.
Qed.

Lemma exec_counted a s s' :
  exec f backlog a s = Some s' → counted s → counted s'.
Proof.
  unfold counted. intros Hex Hc.
  destruct a as [w|i|i| |i| | |i|i| ]; simpl in Hex;
    repeat match type of Hex with
           | match ?x with _ => _ end = Some _ => destruct x; try done
           | (if ?b then _ else _) = Some _ => destruct b; try done
           end;
    injection Hex as <-; simpl; try exact Hc.
  - rewrite Hc, wrap32_add_l, length_app. simpl. f_equal. lia.
  - rewrite Hc, wrap32_add_l, length_app. simpl. f_equal. lia.
Qed.

Lemma reachable_inv s s' :
  rtc (step f backlog) s s' → conserved f s ∧ counted s → conserved f s' ∧ counted s'.
Proof.
  induction 1 as [|s1 s2 s3 [a Ha] _ IH]; [done|].
  intros [Hc Hn]. apply IH. split.
  - by eapply exec_conserved.
  - by eapply exec_counted.
Qed.

Lemma run_rtc acts : ∀ s s',
  run f backlog acts s = Some s' → rtc (step f backlog) s s'.
Proof.
  induction acts as [|a acts IH]; intros s s'; simpl.
  - intros [= <-]. apply rtc_refl.
  - destruct (exec f backlog a s) as [s1|] eqn:Ha; [|done].
    intros Hrun. eapply rtc_l; [by exists a|]. by apply IH.
Qed.

Lemma run_app acts1 acts2 : ∀ s s1,
  run f backlog acts1 s = Some s1 →
  run f backlog (acts1 ++ acts2) s = run f backlog acts2 s1.
Proof.
  induction acts1 as [|a acts1 IH]; intros s s1; simpl.
  - by intros [= <-].
  - destruct (exec f backlog a s) as [s2|]; [|done]. apply IH.
Qed.

Lemma conserved_lengths s :
  conserved f s →
  length (posted s)
  = (length (retrieved s) + length (receiving s) + length (result s)
     + length (holding s) + length (work s) + length (posting s))%nat.
Proof.
  intros Hc. apply Permutation_length in Hc.
  rewrite length_fmap, !length_app, !length_fmap in Hc. lia.
Qed.

Lemma exec_manned a s s' n :
  exec f backlog a s = Some s' → manned n s → manned n s'.
Proof.
  unfold manned. intros Hex Hm.
  destruct a as [w|i|i| |i| | |i|i| ]; simpl in Hex.
  - injection Hex as <-. done.
  - destruct (posting s !! i) as [w|]; [|done].
    destruct (closed s) eqn:Hcl; [done|]. simpl in Hex.
    destruct (_ <? _); [|done]. injection Hex as <-. simpl.
    intros _. apply Hm. by left.
  - destruct (posting s !! i) as [w|]; [|done].
    destruct (work s) as [|w0 rest]; [|done].
    destruct (idle s) as [|k] eqn:Hidle; [done|].
    destruct (closed s) eqn:Hcl; [done|]. injection Hex as <-. simpl.
    intros _. rewrite length_app. simpl.
    specialize (Hm (or_introl eq_refl)). lia.
  - destruct (work s) as [|w rest] eqn:Hw; [done|].
    destruct (idle s) as [|k] eqn:Hidle; [done|]. injection Hex as <-. simpl.
    intros _. rewrite length_app. simpl.
    assert (S k + length (holding s) = n)%nat by (apply Hm; by right). lia.
  - destruct (holding s !! i) as [v|] eqn:Hi; [|done].
    destruct (_ <? _); [|done]. injection Hex as <-. simpl.
    intros Hpre. specialize (Hm Hpre). rewrite length_delete by eauto.
    apply lookup_lt_Some in Hi. lia.
  - destruct (work s) as [|w rest]; [|done].
    destruct (idle s) as [|k]; [done|].
    destruct (closed s); [|done]. injection Hex as <-. simpl.
    by intros [?|?].
  - destruct (result s) as [|v rest]; [done|]. injection Hex as <-. done.
  - destruct (holding s !! i) as [v|] eqn:Hi; [|done].
    destruct (result s) as [|v0 rest]; [|done]. injection Hex as <-. simpl.
    intros Hpre. specialize (Hm Hpre). rewrite length_delete by eauto.
    apply lookup_lt_Some in Hi. lia.
  - destruct (receiving s !! i) as [v|]; [|done]. injection Hex as <-. done.
  - destruct (closed s) eqn:Hcl; [done|]. injection Hex as <-. simpl.
    intros _. apply Hm. by left.
Qed.

Lemma reachable_manned numWorkers s0 s :
  NewWorkerPool backlog numWorkers = Returns s0 →
  rtc (step f backlog) s0 s →
  1 ≤ numWorkers ∧ manned (Z.to_nat numWorkers) s.
Proof.
  intros (_ & Hn & _ & _ & ->)%NewWorkerPool_Returns_inv Hrun.
  split; [done|]. revert Hrun.
  apply (rtc_ind_r (λ s, manned (Z.to_nat numWorkers) s)).
  - intros _. simpl. lia.
  - intros s1 s2 _ [a Ha] IH. by eapply exec_manned.
Qed.

(** A pool that owes a result can return one, in at most three steps of a
    worker and of a [Result] call: unless [work] was closed under a [Post]
    that still waits to send (which then panics). *)
Lemma deliver_one s n :
  conserved f s → (1 ≤ n)%nat → manned n s →
  closed s = false ∨ posting s = [] →
  (length (retrieved s) < length (posted s))%nat →
  ∃ acts s' r,
    (length acts ≤ 3)%nat ∧ run f backlog acts s = Some s' ∧
    retrieved s' = retrieved s ++ [r] ∧ posted s' = posted s ∧
    closed s' = closed s ∧ (posting s = [] → posting s' = []).
Proof.
  intros Hc Hn Hm Hpost Hlt.
  pose proof (conserved_lengths s Hc) as Hl. unfold manned in Hm.
  destruct s as [wk rs cl cnt idl hold pst rcv psd rtv]. simpl in *.
  destruct rcv as [|r rcv].
  2:{ exists [ResultAdd 0]. eexists. exists r.
      split; [simpl; lia|]. split; [reflexivity|]. done. }
  destruct rs as [|v rs].
  2:{ exists [ResultRecv; ResultAdd 0]. eexists. exists v.
      split; [simpl; lia|]. split; [reflexivity|]. done. }
  destruct hold as [|v hold].
  2:{ exists [ResultHandoff 0; ResultAdd 0]. eexists. exists v.
      split; [simpl; lia|]. split; [reflexivity|]. done. }
  destruct wk as [|w wk].
  - destruct pst as [|w pst]; [simpl in Hl; lia|].
    destruct Hpost as [->|Hnil]; [|done].
    specialize (Hm (or_introl eq_refl)). simpl in Hm.
    destruct idl as [|k]; [lia|].
    exists [PostHandoff 0; ResultHandoff 0; ResultAdd 0]. eexists. exists (f w).
    split; [simpl; lia|]. split; [reflexivity|]. done.
  - assert (idl + 0 = n)%nat as Hidle by (apply Hm; by right).
    destruct idl as [|k]; [lia|].
    exists [WorkerTake; ResultHandoff 0; ResultAdd 0]. eexists. exists (f w).
    split; [simpl; lia|]. split; [reflexivity|]. done.
Qed.

(** Hence every result that is owed can be returned: some schedule of the
    workers and of [Result] calls empties the pool. *)
Lemma deliver_all numWorkers s0 :
  NewWorkerPool backlog numWorkers = Returns s0 →
  ∀ k s, rtc (step f backlog) s0 s →
    closed s = false ∨ posting s = [] →
    (length (posted s) - length (retrieved s))%nat = k →
    ∃ acts s' more,
      run f backlog acts s = Some s' ∧ posted s' = posted s ∧
      retrieved s' = retrieved s ++ more ∧
      length (retrieved s') = length (posted s').
Proof.
  intros Hnew. induction k as [|k IH]; intros s Hrun Hpost Hk.
  - destruct (reachable_inv s0 s Hrun) as [Hc _]; [by eapply NewWorkerPool_inv|].
    pose proof (conserved_lengths s Hc).
    exists [], s, []. rewrite app_nil_r. split; [done|]. split; [done|].
    split; [done|lia].
  - destruct (reachable_inv s0 s Hrun) as [Hc _]; [by eapply NewWorkerPool_inv|].
    destruct (reachable_manned numWorkers s0 s Hnew Hrun) as [Hn Hm].
    destruct (deliver_one s (Z.to_nat numWorkers) Hc) as
      (acts1 & s1 & r & _ & Hrun1 & Hret1 & Hposted1 & Hcl1 & Hposting1);
      [lia|done|done|lia|].
    destruct (IH s1) as (acts2 & s2 & more & Hrun2 & Hposted2 & Hret2 & Hlen2).
    { etrans; [exact Hrun|]. by eapply run_rtc. }
    { destruct Hpost as [Hopen|Hnil]; [left; congruence|right; auto]. }
    { rewrite Hposted1, Hret1, length_app. simpl. lia. }
    exists (acts1 ++ acts2), s2, (r :: more).
    split. { by rewrite (run_app _ _ _ _ Hrun1). }
    split; [congruence|]. split; [|done].
    rewrite Hret2, Hret1, <- app_assoc. done.
Qed.

(** A pool that has returned as many results as items were posted is
    empty, and the results are the images of the items. *)
Lemma all_retrieved numWorkers s0 s :
  NewWorkerPool backlog numWorkers = Returns s0 →
  rtc (step f backlog) s0 s →
  length (retrieved s) = length (posted s) →
  retrieved s ≡ₚ f <$> posted s ∧ count s = 0 ∧
  work s = [] ∧ result s = [] ∧ holding s = [].
Proof.
  intros Hnew Hrun Hlen.
  destruct (reachable_inv s0 s Hrun) as [Hc Hn].
  { by eapply NewWorkerPool_inv. }
  pose proof (conserved_lengths s Hc) as Hl.
  assert (receiving s = [] ∧ result s = [] ∧ holding s = [] ∧
          work s = [] ∧ posting s = []) as (Hr & Hres & Hh & Hw & Hp).
  { repeat split; apply nil_length_inv; lia. }
  unfold conserved in Hc. rewrite Hr, Hres, Hh, Hw, Hp in Hc. simpl in Hc.
  rewrite app_nil_r in Hc. split; [done|]. split; [|done].
  unfold counted in Hn. rewrite Hn, Hlen, Z.sub_diag. reflexivity.
Qed.
End WorkerPool_properties.

Section WorkerPool_claims.
Import WorkerPool.

(** C5. Every posted item yields exactly one result.  In every state of a
    pool the results returned so far, together with those the pool still
    owes (as many as [Len()] counts), are the images of the posted items,
    each once; and some schedule of the workers and of [Result] calls returns
    all that is owed, after which [IsActive()] is false (unless [work] was
    closed under a [Post] that still waits to send).  With the identity as
    worker function and the items 1..10 posted: the pool can return ten
    results, and once ten [Result] calls have returned, the results are a
    permutation of 1..10, nothing is left in the pool, and [IsActive()] is
    false. *)
Theorem WorkerPool_conservation :
  (∀ {W R} {sizeW : Sizeof W} {sizeR : Sizeof R}
     (f : W → R) backlog numWorkers (s0 s : WorkerPool W R),
     NewWorkerPool backlog numWorkers = Returns s0 →
     rtc (step f backlog) s0 s →
     (∃ owed, f <$> posted s ≡ₚ retrieved s ++ owed ∧
              Len s = wrap32 (Z.of_nat (length owed))) ∧
     (length (retrieved s) = length (posted s) →
        retrieved s ≡ₚ f <$> posted s ∧ IsActive s = false) ∧
     (closed s = false ∨ posting s = [] →
        ∃ acts s' more,
          run f backlog acts s = Some s' ∧ posted s' = posted s ∧
          retrieved s' = retrieved s ++ more ∧
          retrieved s' ≡ₚ f <$> posted s ∧ IsActive s' = false)) ∧
  (∀ {sizeW : Sizeof Z} {sizeR : Sizeof Z}
     backlog numWorkers (s0 s : WorkerPool Z Z),
     NewWorkerPool backlog numWorkers = Returns s0 →
     rtc (step id backlog) s0 s →
     posted s ≡ₚ seqZ 1 10 →
     (length (retrieved s) = 10%nat →
        retrieved s ≡ₚ seqZ 1 10 ∧ IsActive s = false ∧ Len s = 0 ∧
        work s = [] ∧ result s = [] ∧ holding s = []) ∧
     (closed s = false ∨ posting s = [] →
        ∃ acts s',
          run id backlog acts s = Some s' ∧ posted s' = posted s ∧
          length (retrieved s') = 10%nat ∧
          retrieved s' ≡ₚ seqZ 1 10 ∧ IsActive s' = false)).
Proof.
  assert (∀ {W R} {sizeW : Sizeof W} {sizeR : Sizeof R}
            (f : W → R) backlog numWorkers (s0 s : WorkerPool W R),
            NewWorkerPool backlog numWorkers = Returns s0 →
            rtc (step f backlog) s0 s →
            closed s = false ∨ posting s = [] →
            ∃ acts s' more,
              run f backlog acts s = Some s' ∧ posted s' = posted s ∧
              retrieved s' = retrieved s ++ more ∧
              retrieved s' ≡ₚ f <$> posted s ∧ IsActive s' = false) as Hlive.
  { intros W R sizeW sizeR f backlog numWorkers s0 s Hnew Hrun Hpost.
    destruct (deliver_all f backlog numWorkers s0 Hnew _ s Hrun Hpost eq_refl)
      as (acts & s' & more & Hrun' & Hposted & Hret & Hlen).
    destruct (all_retrieved f backlog numWorkers s0 s' Hnew) as (Hperm & Hcount & _).
    { etrans; [exact Hrun|]. by eapply run_rtc. }
    { done. }
    exists acts, s', more. do 3 (split; [done|]).
    split; [by rewrite <- Hposted|]. unfold IsActive. by rewrite Hcount. }
  split.
  - intros W R sizeW sizeR f backlog numWorkers s0 s Hnew Hrun.
    split; [|split].
    + destruct (reachable_inv f backlog s0 s Hrun) as [Hc Hn].
      { by eapply NewWorkerPool_inv. }
      pose proof (conserved_lengths f s Hc) as Hl.
      eexists. split; [exact Hc|]. unfold Len. rewrite Hn. f_equal.
      rewrite !length_app, !length_fmap. lia.
    + intros Hlen.
      destruct (all_retrieved f backlog numWorkers s0 s Hnew Hrun Hlen)
        as (Hperm & Hcount & _).
      split; [done|]. unfold IsActive. by rewrite Hcount.
    + by eapply Hlive.
  - intros sizeW sizeR backlog numWorkers s0 s Hnew Hrun Hposted. split.
    + intros Hlen.
      destruct (all_retrieved id backlog numWorkers s0 s Hnew Hrun)
        as (Hperm & Hcount & Hrest).
      { rewrite Hlen, Hposted. reflexivity. }
      rewrite list_fmap_id, Hposted in Hperm.
      unfold IsActive, Len. rewrite Hcount. done.
    + intros Hpost.
      destruct (Hlive _ _ _ _ id backlog numWorkers s0 s Hnew Hrun Hpost)
        as (acts & s' & more & Hrun' & Hposted' & _ & Hperm & Hact).
      rewrite list_fmap_id, Hposted in Hperm.
      exists acts, s'. split; [done|]. split; [done|].
      split; [by rewrite Hperm|]. done.
Qed.

(** C8, amended.  In every state of a pool the counter is the number of
    [Post] calls (counted when they increment it, their first statement)
    minus the number of [Result] calls that returned, reduced to 32 bits;
    no more results are returned than items posted; and as long as the
    difference is below 2^31, [Len()] is that difference and is not
    negative. *)
Theorem Len_in_flight :
  ∀ {W R} {sizeW : Sizeof W} {sizeR : Sizeof R}
    (f : W → R) backlog numWorkers (s0 s : WorkerPool W R),
    NewWorkerPool backlog numWorkers = Returns s0 →
    rtc (step f backlog) s0 s →
    let k := Z.of_nat (length (posted s)) in
    let m := Z.of_nat (length (retrieved s)) in
    m ≤ k ∧ Len s = wrap32 (k - m) ∧
    (k - m < 2 ^ 31 → Len s = k - m ∧ 0 ≤ Len s).
Proof.
  intros W R sizeW sizeR f backlog numWorkers s0 s Hnew Hrun k m.
  destruct (reachable_inv f backlog s0 s Hrun) as [Hc Hn].
  { by eapply NewWorkerPool_inv. }
  pose proof (conserved_lengths f s Hc) as Hl.
  assert (m ≤ k) as Hmk by (unfold k, m; lia).
  split; [done|]. split; [exact Hn|].
  intros Hlt. unfold Len. rewrite Hn. fold k m.
  rewrite wrap32_small by lia. lia.
Qed.
End WorkerPool_claims.

Lemma WorkerPool_conservation_witness :
  ∃ s0 s1 s : WorkerPool.WorkerPool Z Z,
    WorkerPool.NewWorkerPool 0 1 = Returns s0 ∧
    WorkerPool.run id 0 (WorkerPool.PostAdd <$> seqZ 1 10) s0 = Some s1 ∧
    WorkerPool.posted s1 = seqZ 1 10 ∧ WorkerPool.retrieved s1 = [] ∧
    (∃ acts s',
       WorkerPool.run id 0 acts s1 = Some s' ∧
       WorkerPool.posted s' = WorkerPool.posted s1 ∧
       length (WorkerPool.retrieved s') = 10%nat ∧
       WorkerPool.retrieved s' ≡ₚ seqZ 1 10 ∧ WorkerPool.IsActive s' = false) ∧
    WorkerPool.run id 0 WorkerPool.test_schedule s0 = Some s ∧
    WorkerPool.posted s = seqZ 1 10 ∧
    length (WorkerPool.retrieved s) = 10%nat ∧
    WorkerPool.retrieved s ≡ₚ seqZ 1 10 ∧
    WorkerPool.IsActive s = false.
Proof.
  eexists. eexists. eexists. split; [reflexivity|].
  split; [vm_compute; reflexivity|]. split; [reflexivity|]. split; [reflexivity|].
  split.
  - refine (proj2 (proj2 WorkerPool_conservation _ _ 0 1 _ _ eq_refl _ _) _).
    + apply (run_rtc id 0 (WorkerPool.PostAdd <$> seqZ 1 10)).
      vm_compute. reflexivity.
    + reflexivity.
    + left. reflexivity.
  - split; [vm_compute; reflexivity|]. split; [reflexivity|]. split; [reflexivity|].
    refine (let H := proj1 (proj2 WorkerPool_conservation _ _ 0 1 _ _ eq_refl _ _) _ in
            conj (proj1 H) (proj1 (proj2 H))).
    + apply (run_rtc id 0 WorkerPool.test_schedule). vm_compute. reflexivity.
    + reflexivity.
    + reflexivity.
Defined.

Lemma Len_in_flight_witness :
  ∃ s0 s : WorkerPool.WorkerPool Z Z,
    WorkerPool.NewWorkerPool 4 2 = Returns s0 ∧
    WorkerPool.run id 4
      [WorkerPool.PostAdd 1; WorkerPool.PostAdd 2; WorkerPool.PostSend 0;
       WorkerPool.WorkerTake; WorkerPool.PostAdd 3; WorkerPool.WorkerSend 0;
       WorkerPool.ResultRecv; WorkerPool.ResultAdd 0] s0 = Some s ∧
    length (WorkerPool.posted s) = 3%nat ∧
    length (WorkerPool.retrieved s) = 1%nat ∧
    WorkerPool.Len s = 2 ∧ 0 ≤ WorkerPool.Len s.
Proof.
  eexists. eexists. split; [reflexivity|]. split; [vm_compute; reflexivity|].
  split; [reflexivity|]. split; [reflexivity|].
  match goal with
  | |- WorkerPool.Len ?s = _ ∧ _ =>
      refine (proj2 (proj2 (Len_in_flight id 4 2 _ s eq_refl _)) _)
  end.
  - apply (run_rtc id 4
             [WorkerPool.PostAdd 1; WorkerPool.PostAdd 2; WorkerPool.PostSend 0;
              WorkerPool.WorkerTake; WorkerPool.PostAdd 3; WorkerPool.WorkerSend 0;
              WorkerPool.ResultRecv; WorkerPool.ResultAdd 0]).
    vm_compute. reflexivity.
  - vm_compute. reflexivity.
Defined.

Section WorkerPool_overflow.
Import WorkerPool.
Context {W R : Type} {sizeW : Sizeof W} {sizeR : Sizeof R}.
Variable f : W → R.
Variable backlog : Z.

Lemma after_posts_reachable numWorkers s0 (w : W) n :
  NewWorkerPool backlog numWorkers = Returns s0 →
  Z.of_nat n ≤ backlog →
  rtc (step f backlog) s0 (after_posts (R:=R) numWorkers w n).
Proof.
  intros Hnew. induction n as [|n IH]; intros Hn.
  - apply NewWorkerPool_Returns_inv in Hnew as (_ & _ & _ & _ & ->).
    apply rtc_refl.
  - eapply rtc_r; [eapply rtc_r; [apply IH; lia|]|].
    + exists (PostAdd w). reflexivity.
    + exists (PostSend 0). unfold after_posts. cbn [exec posting work closed].
      cbn [app lookup list_lookup negb andb].
      rewrite length_replicate.
      destruct (Z.ltb_spec (Z.of_nat n) backlog); [|lia].
      cbn [delete list_delete result closed count idle holding receiving posted
           retrieved].
      f_equal. unfold after_posts. f_equal.
      * symmetry. apply replicate_S_end.
      * rewrite wrap32_add_l. f_equal. lia.
      * symmetry. apply replicate_S_end.
Qed.
End WorkerPool_overflow.

(** C8 as the spec states it fails once 2^31 items are in flight: on a pool
    of backlog 2^31 (items of size zero), after 2^31 [Post] calls have
    returned and no [Result] call was made, [Len()] is [-2^31]. *)
Lemma Len_wraps_around :
  ¬ WorkerPool.in_flight_exact (W:=unit) (R:=unit) id (2 ^ 31) 1.
Proof.
  intros Hclaim.
  assert (∀ n, Z.of_nat n = 2 ^ 31 → False) as Hn.
  { intros n Hn.
    destruct (Hclaim _ (WorkerPool.after_posts (R:=unit) 1 tt n) eq_refl)
      as [_ Hneg].
    - apply after_posts_reachable; [reflexivity|lia].
    - by split.
    - unfold WorkerPool.Len, WorkerPool.after_posts, WorkerPool.count in Hneg.
      rewrite Hn in Hneg. vm_compute in Hneg. by apply Hneg. }
  apply (Hn (Z.to_nat (2 ^ 31))). apply Z2Nat.id. lia.
Qed.

(** * Part III: further properties *)

(** ** PubSub: broadcast *)

Section Broadcast_properties.
Import Chan PubSub.
Context {T : Type}.
Implicit Types (s : PubSub) (σ : gmap nat (chan T)) (c : handle).

Lemma send_closed_stays σ c (msg : T) σ' c' :
  send σ c msg = Returns σ' →
  (∃ ch, σ' !! c' = Some ch ∧ closed ch = true) →
  ∃ ch, σ !! c' = Some ch ∧ closed ch = true.
Proof.
  intros (_ & ch & Hch & ->)%send_Returns_inv (ch' & Hch' & Hcl).
  destruct (decide (c = c')) as [->|Hne].
  - rewrite lookup_insert_eq in Hch'. injection Hch' as <-. eauto.
  - rewrite lookup_insert_ne in Hch' by done. eauto.
Qed.

Lemma send_each_Panics l : ∀ σ (msg : T),
  send_each l σ msg = Panics →
  ∃ c ch, c ∈ l ∧ σ !! c = Some ch ∧ closed ch = true.
Proof.
  induction l as [|v rest IH]; intros σ msg; simpl; [done|].
  destruct (send σ v msg) as [σ1| |] eqn:Hsend; simpl; [|done|].
  - intros (c & ch & Hc & Hch)%IH.
    destruct (send_closed_stays _ _ _ _ c Hsend) as (ch0 & Hch0 & Hcl0); [eauto|].
    exists c, ch0. split; [|done]. apply elem_of_cons. by right.
  - intros _. unfold send in Hsend.
    destruct (σ !! v) as [ch|] eqn:Hv; [|done].
    destruct (closed ch) eqn:Hcl.
    + exists v, ch. split; [|done]. apply elem_of_cons. by left.
    + by destruct (_ <? _)%nat.
Qed.

Lemma Broadcast_Returns_inv s σ (msg : T) σ' :
  NoDup (clients s) → Broadcast s σ msg = Returns σ' →
  (∀ c, c ∈ clients s → has_room σ c) ∧ delivered (clients s) msg σ σ'.
Proof.
  intros Hnd Hb. unfold Broadcast in Hb.
  pose proof (send_each_Returns_room _ _ _ _ Hnd Hb) as Hroom.
  destruct (send_each_room _ σ msg Hnd Hroom) as (σ1 & Hb1 & Hd).
  rewrite Hb in Hb1. by injection Hb1 as <-.
Qed.

Lemma send_each_app l1 l2 σ (msg : T) :
  send_each (l1 ++ l2) σ msg = send_each l1 σ msg ≫= λ σ1, send_each l2 σ1 msg.
Proof.
  revert σ. induction l1 as [|v l1 IH]; intros σ; simpl; [done|].
  destruct (send σ v msg) as [σ1| |]; simpl; [apply IH|done|done].
Qed.

(** X1. With every handle registered once: when every registered channel is
    open and has room in its buffer, [Broadcast] returns without waiting for
    a subscriber; the message then comes last in the buffer of each
    registered channel, and no other channel is touched.  When a registered
    channel is closed and those before it in the list have room,
    [Broadcast] panics; and it panics only when a registered channel is
    closed. *)
Theorem Broadcast_room_suffices s σ (msg : T) :
  NoDup (clients s) →
  ((∀ c, c ∈ clients s → has_room σ c) →
     ∃ σ', Broadcast s σ msg = Returns σ' ∧ appended (clients s) msg σ σ') ∧
  (∀ l1 c l2 ch,
     clients s = l1 ++ c :: l2 → (∀ c', c' ∈ l1 → has_room σ c') →
     σ !! c = Some ch → closed ch = true → Broadcast s σ msg = Panics) ∧
  (Broadcast s σ msg = Panics →
   ∃ c ch, c ∈ clients s ∧ σ !! c = Some ch ∧ closed ch = true).
Proof.
  intros Hnd. unfold Broadcast. split; [|split].
  - intros Hroom.
    destruct (send_each_room _ σ msg Hnd Hroom) as (σ' & Hb & Hd).
    exists σ'. split; [done|]. by apply delivered_appended.
  - intros l1 c l2 ch Hcl Hroom Hch Hclosed. rewrite Hcl in *.
    apply NoDup_app in Hnd as (Hnd1 & Hsep & _).
    destruct (send_each_room l1 σ msg Hnd1 Hroom) as (σ1 & Hb1 & Hd1).
    rewrite send_each_app, Hb1. simpl.
    assert (σ1 !! c = Some ch) as Hch1.
    { rewrite (Hd1 c), decide_False; [done|].
      intros Hin. apply (Hsep c Hin), elem_of_cons. by left. }
    unfold send. by rewrite Hch1, Hclosed.
  - apply send_each_Panics.
Qed.

(** X2. Two broadcasts in a row reach every subscriber in the order they
    were issued: the buffer of each registered channel ends with the first
    message and then the second, and a subscriber whose buffer was empty
    receives the first and then the second. *)
Theorem Broadcast_fifo s σ (m1 m2 : T) σ1 σ2 :
  NoDup (clients s) →
  Broadcast s σ m1 = Returns σ1 → Broadcast s σ1 m2 = Returns σ2 →
  ∀ c, c ∈ clients s →
    ∃ ch, σ !! c = Some ch ∧
          σ2 !! c = Some (push m2 (push m1 ch)) ∧
          buf (push m2 (push m1 ch)) = buf ch ++ [m1; m2] ∧
          (buf ch = [] →
           ∃ σ3 σ4, recv σ2 c = Returns (Some m1, σ3) ∧
                    recv σ3 c = Returns (Some m2, σ4) ∧
                    (buf <$> σ4 !! c) = Some []).
Proof.
  intros Hnd Hb1 Hb2 c Hc.
  destruct (Broadcast_Returns_inv s σ m1 σ1 Hnd Hb1) as [Hroom1 Hd1].
  destruct (Broadcast_Returns_inv s σ1 m2 σ2 Hnd Hb2) as [_ Hd2].
  destruct (Hroom1 c Hc) as (ch & Hch & _).
  pose proof (Hd1 c) as H1. pose proof (Hd2 c) as H2.
  rewrite decide_True in H1, H2 by done. rewrite Hch in H1. simpl in H1.
  rewrite H1 in H2. simpl in H2.
  exists ch. split; [done|]. split; [done|]. split.
  { simpl. by rewrite <- app_assoc. }
  intros Hempty. destruct ch as [n b cl]. simpl in Hempty. subst b.
  unfold recv. rewrite H2. simpl.
  eexists. eexists. split; [reflexivity|].
  rewrite lookup_insert_eq. simpl. split; [reflexivity|].
  by rewrite lookup_insert_eq.
Qed.
End Broadcast_properties.

Lemma Broadcast_room_suffices_witness :
  let ch := {| Chan.cap := 2%nat; Chan.buf := [1]; Chan.closed := false |} in
  let s := {| PubSub.clients := [3; 5]%nat |} in
  let σ : gmap nat (Chan.chan Z) := {[ 3%nat := ch; 5%nat := ch; 8%nat := ch ]} in
  (∃ σ', PubSub.Broadcast s σ 9 = Returns σ' ∧
         (Chan.buf <$> σ' !! 3%nat) = Some [1; 9] ∧
         (Chan.buf <$> σ' !! 5%nat) = Some [1; 9] ∧
         σ' !! 8%nat = Some ch) ∧
  PubSub.Broadcast s (<[5%nat := Chan.shut ch]> σ) 9 = Panics.
Proof.
  intros ch s σ.
  assert (NoDup (PubSub.clients s)) as Hnd.
  { apply NoDup_ListNoDup. repeat constructor; simpl; intuition lia. }
  split.
  - destruct (proj1 (Broadcast_room_suffices s σ 9 Hnd)) as (σ' & Hb & Happ).
    { intros c Hc. apply list_elem_of_In in Hc. simpl in Hc.
      destruct Hc as [<-|[<-|[]]]; exists ch;
        (split; [reflexivity|split; [reflexivity|simpl; lia]]). }
    exists σ'. split; [exact Hb|].
    pose proof (Happ 3%nat) as H3. pose proof (Happ 5%nat) as H5.
    pose proof (Happ 8%nat) as H8. simpl in H3, H5, H8.
    destruct H3 as (ch3 & ch3' & Ha3 & Hb3 & Hc3 & _).
    destruct H5 as (ch5 & ch5' & Ha5 & Hb5 & Hc5 & _).
    injection Ha3 as <-. injection Ha5 as <-.
    rewrite Hb3, Hb5, H8. simpl. rewrite Hc3, Hc5. done.
  - apply (proj1 (proj2 (Broadcast_room_suffices s (<[5%nat := Chan.shut ch]> σ) 9 Hnd))
             [3%nat] 5%nat [] (Chan.shut ch)); [reflexivity| |reflexivity|reflexivity].
    intros c ->%list_elem_of_singleton. exists ch.
    split; [reflexivity|split; [reflexivity|simpl; lia]].
Defined.

Lemma Broadcast_fifo_witness :
  let ch := {| Chan.cap := 2%nat; Chan.buf := @nil Z; Chan.closed := false |} in
  let s := {| PubSub.clients := [0; 1]%nat |} in
  let σ : gmap nat (Chan.chan Z) := {[ 0%nat := ch; 1%nat := ch ]} in
  ∃ σ1 σ2 σ3 σ4,
    PubSub.Broadcast s σ 7 = Returns σ1 ∧ PubSub.Broadcast s σ1 8 = Returns σ2 ∧
    Chan.recv σ2 1%nat = Returns (Some 7, σ3) ∧
    Chan.recv σ3 1%nat = Returns (Some 8, σ4).
Proof.
  intros ch s σ.
  assert (NoDup (PubSub.clients s)) as Hnd.
  { apply NoDup_ListNoDup. repeat constructor; simpl; intuition lia. }
  assert (1%nat ∈ PubSub.clients s) as Hin.
  { apply elem_of_cons. right. apply elem_of_cons. by left. }
  eexists. eexists.
  destruct (Broadcast_fifo s σ 7 8 _ _ Hnd eq_refl eq_refl 1%nat Hin)
    as (ch' & Hch' & _ & _ & Hrecv).
  injection Hch' as <-.
  destruct (Hrecv eq_refl) as (σ3 & σ4 & Hr1 & Hr2 & _).
  exists σ3, σ4. split; [reflexivity|]. split; [reflexivity|]. by split.
Defined.

(** ** PubSub: registering and unregistering *)

Section Register_properties.
Import Chan PubSub.
Context {T : Type} {sz : Sizeof T}.
Implicit Types (s : PubSub) (σ : gmap nat (chan T)) (c : handle).

Lemma list_find_snoc_fresh (l : list nat) c :
  c ∉ l → list_find (λ v, v = c) (l ++ [c]) = Some (length l, c).
Proof.
  intros Hc. apply list_find_Some. split; [|split; [done|]].
  - by rewrite list_lookup_middle.
  - intros j y Hj Hlt ->. apply Hc.
    rewrite lookup_app_l in Hj by done. by eapply list_elem_of_lookup_2.
Qed.

Lemma Register_fresh s σ (buffSize : nat) :
  wf s σ → size_out_of_range (sizeof T) (Z.of_nat buffSize) = false →
  ∃ c s' σ',
    Register s σ buffSize = Returns (c, s', σ') ∧
    σ !! c = None ∧ (c ∉ clients s) ∧
    σ' = <[c := {| cap := buffSize; buf := []; closed := false |}]> σ ∧
    clients s' = clients s ++ [c] ∧ wf s' σ' ∧
    Size s' = Size s + 1 ∧ IsActive s' = true ∧
    Unregister s' σ' c = Returns (s, σ').
Proof.
  intros Hwf Hrange.
  assert (Register s σ buffSize
          = Returns (fresh (dom σ), {| clients := clients s ++ [fresh (dom σ)] |},
                     <[fresh (dom σ) := {| cap := buffSize; buf := []; closed := false |}]> σ))
    as Hreg.
  { unfold Register. by rewrite make_in_range. }
  destruct (Register_wf _ _ _ _ _ _ Hwf Hreg) as [Hwf' Hc].
  set (c := fresh (dom σ)) in *.
  eexists c, _, _. split; [exact Hreg|].
  split. { apply not_elem_of_dom. apply is_fresh. }
  split; [done|]. split; [done|]. split; [done|]. split; [done|].
  split. { unfold Size. simpl. rewrite length_app. simpl. lia. }
  split. { unfold IsActive. simpl. rewrite length_app. simpl.
           apply Z.ltb_lt. lia. }
  unfold Unregister. simpl. rewrite list_find_snoc_fresh by done.
  unfold index. rewrite length_app. simpl.
  destruct (Z.ltb_spec (Z.of_nat (length (clients s) + 1) - 1) 0); [lia|].
  replace (Z.to_nat (Z.of_nat (length (clients s) + 1) - 1))
    with (length (clients s)) by lia.
  rewrite list_lookup_middle by done.
  rewrite list_insert_id by (by rewrite list_lookup_middle).
  rewrite take_app_length. by destruct s.
Qed.

(** X3. [Register] with a size that [make] accepts hands out a channel that
    was not allocated before: open, empty, of the capacity asked for, and
    appended to the subscriber list; every other channel is as it was.
    [Unregister] of that handle right away restores the list as it was, the
    channel staying open in the store.  With a size that [make] refuses
    (2^63 or more, or a buffer above the bound of the runtime) [Register]
    panics before it touches the list. *)
Theorem Register_Unregister_roundtrip s σ (buffSize : nat) :
  wf s σ →
  (size_out_of_range (sizeof T) (Z.of_nat buffSize) = true ↔
   2 ^ 63 ≤ Z.of_nat buffSize ∨
   maxAlloc - hchanSize < sizeof T * Z.of_nat buffSize) ∧
  (size_out_of_range (sizeof T) (Z.of_nat buffSize) = true →
   Register s σ buffSize = Panics) ∧
  (size_out_of_range (sizeof T) (Z.of_nat buffSize) = false →
   ∃ c s' σ' ch,
     Register s σ buffSize = Returns (c, s', σ') ∧
     σ !! c = None ∧ (c ∉ clients s) ∧
     σ' !! c = Some ch ∧ cap ch = buffSize ∧ buf ch = [] ∧ closed ch = false ∧
     (∀ c', c' ≠ c → σ' !! c' = σ !! c') ∧
     clients s' = clients s ++ [c] ∧ wf s' σ' ∧
     Size s' = Size s + 1 ∧ IsActive s' = true ∧
     Unregister s' σ' c = Returns (s, σ')).
Proof.
  intros Hwf. split; [|split].
  - unfold size_out_of_range. rewrite !orb_true_iff, Z.ltb_lt, Z.leb_le, Z.ltb_lt.
    split; [intros [[?|?]|?]; [lia|by left|by right]|].
    intros [?|?]; [left; by right|by right].
  - intros Hr. unfold Register. by rewrite make_out_of_range.
  - intros Hr.
    destruct (Register_fresh s σ buffSize Hwf Hr)
      as (c & s' & σ' & Hreg & Hnone & Hc & -> & Hcl & Hwf' & Hsize & Hact & Hun).
    exists c, s', (<[c := {| cap := buffSize; buf := []; closed := false |}]> σ),
           {| cap := buffSize; buf := []; closed := false |}.
    split; [done|]. split; [done|]. split; [done|].
    split; [apply lookup_insert_eq|]. do 3 (split; [done|]).
    split; [intros c' Hne; by rewrite lookup_insert_ne|]. done.
Qed.

(** X5. [Unregister] is idempotent in both revisions: once a handle has been
    unregistered, unregistering it again returns and changes nothing (the
    revision that closes the channel does not close it twice).  That
    revision panics when the registered channel is already closed. *)
Theorem Unregister_twice s σ c :
  NoDup (clients s) →
  (∀ s' σ', Unregister s σ c = Returns (s', σ') →
            Unregister s' σ' c = Returns (s', σ')) ∧
  (∀ s' σ', PubSubClosing.Unregister s σ c = Returns (s', σ') →
            PubSubClosing.Unregister s' σ' c = Returns (s', σ')) ∧
  (∀ ch, c ∈ clients s → σ !! c = Some ch → closed ch = true →
         PubSubClosing.Unregister s σ c = Panics).
Proof.
  intros Hnd.
  assert (∀ s' σ', Unregister s σ c = Returns (s', σ') → c ∉ clients s') as Hgone.
  { intros s' σ' Hu. destruct (decide (c ∈ clients s)) as [Hc|Hc].
    - by eapply Unregister_removes.
    - rewrite Unregister_absent in Hu by done. by injection Hu as <- _. }
  split; [|split].
  - intros s' σ' Hu. apply Unregister_absent. by eapply Hgone.
  - intros s' σ' Hu.
    assert (c ∉ clients s') as Hout.
    { destruct (Unregister_keeps_store s σ c) as [s1 Hu1].
      apply (Hgone s1 σ) in Hu1 as Hs1.
      revert Hu Hu1. unfold PubSubClosing.Unregister, Unregister.
      destruct (list_find _ _) as [[i v]|]; [|by intros; simplify_eq].
      destruct (close σ v) as [σ1| |]; simpl; try done.
      destruct (index _ _); [|done]. by intros; simplify_eq. }
    unfold PubSubClosing.Unregister.
    destruct (list_find _ _) as [[i v]|] eqn:Hf; [|done].
    apply list_find_Some in Hf as (Hi & -> & _).
    exfalso. apply Hout. by eapply list_elem_of_lookup_2.
  - intros ch Hc Hch Hcl. unfold PubSubClosing.Unregister.
    destruct (list_find _ _) as [[i v]|] eqn:Hf.
    + apply list_find_Some in Hf as (_ & -> & _).
      unfold close. by rewrite Hch, Hcl.
    + apply list_find_None in Hf. rewrite Forall_forall in Hf.
      by destruct (Hf c Hc).
Qed.
End Register_properties.

Lemma Register_Unregister_roundtrip_witness :
  let ch := {| Chan.cap := 1%nat; Chan.buf := [4]; Chan.closed := false |} in
  let s := {| PubSub.clients := [0; 1]%nat |} in
  let σ : gmap nat (Chan.chan Z) := {[ 0%nat := ch; 1%nat := ch ]} in
  (∃ c s' σ',
     PubSub.Register s σ 3 = Returns (c, s', σ') ∧ σ !! c = None ∧
     PubSub.clients s' = [0%nat; 1%nat; c] ∧
     (Chan.cap <$> σ' !! c) = Some 3%nat ∧
     PubSub.Unregister s' σ' c = Returns (s, σ')) ∧
  PubSub.Register s σ (Z.to_nat (2 ^ 62)) = Panics.
Proof.
  intros ch s σ.
  assert (PubSub.wf s σ) as Hwf.
  { split.
    - apply NoDup_ListNoDup. repeat constructor; simpl; intuition lia.
    - intros c Hc. apply elem_of_dom. apply list_elem_of_In in Hc. simpl in Hc.
      destruct Hc as [<-|[<-|[]]]; by exists ch. }
  assert (Chan.size_out_of_range (sizeof Z) (Z.of_nat 3) = false) as Hr
    by (vm_compute; reflexivity).
  split.
  - destruct (proj2 (proj2 (Register_Unregister_roundtrip s σ 3 Hwf)) Hr)
      as (c & s' & σ' & ch' & Hreg & Hnew & _ & Hch & Hcap & _ & _ & _ & Hcl
          & _ & _ & _ & Hun).
    exists c, s', σ'. rewrite Hcl, Hch. simpl. rewrite Hcap. done.
  - apply (proj1 (proj2 (Register_Unregister_roundtrip s σ (Z.to_nat (2 ^ 62)) Hwf))).
    rewrite Z2Nat.id by lia. reflexivity.
Defined.

Lemma Unregister_twice_witness :
  let ch := {| Chan.cap := 1%nat; Chan.buf := @nil Z; Chan.closed := false |} in
  let s := {| PubSub.clients := [0; 1]%nat |} in
  let σ : gmap nat (Chan.chan Z) := {[ 0%nat := ch; 1%nat := ch ]} in
  ∃ s' σ',
    PubSubClosing.Unregister s σ 0%nat = Returns (s', σ') ∧
    PubSubClosing.Unregister s' σ' 0%nat = Returns (s', σ') ∧
    PubSubClosing.Unregister s (<[0%nat := Chan.shut ch]> σ) 0%nat = Panics.
Proof.
  intros ch s σ.
  assert (NoDup (PubSub.clients s)) as Hnd.
  { apply NoDup_ListNoDup. repeat constructor; simpl; intuition lia. }
  eexists. eexists. split; [reflexivity|]. split.
  - apply (proj1 (proj2 (Unregister_twice s σ 0%nat Hnd))). reflexivity.
  - apply (proj2 (proj2 (Unregister_twice s (<[0%nat := Chan.shut ch]> σ) 0%nat Hnd))
             (Chan.shut ch)); [|reflexivity|reflexivity].
    apply elem_of_cons. by left.
Defined.

(** ** PubSub: any sequence of calls *)

Section PubSubRun_properties.
Import Chan PubSub PubSubRun.
Context {T : Type} {sz : Sizeof T}.
Implicit Types (s : PubSub) (σ : gmap nat (chan T)) (c : handle).

Lemma send_each_keeps l : ∀ σ (msg : T) σ',
  send_each l σ msg = Returns σ' → dom σ' = dom σ ∧ (all_open σ → all_open σ').
Proof.
  induction l as [|v rest IH]; intros σ msg σ'; simpl.
  - by intros [= <-].
  - destruct (send σ v msg) as [σ1| |] eqn:Hsend; simpl; try done.
    apply send_Returns_inv in Hsend as (_ & ch & Hch & ->).
    intros [Hdom Hopen]%IH. split.
    + rewrite Hdom. apply dom_insert_lookup_L. eauto.
    + intros Hall. apply Hopen. intros c ch' Hc.
      destruct (decide (v = c)) as [->|Hne].
      * rewrite lookup_insert_eq in Hc. injection Hc as <-. simpl.
        by eapply Hall.
      * rewrite lookup_insert_ne in Hc by done. by eapply Hall.
Qed.

Lemma recv_keeps σ c (v : option T) σ' :
  recv σ c = Returns (v, σ') → dom σ' = dom σ ∧ (all_open σ → all_open σ').
Proof.
  unfold recv. destruct (σ !! c) as [ch|] eqn:Hch; [|done].
  destruct (buf ch) as [|x rest] eqn:Hbuf.
  - destruct (closed ch); [|done]. by intros [= _ <-].
  - intros [= _ <-]. split.
    + apply dom_insert_lookup_L. eauto.
    + intros Hall c' ch' Hc'. destruct (decide (c = c')) as [->|Hne].
      * rewrite lookup_insert_eq in Hc'. injection Hc' as <-. simpl.
        by eapply Hall.
      * rewrite lookup_insert_ne in Hc' by done. by eapply Hall.
Qed.

Lemma do_keeps (o : call) s σ s' σ' :
  do o (s, σ) = Returns (s', σ') →
  wf s σ → all_open σ → wf s' σ' ∧ all_open σ' ∧ dom σ ⊆ dom σ'.
Proof.
  intros Hdo Hwf Hall. destruct o as [n|c|msg|c]; simpl in Hdo.
  - destruct (Register s σ n) as [[[c0 s1] σ1]| |] eqn:Hr; simpl in Hdo; try done.
    injection Hdo as <- <-.
    destruct (Register_wf _ _ _ _ _ _ Hwf Hr) as [Hwf1 _].
    apply Register_Returns_inv in Hr as (_ & -> & -> & ->).
    split; [done|]. split.
    + intros c ch Hc. destruct (decide (fresh (dom σ) = c)) as [<-|Hne].
      * rewrite lookup_insert_eq in Hc. by injection Hc as <-.
      * rewrite lookup_insert_ne in Hc by done. by eapply Hall.
    + rewrite dom_insert_L. apply union_subseteq_r.
  - destruct (Unregister_keeps_store s σ c) as [s1 Hu].
    rewrite Hu in Hdo. injection Hdo as <- <-.
    split; [by eapply Unregister_wf|done].
  - destruct (Broadcast s σ msg) as [σ1| |] eqn:Hb; simpl in Hdo; try done.
    injection Hdo as <- <-.
    destruct (send_each_keeps _ _ _ _ Hb) as [Hdom Hopen].
    split; [|split; [by apply Hopen|by rewrite Hdom]].
    destruct Hwf as [Hnd Hin]. split; [done|]. rewrite Hdom. apply Hin.
  - destruct (recv σ c) as [[v σ1]| |] eqn:Hr; simpl in Hdo; try done.
    injection Hdo as <- <-.
    destruct (recv_keeps _ _ _ _ Hr) as [Hdom Hopen].
    split; [|split; [by apply Hopen|by rewrite Hdom]].
    destruct Hwf as [Hnd Hin]. split; [done|]. rewrite Hdom. apply Hin.
Qed.

(** X4. Whatever calls a program makes on a [PubSub] (src/email.go) that
    starts empty, as long as they return: no handle is ever registered
    twice, every registered handle is an allocated channel, and no channel is
    ever closed. *)
Theorem PubSub_run_invariant (calls : list (call (T:=T))) s σ :
  run calls (NewPubSub, ∅) = Returns (s, σ) → wf s σ ∧ all_open σ.
Proof.
  assert (∀ calls s0 σ0 s σ,
            run calls (s0, σ0) = Returns (s, σ) →
            wf s0 σ0 → all_open σ0 → wf s σ ∧ all_open σ) as Hgen.
  { clear. induction calls as [|o calls IH]; intros s0 σ0 s σ Hrun Hwf Hall.
    - by injection Hrun as <- <-.
    - cbn [run] in Hrun.
      destruct (do o (s0, σ0)) as [[s1 σ1]| |] eqn:Hdo; try done.
      destruct (do_keeps _ _ _ _ _ Hdo Hwf Hall) as (Hwf1 & Hall1 & _).
      by eapply IH. }
  intros Hrun. eapply Hgen; [exact Hrun| |].
  - split; [apply NoDup_nil_2|]. intros c Hc. by apply not_elem_of_nil in Hc.
  - intros c ch Hc. by rewrite lookup_empty in Hc.
Qed.
End PubSubRun_properties.

Lemma PubSub_run_invariant_witness :
  ∃ s σ,
    PubSubRun.run
      [PubSubRun.DoRegister 1; PubSubRun.DoRegister 1; PubSubRun.DoRegister 1;
       PubSubRun.DoBroadcast 11; PubSubRun.DoReceive 0; PubSubRun.DoUnregister 1;
       PubSubRun.DoReceive 2; PubSubRun.DoBroadcast 12]
      (PubSub.NewPubSub, (∅ : gmap nat (Chan.chan Z))) = Returns (s, σ) ∧
    PubSub.clients s = [0; 2]%nat ∧ PubSub.wf s σ ∧ Chan.all_open σ.
Proof.
  eexists. eexists. split; [vm_compute; reflexivity|]. split; [reflexivity|].
  apply (PubSub_run_invariant
           [PubSubRun.DoRegister 1; PubSubRun.DoRegister 1; PubSubRun.DoRegister 1;
            PubSubRun.DoBroadcast 11; PubSubRun.DoReceive 0; PubSubRun.DoUnregister 1;
            PubSubRun.DoReceive 2; PubSubRun.DoBroadcast 12]).
  vm_compute. reflexivity.
Defined.

(** ** RandomQueue: removing fewer or more items than there are *)

Section RandomQueue_drain.
Import RandomQueue.
Context {T rng : Type}.
Variable Intn : rng → Z → Z * rng.
Hypothesis Intn_range : ∀ g n, 0 < n → 0 ≤ (Intn g n).1 < n.
Implicit Types r : @RandomQueue T.

(** X6. [k] calls of [GetAndRemove] on a queue of at least [k] items all
    return: the [k] items returned and the items left are together the items
    the queue had, each as often as it was there, and [Len()] has gone down
    by [k].  With fewer than [k] items the run panics, at the call that
    finds the queue empty.  [Add] makes [Len()] one larger. *)
Theorem GetAndRemove_k_times k : ∀ r g,
  ((k ≤ length (files r))%nat →
     ∃ out r' g',
       drain Intn k r g = Returns (out, r', g') ∧
       length out = k ∧ Len r' = Len r - Z.of_nat k ∧
       out ++ files r' ≡ₚ files r) ∧
  ((length (files r) < k)%nat → drain Intn k r g = Panics) ∧
  (∀ f, Len (Add r f) = Len r + 1).
Proof.
  induction k as [|k IH]; intros r g.
  - split; [|split].
    + intros _. exists [], r, g. simpl. split; [done|]. split; [done|].
      split; [lia|done].
    + lia.
    + intros f. unfold Len, Add. simpl. rewrite length_app. simpl. lia.
  - split; [|split].
    + intros Hk.
      assert (files r ≠ []) as Hne by (intros Hr; rewrite Hr in Hk; simpl in Hk; lia).
      destruct (GetAndRemove_nonempty Intn Intn_range r g Hne)
        as (f & l & _ & _ & _ & Heq).
      pose proof (GetAndRemove_perm Intn Intn_range _ _ _ _ _ Heq) as [Hperm HLen].
      simpl. rewrite Heq. simpl.
      set (r1 := {| files := _ |}) in *.
      destruct (proj1 (IH r1 (Intn g (Len r)).2)) as (out & r' & g' & Hd & Hl & HL & Hp).
      { unfold Len in HLen. lia. }
      rewrite Hd. simpl. exists (f :: out), r', g'.
      split; [done|]. split; [simpl; lia|]. split; [lia|].
      simpl. by rewrite Hp, Hperm.
    + intros Hk. simpl.
      destruct (decide (files r = [])) as [He|Hne].
      { by rewrite (GetAndRemove_empty Intn r g He). }
      destruct (GetAndRemove_nonempty Intn Intn_range r g Hne)
        as (f & l & _ & _ & _ & Heq).
      pose proof (GetAndRemove_perm Intn Intn_range _ _ _ _ _ Heq) as [Hperm HLen].
      rewrite Heq. simpl.
      set (r1 := {| files := _ |}) in *.
      rewrite (proj1 (proj2 (IH r1 (Intn g (Len r)).2))); [done|].
      unfold Len in HLen. lia.
    + intros f. unfold Len, Add. simpl. rewrite length_app. simpl. lia.
Qed.
End RandomQueue_drain.

Lemma GetAndRemove_k_times_witness :
  let q := RandomQueue.add_all RandomQueue.NewRandomQueue [10; 20; 30; 40] in
  (∃ out r' g',
     RandomQueue.drain RandomQueue.counter_Intn 2 q 1 = Returns (out, r', g') ∧
     RandomQueue.Len r' = 2 ∧ out ++ RandomQueue.files r' ≡ₚ [10; 20; 30; 40]) ∧
  RandomQueue.drain RandomQueue.counter_Intn 5 q 1 = Panics.
Proof.
  intros q.
  pose proof (GetAndRemove_k_times RandomQueue.counter_Intn counter_Intn_range 2 q 1)
    as (Hpart & _ & _).
  pose proof (GetAndRemove_k_times RandomQueue.counter_Intn counter_Intn_range 5 q 1)
    as (_ & Hover & _).
  split.
  - destruct Hpart as (out & r' & g' & Hd & _ & HL & Hp); [simpl; lia|].
    exists out, r', g'. split; [exact Hd|]. split; [exact HL|exact Hp].
  - apply Hover. simpl. lia.
Defined.

(** ** Floating point: the absolute difference *)

Section float_difference.
Import float.
Variables prec emax : Z.

Lemma SFabs_binary_round_aux_sign s s' m e l :
  SFabs (binary_round_aux prec emax s m e l)
  = SFabs (binary_round_aux prec emax s' m e l).
Proof.
  unfold binary_round_aux.
  destruct (shr_fexp prec emax m e l) as [mrs1 e1].
  destruct (shr_fexp prec emax _ e1 loc_Exact) as [mrs2 e2].
  destruct (shr_m mrs2); [done| |done].
  by destruct (e2 <=? emax - prec).
Qed.

Lemma SFabs_binary_round_sign s s' m e :
  SFabs (binary_round prec emax s m e) = SFabs (binary_round prec emax s' m e).
Proof.
  unfold binary_round. destruct (shl_align _ _ _) as [mz ez].
  apply SFabs_binary_round_aux_sign.
Qed.

Lemma SFabs_binary_normalize_opp m e sz sz' :
  SFabs (binary_normalize prec emax m e sz)
  = SFabs (binary_normalize prec emax (- m) e sz').
Proof.
  destruct m as [|m|m]; simpl; [done| |]; apply SFabs_binary_round_sign.
Qed.

Lemma SFabs_SFsub_comm x y :
  SFabs (SFsub prec emax x y) = SFabs (SFsub prec emax y x).
Proof.
  destruct x as [sx|sx| |sx mx ex], y as [sy|sy| |sy my ey];
    try destruct sx; try destruct sy; simpl; try done;
    rewrite (Z.min_comm ey ex);
    first
      [ match goal with
        | |- SFabs (binary_normalize _ _ ?a _ _)
             = SFabs (binary_normalize _ _ ?b _ _) =>
            replace b with (- a) by lia; apply SFabs_binary_normalize_opp
        end
      | rewrite Pos.add_comm; apply SFabs_binary_round_sign ].
Qed.

Lemma SFsub_diag x :
  SFabs (SFsub prec emax x x) = S754_zero false ∨ SFsub prec emax x x = S754_nan.
Proof.
  destruct x as [s|s| |s m e]; try destruct s; simpl; auto;
    left; rewrite Z.sub_diag; done.
Qed.

Lemma SFsub_diag_finite x :
  AlmostEqual.is_finite x = true → SFabs (SFsub prec emax x x) = S754_zero false.
Proof.
  destruct x as [s|s| |s m e]; try destruct s; simpl; try done;
    intros _; rewrite Z.sub_diag; done.
Qed.

Lemma SFsub_nan_l y : SFsub prec emax S754_nan y = S754_nan.
Proof. by destruct y. Qed.

Lemma SFsub_nan_r x : SFsub prec emax x S754_nan = S754_nan.
Proof. by destruct x. Qed.
End float_difference.

Section float_comparisons.
Import float.

Lemma SFabs_float64_of_float32 z z' :
  SFabs z = SFabs z' → SFabs (float64_of_float32 z) = SFabs (float64_of_float32 z').
Proof.
  destruct z as [s|s| |s m e], z' as [s'|s'| |s' m' e']; simpl; try done.
  intros [= -> ->]. apply SFabs_binary_round_sign.
Qed.

Lemma delta64_comm x y : delta64 x y = delta64 y x.
Proof. apply SFabs_SFsub_comm. Qed.

Lemma delta32_comm x y : delta32 x y = delta32 y x.
Proof.
  unfold delta32, Abs. apply SFabs_float64_of_float32, SFabs_SFsub_comm.
Qed.

Lemma delta64_diag x :
  delta64 x x = S754_zero false ∨ delta64 x x = S754_nan.
Proof.
  unfold delta64, Abs, sub64.
  destruct (SFsub_diag 53 1024 x) as [Hz|Hn]; [by left|right]. by rewrite Hn.
Qed.

Lemma delta32_diag x :
  delta32 x x = S754_zero false ∨ delta32 x x = S754_nan.
Proof.
  unfold delta32, Abs, sub32.
  destruct (SFsub_diag 24 128 x) as [Hz|Hn].
  - left. destruct (SFsub 24 128 x x) as [s|s| |s m e]; try done.
  - right. by rewrite Hn.
Qed.

Lemma epsilon_value :
  SFdiv 53 1024 (of_Z64 1 0) (of_Z64 1000000 0) = AlmostEqual.epsilon.
Proof. vm_compute. reflexivity. Qed.
End float_comparisons.

(** ** PubSubDebouncer.SetValue: the same value, NaN, and other types *)

Section SetValue_edge_cases.
Import time Fetch Chan PubSubDebouncer float.

Lemma gt_delta64_diag x : gt (delta64 x x) epsilon64 = false.
Proof. by destruct (delta64_diag x) as [-> | ->]. Qed.

Lemma gt_delta32_diag x : gt (delta32 x x) epsilon32 = false.
Proof. by destruct (delta32_diag x) as [-> | ->]. Qed.

Lemma gt_delta64_nan x y :
  x = S754_nan ∨ y = S754_nan → gt (delta64 x y) epsilon64 = false.
Proof.
  unfold delta64, sub64.
  intros [-> | ->]; [by rewrite SFsub_nan_l|by rewrite SFsub_nan_r].
Qed.

Lemma gt_delta32_nan x y :
  x = S754_nan ∨ y = S754_nan → gt (delta32 x y) epsilon32 = false.
Proof.
  unfold delta32, sub32.
  intros [-> | ->]; [by rewrite SFsub_nan_l|by rewrite SFsub_nan_r].
Qed.

(** X7. For float64 and float32, [SetValue] with the value that is cached
    never broadcasts (also for NaN and the infinities), its test is
    symmetric in the cached and the new value, a NaN never replaces the
    cached value, and a cached NaN is never replaced: the difference is NaN,
    and NaN is not above the epsilon.  A defined type such as
    [type Celsius float64] goes through the [default] case, with [!=]: a
    cached NaN is cached and broadcast again by every [SetValue] of NaN,
    while [-0] and [+0] do not differ.  On int the cached value is never
    broadcast again.  On the interface type [any], a [SetValue] of a float64
    panics when the cached value is not a float64 (nil, on a new debouncer),
    and so does a [SetValue] of a slice onto a cached slice. *)
Theorem SetValue_same_value_and_NaN :
  (∀ E F (d : PubSubDebouncer float64 E F) σ now,
     keeps_value_and_silent (dyn:=float64_comparable) d σ (lastValue d) now) ∧
  (∀ E F (d : PubSubDebouncer float32 E F) σ now,
     keeps_value_and_silent (dyn:=float32_comparable) d σ (lastValue d) now) ∧
  (∀ a b : float64,
     differs (dyn:=float64_comparable) a b = differs (dyn:=float64_comparable) b a) ∧
  (∀ a b : float32,
     differs (dyn:=float32_comparable) a b = differs (dyn:=float32_comparable) b a) ∧
  (∀ E F (d : PubSubDebouncer float64 E F) σ value now,
     lastValue d = S754_nan ∨ value = S754_nan →
     keeps_value_and_silent (dyn:=float64_comparable) d σ value now) ∧
  (∀ E F (d : PubSubDebouncer float32 E F) σ value now,
     lastValue d = S754_nan ∨ value = S754_nan →
     keeps_value_and_silent (dyn:=float32_comparable) d σ value now) ∧
  (∀ E F (d : PubSubDebouncer Celsius E F) σ now,
     lastValue d = S754_nan →
     updates_and_broadcasts_once (dyn:=Celsius_comparable) d σ S754_nan now) ∧
  (∀ E F (d : PubSubDebouncer Celsius E F) σ now (neg neg' : bool),
     lastValue d = S754_zero neg →
     keeps_value_and_silent (dyn:=Celsius_comparable) d σ (S754_zero neg') now) ∧
  (∀ E F (d : PubSubDebouncer Z E F) σ now,
     keeps_value_and_silent (dyn:=Z_comparable) d σ (lastValue d) now) ∧
  (∀ E F (d : PubSubDebouncer any E F) σ (x : float64) now,
     (∀ y, lastValue d ≠ any_float64 y) →
     SetValue (dyn:=any_comparable) d σ (any_float64 x) now = Panics) ∧
  (∀ E F (d : PubSubDebouncer any E F) σ (a b : nat) now,
     lastValue d = any_slice a →
     SetValue (dyn:=any_comparable) d σ (any_slice b) now = Panics).
Proof.
  repeat split.
  - intros E F d σ now. apply (SetValue_silent (dyn:=float64_comparable)).
    unfold differs. simpl. by rewrite gt_delta64_diag.
  - intros E F d σ now. apply (SetValue_silent (dyn:=float32_comparable)).
    unfold differs. simpl. by rewrite gt_delta32_diag.
  - intros a b. unfold differs. simpl. by rewrite delta64_comm.
  - intros a b. unfold differs. simpl. by rewrite delta32_comm.
  - intros E F d σ value now Hnan.
    apply (SetValue_silent (dyn:=float64_comparable)).
    unfold differs. simpl. by rewrite gt_delta64_nan.
  - intros E F d σ value now Hnan.
    apply (SetValue_silent (dyn:=float32_comparable)).
    unfold differs. simpl. by rewrite gt_delta32_nan.
  - intros E F d σ now Hnan.
    apply (SetValue_broadcasts (dyn:=Celsius_comparable)).
    unfold differs. simpl. by rewrite Hnan.
  - intros E F d σ now neg neg' Hzero.
    apply (SetValue_silent (dyn:=Celsius_comparable)).
    unfold differs. simpl. rewrite Hzero. by destruct neg, neg'.
  - intros E F d σ now. apply (SetValue_silent (dyn:=Z_comparable)).
    unfold differs. simpl. by rewrite Z.eqb_refl.
  - intros E F d σ x now Hlast.
    apply (SetValue_Panics (dyn:=any_comparable)).
    unfold differs. simpl. destruct (lastValue d) as [|y| | |]; try done.
    by destruct (Hlast y).
  - intros E F d σ a b now Hlast.
    apply (SetValue_Panics (dyn:=any_comparable)).
    unfold differs. simpl. by rewrite Hlast.
Qed.
End SetValue_edge_cases.

Lemma SetValue_same_value_and_NaN_witness :
  let ch := {| Chan.cap := 1%nat; Chan.buf := @nil float.float64;
               Chan.closed := false |} in
  let σ : gmap nat (Chan.chan float.float64) := {[ 0%nat := ch ]} in
  let d := {| PubSubDebouncer.lastValue := S754_nan;
              PubSubDebouncer.listeners := {| PubSub.clients := [0%nat] |};
              PubSubDebouncer.delay := 120 * time.Millisecond;
              PubSubDebouncer.timeOut := 0;
              PubSubDebouncer.fetcherFunc := λ n : nat, (S754_nan, @None unit, n) |} in
  let nobody := {| PubSubDebouncer.lastValue := PubSubDebouncer.nil_any;
                   PubSubDebouncer.listeners := PubSub.NewPubSub;
                   PubSubDebouncer.delay := 120 * time.Millisecond;
                   PubSubDebouncer.timeOut := 0;
                   PubSubDebouncer.fetcherFunc :=
                     λ n : nat, (PubSubDebouncer.nil_any, @None unit, n) |} in
  (∃ d', PubSubDebouncer.SetValue (dyn:=PubSubDebouncer.float64_comparable)
           d σ (float.of_Z64 3 0) 5 = Returns (d', Returns σ) ∧
         PubSubDebouncer.lastValue d' = S754_nan) ∧
  (∃ d' σ', PubSubDebouncer.SetValue (dyn:=PubSubDebouncer.Celsius_comparable)
              d σ S754_nan 5 = Returns (d', Returns σ') ∧
            (Chan.buf <$> σ' !! 0%nat) = Some [S754_nan]) ∧
  PubSubDebouncer.SetValue (dyn:=PubSubDebouncer.any_comparable)
    nobody ∅ (PubSubDebouncer.any_float64 (float.of_Z64 3 0)) 5 = Panics.
Proof.
  intros ch σ d nobody.
  destruct SetValue_same_value_and_NaN
    as (_ & _ & _ & _ & Hnan & _ & Hcelsius & _ & _ & Hany & _).
  split; [|split].
  - destruct (Hnan unit nat d σ (float.of_Z64 3 0) 5) as (d' & Hset & Hlast & _).
    + by left.
    + by exists d'.
  - destruct (Hcelsius unit nat d σ 5 eq_refl)
      as (d' & σ' & Hset & _ & _ & _ & _ & _ & Happ).
    + apply NoDup_singleton.
    + intros c ->%list_elem_of_singleton. exists ch.
      split; [reflexivity|split; [reflexivity|simpl; lia]].
    + exists d', σ'. split; [exact Hset|].
      pose proof (Happ 0%nat) as H0. simpl in H0.
      destruct H0 as (ch0 & ch0' & Ha & Hb & Hc & _). injection Ha as <-.
      unfold PubSubDebouncer.Celsius, float.float64 in *.
      rewrite Hb. simpl. rewrite Hc. reflexivity.
  - apply (Hany unit nat nobody). intros y Hy. discriminate Hy.
Defined.

(** ** AlmostEqual *)

Section AlmostEqual_properties.
Import float AlmostEqual.

(** X8. [AlmostEqual] is symmetric, and a value is almost equal to itself
    exactly when it is finite: NaN and the infinities are not almost equal
    to themselves, as their difference is NaN.  NaN is almost equal to
    nothing. *)
Theorem AlmostEqual_symmetric_finite :
  (∀ a b, AlmostEqual64 a b = AlmostEqual64 b a) ∧
  (∀ a b, AlmostEqual32 a b = AlmostEqual32 b a) ∧
  (∀ a, AlmostEqual64 a a = is_finite a) ∧
  (∀ a, AlmostEqual32 a a = is_finite a) ∧
  (∀ b, AlmostEqual64 S754_nan b = false ∧ AlmostEqual32 S754_nan b = false).
Proof.
  split; [|split; [|split; [|split]]].
  - intros a b. unfold AlmostEqual64. by rewrite (delta64_comm a b : Abs _ = _).
  - intros a b. unfold AlmostEqual32. by rewrite (delta32_comm a b : Abs _ = _).
  - intros a. unfold AlmostEqual64, Abs, sub64.
    destruct (is_finite a) eqn:Hfin.
    + by rewrite SFsub_diag_finite.
    + by destruct a as [s|[]| |s m e].
  - intros a. unfold AlmostEqual32, Abs, sub32.
    destruct (is_finite a) eqn:Hfin.
    + pose proof (SFsub_diag_finite 24 128 a Hfin) as Hz.
      by destruct (SFsub 24 128 a a) as [s|s| |s m e].
    + by destruct a as [s|[]| |s m e].
  - intros b. unfold AlmostEqual64, AlmostEqual32, sub64, sub32.
    by rewrite !SFsub_nan_l.
Qed.
End AlmostEqual_properties.

(** ** Debouncer: the window *)

Section Debouncer_window.
Import time Fetch Debouncer.

Lemma Debouncer_GetValue_fetch_ok {T E F} (d : Debouncer T E F) (w : world F)
    now now' (v : T) st :
  timeOut d < now → fetcher d (closure w) = (v, @None E, st) →
  GetValue d w now now'
  = (v, None,
     {| fetcher := fetcher d; lastValue := v;
        timeOut := now' + delay d; delay := delay d |},
     {| closure := st; calls := S (calls w) |}).
Proof.
  intros Hlt Hf. unfold GetValue, After, invoke, Add.
  destruct (Z.ltb_spec (timeOut d) now); [|lia].
  by rewrite Hf.
Qed.

(** X9. [Debouncer.GetValue] calls the fetcher if and only if the time is
    strictly after the timeout.  A successful fetch caches the value and
    sets the timeout to the time read after the fetch plus the delay; until
    then calls return the cached value without a fetch.  On a new Debouncer
    over a fetcher returning 1, 2, 3, ... the first call returns 1, calls up
    to the timeout return 1 with no further fetch, and the first call after
    it returns 2 (debounce_test.go, with any delay). *)
Theorem Debouncer_GetValue_window :
  (∀ {T E F} (d : Debouncer T E F) (w : world F) now now',
     calls (GetValue d w now now').2 = S (calls w) ↔ timeOut d < now) ∧
  (∀ {T E F} (d : Debouncer T E F) (w : world F) now now' (v : T) st,
     timeOut d < now → fetcher d (closure w) = (v, @None E, st) →
     GetValue d w now now'
     = (v, None,
        {| fetcher := fetcher d; lastValue := v;
           timeOut := now' + delay d; delay := delay d |},
        {| closure := st; calls := S (calls w) |})) ∧
  (∀ delay t0 t0' t1 t1' t2 t2',
     0 < t0 → t1 ≤ t0' + delay → t0' + delay < t2 →
     let d0 := NewDebouncer (T:=Z) (E:=unit) delay successive in
     let w0 := {| closure := 0; calls := 0 |} in
     let '(v1, e1, d1, w1) := GetValue d0 w0 t0 t0' in
     let '(v2, e2, d2, w2) := GetValue d1 w1 t1 t1' in
     let '(v3, e3, d3, w3) := GetValue d2 w2 t2 t2' in
     (v1, e1) = (1, None) ∧ calls w1 = 1%nat ∧
     (v2, e2) = (1, None) ∧ calls w2 = 1%nat ∧
     (v3, e3) = (2, None) ∧ calls w3 = 2%nat).
Proof.
  split; [|split].
  - intros T E F d w now now'. unfold GetValue, After, invoke.
    destruct (Z.ltb_spec (timeOut d) now) as [Hlt|Hge].
    + destruct (fetcher d (closure w)) as [[v [e|]] st]; simpl; by split.
    + simpl. split; [lia|lia].
  - intros T E F d w now now' v st. apply Debouncer_GetValue_fetch_ok.
  - intros delay t0 t0' t1 t1' t2 t2' Ht0 Ht1 Ht2 d0 w0.
    unfold d0.
    rewrite (Debouncer_GetValue_fetch_ok _ w0 t0 t0' 1 1)
      by (done || (simpl; unfold time.zero; lia)).
    rewrite Debouncer_GetValue_cached by (simpl; lia).
    rewrite (Debouncer_GetValue_fetch_ok _ _ t2 t2' 2 2) by (done || (simpl; lia)).
    done.
Qed.
End Debouncer_window.

Lemma Debouncer_GetValue_window_witness :
  let ms := time.Millisecond in
  let d0 := Debouncer.NewDebouncer (T:=Z) (E:=unit) (50 * ms) Fetch.successive in
  let w0 := {| Fetch.closure := 0; Fetch.calls := 0 |} in
  let '(v1, e1, d1, w1) := Debouncer.GetValue d0 w0 (1 * ms) (1 * ms) in
  let '(v2, e2, d2, w2) := Debouncer.GetValue d1 w1 (21 * ms) (21 * ms) in
  let '(v3, e3, d3, w3) := Debouncer.GetValue d2 w2 (61 * ms) (61 * ms) in
  (v1, e1) = (1, None) ∧ (v2, e2) = (1, None) ∧ (v3, e3) = (2, None) ∧
  Fetch.calls w3 = 2%nat.
Proof.
  intros ms d0 w0.
  pose proof (proj2 (proj2 Debouncer_GetValue_window) (50 * ms)
                (1 * ms) (1 * ms) (21 * ms) (21 * ms) (61 * ms) (61 * ms)
                eq_refl ltac:(vm_compute; discriminate) eq_refl) as Hrun.
  vm_compute in Hrun. vm_compute. tauto.
Defined.

(** ** PubSubDebouncer: GetValueMust, Register and the background fetcher *)

Section PubSubDebouncer_more.
Import time Fetch Chan PubSubDebouncer FetcherLoop.
Context {T E F : Type} {sz : Sizeof T} {dyn : comparable T}.
Implicit Types (d : PubSubDebouncer T E F) (w : world F) (σ : gmap nat (chan T)).

(** X10. [GetValueMust] panics exactly when the deadline has passed and the
    fetch it makes fails; up to the deadline it returns the cached value
    even if the fetcher would fail.  Whenever it returns, it returns what
    [GetValue] returns with a nil error. *)
Theorem GetValueMust_panics_iff d w now now' :
  (GetValueMust d w now now' = Panics ↔
   timeOut d < now ∧ ∃ e, (fetcherFunc d (closure w)).1.2 = Some e) ∧
  (now ≤ timeOut d → GetValueMust d w now now' = Returns (lastValue d, d, w)) ∧
  (∀ v d' w', GetValueMust d w now now' = Returns (v, d', w') ↔
              GetValue d w now now' = (v, None, d', w')).
Proof.
  unfold GetValueMust, GetValue, After, invoke.
  destruct (Z.ltb_spec (timeOut d) now) as [Hlt|Hge].
  - destruct (fetcherFunc d (closure w)) as [[v [e|]] st]; simpl.
    + split; [split; [eauto|done]|]. split; [lia|].
      intros v0 d' w'. split; intros Heq; discriminate Heq.
    + split; [split; [done|by intros [_ [e He]]]|]. split; [lia|].
      intros v0 d' w'. split; intros Heq; by simplify_eq.
  - split; [split; [done|lia]|]. split; [done|].
    intros v0 d' w'. split; intros Heq; by simplify_eq.
Qed.

(** X11. A listener that registers while the previous background fetcher
    still waits starts a second one.  On a debouncer without listeners:
    [Register] starts the fetcher; after [Unregister] of that listener the
    fetcher would stop at its next check; but a [Register] before that check
    starts another fetcher, and the first one, finding a listener at its
    check, goes on as well. *)
Theorem Register_again_starts_second_fetcher d σ :
  PubSub.wf (listeners d) σ → PubSub.clients (listeners d) = [] →
  ∃ c1 d1 σ1 d2 c2 d3 σ3,
    Register d σ = Returns (c1, d1, σ1, true) ∧
    Unregister d1 σ1 c1 = Returns (d2, σ1) ∧
    wake d2 false = false ∧
    Register d2 σ1 = Returns (c2, d3, σ3, true) ∧
    wake d3 false = true ∧ wake d3 true = false.
Proof.
  intros Hwf Hnone.
  destruct (Register_fresh (listeners d) σ 1 Hwf size_one_in_range)
    as (c1 & s1 & σ1 & Hreg & _ & _ & _ & _ & Hwf1 & _ & Hact1 & Hun).
  assert (PubSub.IsActive (listeners d) = false) as Hinactive.
  { unfold PubSub.IsActive. by rewrite Hnone. }
  assert (PubSub.wf (listeners d) σ1) as Hwf2.
  { split; [apply Hwf|]. intros c Hc. rewrite Hnone in Hc.
    by apply not_elem_of_nil in Hc. }
  destruct (Register_fresh (listeners d) σ1 1 Hwf2 size_one_in_range)
    as (c2 & s3 & σ3 & Hreg2 & _ & _ & _ & _ & _ & _ & Hact3 & _).
  exists c1, (set_listeners d s1), σ1, (set_listeners d (listeners d)),
         c2, (set_listeners (set_listeners d (listeners d)) s3), σ3.
  split. { unfold Register. by rewrite Hreg, Hinactive. }
  split. { unfold Unregister. cbn [listeners set_listeners]. by rewrite Hun. }
  split. { unfold wake. simpl. exact Hinactive. }
  split. { unfold Register. cbn [listeners set_listeners].
           by rewrite Hreg2, Hinactive. }
  split; [|done]. unfold wake. simpl. exact Hact3.
Qed.

(** X12. A subscriber that does not receive stalls [SetValue].  With one
    listener whose channel is open and full (of capacity 1 or more, filled
    by earlier calls of [SetValue], the background fetcher's among them), a
    [SetValue] with a value that differs caches the value and moves the
    deadline, and then waits at the full channel.  Once the subscriber has
    received the oldest value the send completes, and the value comes last
    in the channel; called after that receive, the same [SetValue]
    returns. *)
Theorem SetValue_waits_for_subscriber d σ c ch (v0 : T) rest (v : T) now :
  PubSub.clients (listeners d) = [c] →
  σ !! c = Some ch → closed ch = false →
  buf ch = v0 :: rest → cap ch = length (buf ch) →
  differs (lastValue d) v = Returns true →
  ∃ d' σ1 σ2,
    SetValue d σ v now = Returns (d', Blocks) ∧
    lastValue d' = v ∧ timeOut d' = now + delay d ∧
    listeners d' = listeners d ∧
    recv σ c = Returns (Some v0, σ1) ∧
    PubSub.Broadcast (listeners d') σ1 v = Returns σ2 ∧
    (buf <$> σ2 !! c) = Some (rest ++ [v]) ∧
    SetValue d σ1 v now = Returns (d', Returns σ2).
Proof.
  intros Hcl Hch Hopen Hbuf Hcap Hd.
  set (d' := set_timeOut (set_lastValue d v) (now + delay d)).
  set (σ1 := <[c := pop ch]> σ).
  set (σ2 := <[c := push v (pop ch)]> σ1).
  assert (σ1 !! c = Some (pop ch)) as Hc1 by apply lookup_insert_eq.
  assert (PubSub.Broadcast (listeners d) σ v = Blocks) as Hfull.
  { unfold PubSub.Broadcast. rewrite Hcl. simpl. unfold send.
    rewrite Hch, Hopen, Hcap. by rewrite Nat.ltb_irrefl. }
  assert (PubSub.Broadcast (listeners d) σ1 v = Returns σ2) as Hfree.
  { unfold PubSub.Broadcast. rewrite Hcl. simpl. unfold send.
    rewrite Hc1. simpl. rewrite Hopen, Hcap, Hbuf. simpl.
    destruct (Nat.ltb_spec (length rest) (S (length rest))); [done|lia]. }
  exists d', σ1, σ2.
  split. { rewrite SetValue_changed by done. by rewrite Hfull. }
  split; [done|]. split; [done|]. split; [done|].
  split. { unfold recv. by rewrite Hch, Hbuf. }
  split; [done|].
  split. { unfold σ2. rewrite lookup_insert_eq. simpl. by rewrite Hbuf. }
  rewrite SetValue_changed by done. by rewrite Hfree.
Qed.
End PubSubDebouncer_more.

Lemma GetValueMust_panics_iff_witness :
  let ms := time.Millisecond in
  let d := {| PubSubDebouncer.lastValue := 1;
              PubSubDebouncer.listeners := PubSub.NewPubSub;
              PubSubDebouncer.delay := 120 * ms;
              PubSubDebouncer.timeOut := 121 * ms;
              PubSubDebouncer.fetcherFunc := Fetch.flaky |} in
  let w := {| Fetch.closure := (1, true); Fetch.calls := 1 |} in
  PubSubDebouncer.GetValueMust d w (131 * ms) (131 * ms) = Panics ∧
  PubSubDebouncer.GetValueMust d w (100 * ms) (100 * ms) = Returns (1, d, w).
Proof.
  intros ms d w. split.
  - apply (proj1 (GetValueMust_panics_iff d w (131 * ms) (131 * ms))).
    split; [reflexivity|]. by exists tt.
  - apply (proj1 (proj2 (GetValueMust_panics_iff d w (100 * ms) (100 * ms)))).
    vm_compute. discriminate.
Defined.

Lemma Register_again_starts_second_fetcher_witness :
  let d := {| PubSubDebouncer.lastValue := 1;
              PubSubDebouncer.listeners := PubSub.NewPubSub;
              PubSubDebouncer.delay := 120 * time.Millisecond;
              PubSubDebouncer.timeOut := 0;
              PubSubDebouncer.fetcherFunc := Fetch.successive |} in
  ∃ c1 d1 σ1 d2 c2 d3 σ3,
    PubSubDebouncer.Register (E:=unit) d (∅ : gmap nat (Chan.chan Z))
      = Returns (c1, d1, σ1, true) ∧
    PubSubDebouncer.Unregister d1 σ1 c1 = Returns (d2, σ1) ∧
    FetcherLoop.wake d2 false = false ∧
    PubSubDebouncer.Register d2 σ1 = Returns (c2, d3, σ3, true) ∧
    FetcherLoop.wake d3 false = true.
Proof.
  intros d.
  destruct (Register_again_starts_second_fetcher (E:=unit) d
              (∅ : gmap nat (Chan.chan Z)))
    as (c1 & d1 & σ1 & d2 & c2 & d3 & σ3 & H1 & H2 & H3 & H4 & H5 & _).
  - split; [apply NoDup_nil_2|]. intros c Hc. by apply not_elem_of_nil in Hc.
  - reflexivity.
  - by exists c1, d1, σ1, d2, c2, d3, σ3.
Defined.

(** The fetcher started by [Register] makes its first fetch and fills the
    channel of the new listener; the caller's [SetValue] then waits. *)
Lemma SetValue_waits_for_subscriber_witness :
  let ms := time.Millisecond in
  ∃ d0 c d1 σ1 d2 σ2 w2,
    PubSubDebouncer.NewPubSubDebouncer (T:=Z) (E:=unit) (120 * ms) Fetch.successive
      = Returns d0 ∧
    PubSubDebouncer.Register d0 (∅ : gmap nat (Chan.chan Z))
      = Returns (c, d1, σ1, true) ∧
    FetcherLoop.fetch_and_set (dyn:=PubSubDebouncer.Z_comparable) d1 σ1
      {| Fetch.closure := 0; Fetch.calls := 0%nat |} (10 * ms)
      = (Returns (d2, Returns σ2), w2) ∧
    (Chan.buf <$> σ2 !! c) = Some [1] ∧
    ∃ d3, PubSubDebouncer.SetValue (dyn:=PubSubDebouncer.Z_comparable) d2 σ2 5 (20 * ms)
          = Returns (d3, Blocks) ∧
          PubSubDebouncer.lastValue d3 = 5 ∧
          PubSubDebouncer.timeOut d3 = 20 * ms + 120 * ms.
Proof.
  intros ms. eexists. eexists. eexists. eexists. eexists. eexists. eexists.
  split; [reflexivity|]. split; [vm_compute; reflexivity|].
  split; [vm_compute; reflexivity|]. split; [vm_compute; reflexivity|].
  match goal with
  | |- ∃ d3, PubSubDebouncer.SetValue ?d ?σ _ _ = _ ∧ _ =>
      destruct (SetValue_waits_for_subscriber (dyn:=PubSubDebouncer.Z_comparable)
                  d σ 0%nat
                  {| Chan.cap := 1%nat; Chan.buf := [1]; Chan.closed := false |}
                  1 [] 5 (20 * ms) eq_refl eq_refl eq_refl eq_refl eq_refl eq_refl)
        as (d3 & σa & σb & Hset & Hlast & Ht & _)
  end.
  exists d3. split; [exact Hset|]. split; [exact Hlast|exact Ht].
Defined.

(** ** WorkerPool: what the queues and the counter hold *)

Section WorkerPool_bounds.
Import WorkerPool.
Context {W R : Type} {sizeW : Sizeof W} {sizeR : Sizeof R}.
Variable f : W → R.
Variable backlog : Z.
Implicit Types s : WorkerPool W R.

Lemma exec_bounded a s s' n :
  exec f backlog a s = Some s' → 0 ≤ backlog →
  Z.of_nat (length (work s)) ≤ backlog ∧
  Z.of_nat (length (result s)) ≤ backlog ∧
  (idle s + length (holding s) ≤ n)%nat →
  Z.of_nat (length (work s')) ≤ backlog ∧
  Z.of_nat (length (result s')) ≤ backlog ∧
  (idle s' + length (holding s') ≤ n)%nat.
Proof.
  intros Hex Hb (Hw & Hr & Hn).
  destruct a as [w|i|i| |i| | |i|i| ]; simpl in Hex.
  - injection Hex as <-. done.
  - destruct (posting s !! i) as [w|]; [|done].
    destruct (negb (closed s)); [|done]. simpl in Hex.
    destruct (Z.ltb_spec (Z.of_nat (length (work s))) backlog); [|done].
    injection Hex as <-. simpl. rewrite length_app. simpl. lia.
  - destruct (posting s !! i) as [w|]; [|done].
    destruct (work s) as [|w0 rest]; [|done].
    destruct (idle s) as [|k] eqn:Hidle; [done|].
    destruct (negb (closed s)); [|done]. injection Hex as <-. simpl.
    rewrite length_app. simpl. lia.
  - destruct (work s) as [|w rest]; [done|].
    destruct (idle s) as [|k] eqn:Hidle; [done|]. injection Hex as <-. simpl in *.
    rewrite length_app. simpl. lia.
  - destruct (holding s !! i) as [v|] eqn:Hi; [|done].
    destruct (Z.ltb_spec (Z.of_nat (length (result s))) backlog); [|done].
    injection Hex as <-. simpl. rewrite length_app, length_delete by eauto.
    apply lookup_lt_Some in Hi. simpl. lia.
  - destruct (work s) as [|w rest]; [|done].
    destruct (idle s) as [|k] eqn:Hidle; [done|].
    destruct (closed s); [|done]. injection Hex as <-. simpl. lia.
  - destruct (result s) as [|v rest]; [done|].
    injection Hex as <-. simpl in *. lia.
  - destruct (holding s !! i) as [v|] eqn:Hi; [|done].
    destruct (result s) as [|v0 rest]; [|done].
    injection Hex as <-. simpl. rewrite length_delete by eauto.
    apply lookup_lt_Some in Hi. lia.
  - destruct (receiving s !! i) as [v|]; [|done].
    injection Hex as <-. done.
  - destruct (closed s); [done|]. injection Hex as <-. done.
Qed.

Lemma size_out_of_range_spec (elemsize size : Z) :
  Chan.size_out_of_range elemsize size = true ↔
  size < 0 ∨ 2 ^ 63 ≤ size ∨ Chan.maxAlloc - Chan.hchanSize < elemsize * size.
Proof.
  unfold Chan.size_out_of_range.
  rewrite !orb_true_iff, !Z.ltb_lt, Z.leb_le. tauto.
Qed.

(** X13. [NewWorkerPool] panics exactly when [backlog < 0] or
    [numWorkers < 1], or when the backlog is refused by [make] for one of the
    two channels: a buffer of [backlog] results or of [backlog] items above
    the bound of the runtime.  In every state of a pool it made, neither
    queue holds more than [backlog] items (none at all for [backlog = 0]),
    and the workers that wait for work or hold a result are never more than
    [numWorkers]. *)
Theorem WorkerPool_bounded numWorkers :
  (NewWorkerPool (W:=W) (R:=R) backlog numWorkers = Panics ↔
   backlog < 0 ∨ numWorkers < 1 ∨ 2 ^ 63 ≤ backlog ∨
   Chan.maxAlloc - Chan.hchanSize < sizeof R * backlog ∨
   Chan.maxAlloc - Chan.hchanSize < sizeof W * backlog) ∧
  (∀ s0 s, NewWorkerPool backlog numWorkers = Returns s0 →
     rtc (step f backlog) s0 s →
     0 ≤ backlog ∧ 1 ≤ numWorkers ∧
     Z.of_nat (length (work s)) ≤ backlog ∧
     Z.of_nat (length (result s)) ≤ backlog ∧
     Z.of_nat (idle s + length (holding s)) ≤ numWorkers).
Proof.
  split.
  - unfold NewWorkerPool.
    destruct (Z.ltb_spec backlog 0) as [Hb|Hb]; [split; [auto|done]|].
    destruct (Z.ltb_spec numWorkers 1) as [Hn|Hn]; [split; [auto|done]|].
    pose proof (size_out_of_range_spec (sizeof R) backlog) as HR.
    pose proof (size_out_of_range_spec (sizeof W) backlog) as HW.
    destruct (Chan.size_out_of_range (sizeof R) backlog).
    { split; [intros _|done]. destruct (proj1 HR eq_refl) as [?|[?|?]]; [lia|auto..]. }
    destruct (Chan.size_out_of_range (sizeof W) backlog).
    { split; [intros _|done]. destruct (proj1 HW eq_refl) as [?|[?|?]]; [lia|auto 6..]. }
    split; [done|]. intros [?|[?|[?|[?|?]]]]; lia.
  - intros s0 s (Hb & Hn & _ & _ & ->)%NewWorkerPool_Returns_inv Hrun.
    split; [done|]. split; [done|].
    cut (Z.of_nat (length (work s)) ≤ backlog ∧
         Z.of_nat (length (result s)) ≤ backlog ∧
         (idle s + length (holding s) ≤ Z.to_nat numWorkers)%nat); [lia|].
    revert Hrun. apply (rtc_ind_r (λ s,
        Z.of_nat (length (work s)) ≤ backlog ∧
        Z.of_nat (length (result s)) ≤ backlog ∧
        (idle s + length (holding s) ≤ Z.to_nat numWorkers)%nat)).
    + simpl. lia.
    + intros s1 s2 _ [a Ha] IH. by eapply exec_bounded.
Qed.

(** X14. The counter counts what is in the pool.  In every state, [Len()] is
    (in 32 bits) the number of items waiting in a [Post] call or in the work
    queue, plus the results held by a worker, in the result queue, or taken
    by a [Result] call that has not yet decremented the counter. *)
Theorem Len_counts_items numWorkers s0 s :
  NewWorkerPool backlog numWorkers = Returns s0 →
  rtc (step f backlog) s0 s →
  Len s = wrap32 (Z.of_nat (length (posting s) + length (work s)
                            + length (holding s) + length (result s)
                            + length (receiving s))).
Proof.
  intros Hnew Hrun.
  destruct (reachable_inv f backlog s0 s Hrun) as [Hc Hn].
  { by eapply NewWorkerPool_inv. }
  pose proof (conserved_lengths f s Hc) as Hl.
  unfold Len. rewrite Hn. f_equal. lia.
Qed.
End WorkerPool_bounds.

Lemma WorkerPool_bounded_witness :
  ∃ s0 s : WorkerPool.WorkerPool Z Z,
    WorkerPool.NewWorkerPool 1 2 = Returns s0 ∧
    WorkerPool.run id 1
      [WorkerPool.PostAdd 1; WorkerPool.PostAdd 2; WorkerPool.PostSend 0;
       WorkerPool.WorkerTake; WorkerPool.PostSend 0; WorkerPool.WorkerSend 0]
      s0 = Some s ∧
    WorkerPool.work s = [2] ∧ WorkerPool.result s = [1] ∧
    Z.of_nat (length (WorkerPool.work s)) ≤ 1 ∧
    Z.of_nat (length (WorkerPool.result s)) ≤ 1 ∧
    WorkerPool.NewWorkerPool (W:=Z) (R:=Z) (-1) 2 = Panics ∧
    WorkerPool.NewWorkerPool (W:=Z) (R:=Z) (2 ^ 62) 1 = Panics.
Proof.
  pose (s0 := {| WorkerPool.work := @nil Z; WorkerPool.result := @nil Z;
                 WorkerPool.closed := false; WorkerPool.count := 0;
                 WorkerPool.idle := 2%nat; WorkerPool.holding := [];
                 WorkerPool.posting := []; WorkerPool.receiving := [];
                 WorkerPool.posted := []; WorkerPool.retrieved := [] |}).
  assert (WorkerPool.NewWorkerPool 1 2 = Returns s0) as Hnew by reflexivity.
  exists s0. eexists. split; [exact Hnew|]. split; [vm_compute; reflexivity|].
  split; [reflexivity|]. split; [reflexivity|].
  destruct (WorkerPool_bounded (W:=Z) (R:=Z) id 1 2) as [_ Hb].
  destruct (WorkerPool_bounded (W:=Z) (R:=Z) id (-1) 2) as [Hp _].
  destruct (WorkerPool_bounded (W:=Z) (R:=Z) id (2 ^ 62) 1) as [Hq _].
  split; [|split; [|split]].
  - match goal with
    | |- Z.of_nat (length (WorkerPool.work ?s)) ≤ _ =>
        refine (proj1 (proj2 (proj2 (Hb s0 s Hnew _))))
    end.
    apply (run_rtc id 1
             [WorkerPool.PostAdd 1; WorkerPool.PostAdd 2; WorkerPool.PostSend 0;
              WorkerPool.WorkerTake; WorkerPool.PostSend 0; WorkerPool.WorkerSend 0]).
    vm_compute. reflexivity.
  - match goal with
    | |- Z.of_nat (length (WorkerPool.result ?s)) ≤ _ =>
        refine (proj1 (proj2 (proj2 (proj2 (Hb s0 s Hnew _)))))
    end.
    apply (run_rtc id 1
             [WorkerPool.PostAdd 1; WorkerPool.PostAdd 2; WorkerPool.PostSend 0;
              WorkerPool.WorkerTake; WorkerPool.PostSend 0; WorkerPool.WorkerSend 0]).
    vm_compute. reflexivity.
  - apply Hp. left. lia.
  - apply Hq. right. right. right. left. vm_compute. reflexivity.
Defined.

Lemma Len_counts_items_witness :
  ∃ s0 s : WorkerPool.WorkerPool Z Z,
    WorkerPool.NewWorkerPool 1 2 = Returns s0 ∧
    WorkerPool.run id 1
      [WorkerPool.PostAdd 1; WorkerPool.PostAdd 2; WorkerPool.PostSend 0;
       WorkerPool.WorkerTake; WorkerPool.PostAdd 3; WorkerPool.WorkerSend 0;
       WorkerPool.ResultRecv]
      s0 = Some s ∧
    WorkerPool.Len s = 3.
Proof.
  pose (s0 := {| WorkerPool.work := @nil Z; WorkerPool.result := @nil Z;
                 WorkerPool.closed := false; WorkerPool.count := 0;
                 WorkerPool.idle := 2%nat; WorkerPool.holding := [];
                 WorkerPool.posting := []; WorkerPool.receiving := [];
                 WorkerPool.posted := []; WorkerPool.retrieved := [] |}).
  assert (WorkerPool.NewWorkerPool 1 2 = Returns s0) as Hnew by reflexivity.
  exists s0. eexists. split; [exact Hnew|]. split; [vm_compute; reflexivity|].
  rewrite (Len_counts_items id 1 2 s0 _ Hnew).
  - reflexivity.
  - apply (run_rtc id 1
             [WorkerPool.PostAdd 1; WorkerPool.PostAdd 2; WorkerPool.PostSend 0;
              WorkerPool.WorkerTake; WorkerPool.PostAdd 3; WorkerPool.WorkerSend 0;
              WorkerPool.ResultRecv]).
    vm_compute. reflexivity.
Defined.

(** ** IsASCIIDigits *)

Section IsASCIIDigits_properties.
Import Strings.
Variable DecodeRune : list Byte.byte → Z * nat.

(** What the loop uses of the UTF-8 decoder: a byte below 0x80 is a rune of
    its own, one byte wide; any other first byte gives a rune that is not
    ASCII (U+FFFD when the bytes are not valid UTF-8). *)
Hypothesis DecodeRune_ascii : ∀ b rest,
  byte_value b < 128 → DecodeRune (b :: rest) = (byte_value b, 1%nat).
Hypothesis DecodeRune_other : ∀ b rest,
  128 ≤ byte_value b → 128 ≤ (DecodeRune (b :: rest)).1.

Lemma range_digits_iff fuel : ∀ s,
  (length s ≤ fuel)%nat →
  range_digits DecodeRune fuel s = true ↔ Forall (λ b, 48 ≤ byte_value b ≤ 57) s.
Proof.
  induction fuel as [|fuel IH]; intros [|b rest] Hlen.
  - split; [by constructor|done].
  - simpl in Hlen. lia.
  - split; [by constructor|done].
  - cbn [range_digits]. simpl in Hlen.
    destruct (Z.lt_ge_cases (byte_value b) 128) as [Hlt|Hge].
    + rewrite DecodeRune_ascii by done. unfold isASCIIDigit.
      rewrite Forall_cons. cbn [drop].
      destruct (Z.leb_spec 48 (byte_value b)), (Z.leb_spec (byte_value b) 57);
        simpl; try (split; [done|intros [? _]; lia]).
      rewrite drop_0, IH by lia. split; [by split|by intros [_ ?]].
    + pose proof (DecodeRune_other b rest Hge) as Hr.
      destruct (DecodeRune (b :: rest)) as [r width]. simpl in Hr.
      unfold isASCIIDigit.
      destruct (Z.leb_spec r 57); [lia|]. rewrite andb_false_r. simpl.
      split; [done|]. intros [? _]%Forall_cons. lia.
Qed.

(** X15. [IsASCIIDigits(s)] is true exactly when [s] is not empty and every
    byte of it is one of ['0'..'9'] (0x30..0x39): the empty string, a
    string with any other ASCII character, and a string with a byte of a
    multi-byte or invalid UTF-8 sequence all give false. *)
Theorem IsASCIIDigits_iff s :
  IsASCIIDigits DecodeRune s = true ↔
  s ≠ [] ∧ Forall (λ b, 48 ≤ byte_value b ≤ 57) s.
Proof.
  destruct s as [|b rest]; [by split; [|intros [? _]]|].
  unfold IsASCIIDigits. rewrite range_digits_iff by done.
  split; [by split|by intros [_ ?]].
Qed.
End IsASCIIDigits_properties.

Lemma ascii_or_error_contract :
  (∀ b rest, Strings.byte_value b < 128 →
     Strings.ascii_or_error (b :: rest) = (Strings.byte_value b, 1%nat)) ∧
  (∀ b rest, 128 ≤ Strings.byte_value b →
     128 ≤ (Strings.ascii_or_error (b :: rest)).1).
Proof.
  split; intros b rest Hb; simpl.
  - by destruct (Z.ltb_spec (Strings.byte_value b) 128); [|lia].
  - destruct (Z.ltb_spec (Strings.byte_value b) 128); simpl; lia.
Qed.

(** strings_test.go: [""], ["0123456789"] and ["a"]; and a string with the
    two bytes of U+0663, an Arabic-Indic digit. *)
Lemma IsASCIIDigits_iff_witness :
  let digits := [Byte.x30; Byte.x31; Byte.x32; Byte.x33; Byte.x34;
                 Byte.x35; Byte.x36; Byte.x37; Byte.x38; Byte.x39] in
  Strings.IsASCIIDigits Strings.ascii_or_error [] = false ∧
  Strings.IsASCIIDigits Strings.ascii_or_error digits = true ∧
  Strings.IsASCIIDigits Strings.ascii_or_error [Byte.x61] = false ∧
  Strings.IsASCIIDigits Strings.ascii_or_error [Byte.x31; Byte.xd9; Byte.xa3] = false.
Proof.
  intros digits.
  destruct ascii_or_error_contract as [Hascii Hother].
  pose proof (IsASCIIDigits_iff Strings.ascii_or_error Hascii Hother) as Hiff.
  split; [reflexivity|]. split; [|split; reflexivity].
  apply Hiff. split; [discriminate|].
  repeat constructor; vm_compute; discriminate.
Defined.

(** ** Count *)

Section Count_properties.
Import Count.
Context {T : Type}.
Variable f : T → bool.
Implicit Types d blk : list T.

Lemma wrap64_small a : - 2 ^ 63 ≤ a < 2 ^ 63 → wrap64 a = a.
Proof. intros Ha. unfold wrap64. rewrite Z.mod_small; lia. Qed.

Lemma satisfying_app d1 d2 :
  satisfying f (d1 ++ d2) = satisfying f d1 + satisfying f d2.
Proof. unfold satisfying. rewrite List.filter_app, length_app. lia. Qed.

Lemma satisfying_bounds d : 0 ≤ satisfying f d ≤ Z.of_nat (length d).
Proof. unfold satisfying. pose proof (List.filter_length_le f d). lia. Qed.

Lemma count_in_spec blk : ∀ c,
  0 ≤ c → c + Z.of_nat (length blk) < 2 ^ 63 →
  count_in f c blk = c + satisfying f blk.
Proof.
  induction blk as [|ele blk IH]; intros c Hc Hb; simpl in *.
  - unfold satisfying. simpl. lia.
  - change (ele :: blk) with ([ele] ++ blk). rewrite satisfying_app.
    unfold satisfying at 1. simpl. destruct (f ele); simpl.
    + rewrite wrap64_small by lia. rewrite IH by lia. lia.
    + rewrite IH by lia. lia.
Qed.

Lemma slice_in_range d (s e : nat) :
  (s ≤ e ≤ length d)%nat →
  slice d (Z.of_nat s) (Z.of_nat e) = Returns (take (e - s) (drop s d)).
Proof.
  intros Hr. unfold slice.
  destruct (Z.leb_spec 0 (Z.of_nat s)); [|lia].
  destruct (Z.leb_spec (Z.of_nat s) (Z.of_nat e)); [|lia].
  destruct (Z.leb_spec (Z.of_nat e) (Z.of_nat (length d))); [|lia].
  simpl. do 2 f_equal; [lia|]. f_equal. lia.
Qed.

Lemma spawn_spec d (b : nat) n : ∀ start : nat,
  (start + n * b ≤ length d)%nat → Z.of_nat (length d) < 2 ^ 63 →
  ∃ results,
    spawn f n d (Z.of_nat b) (Z.of_nat start) = Returns results ∧
    length results = n ∧ Forall (λ c, 0 ≤ c) results ∧
    sumZ results = satisfying f (take (n * b) (drop start d)).
Proof.
  induction n as [|n IH]; intros start Hr Hlen.
  - exists []. simpl. split; [done|]. split; [done|]. split; [constructor|].
    by rewrite take_0.
  - cbn [spawn].
    replace (Z.of_nat start + Z.of_nat b) with (Z.of_nat (start + b)) by lia.
    rewrite slice_in_range by lia. simpl.
    destruct (IH (start + b)%nat) as (results & -> & Hl & Hpos & Hsum); [lia|done|].
    simpl. eexists. split; [reflexivity|].
    replace (start + b - start)%nat with b by lia.
    pose proof (satisfying_bounds (take b (drop start d))) as Hbd.
    assert (length (take b (drop start d)) ≤ length d)%nat as Hle.
    { rewrite length_take, length_drop. lia. }
    rewrite count_in_spec by lia.
    split; [simpl; lia|]. split; [constructor; [lia|done]|].
    simpl. rewrite Hsum. rewrite <- drop_drop.
    rewrite <- (take_take_drop (drop start d) b (n * b)).
    rewrite satisfying_app. lia.
Qed.

Lemma sumZ_cons x l : sumZ (x :: l) = x + sumZ l.
Proof. reflexivity. Qed.

Lemma sumZ_perm l1 l2 : l1 ≡ₚ l2 → sumZ l1 = sumZ l2.
Proof. unfold sumZ. induction 1; simpl; lia. Qed.

Lemma sumZ_nonneg l : Forall (λ c, 0 ≤ c) l → 0 ≤ sumZ l.
Proof. unfold sumZ. induction 1; simpl; lia. Qed.

Lemma pick_all (results : list Z) :
  (λ i, default 0 (results !! i)) <$> seq 0 (length results) = results.
Proof.
  apply list_eq. intros i. rewrite list_lookup_fmap.
  destruct (decide (i < length results)%nat) as [Hlt|Hge].
  - rewrite lookup_seq_lt by done. simpl.
    destruct (lookup_lt_is_Some_2 results i Hlt) as [x ->]. done.
  - rewrite lookup_seq_ge by lia. simpl. symmetry. apply lookup_ge_None. lia.
Qed.

Lemma collect_spec (results : list Z) arrival : ∀ total,
  Forall (λ c, 0 ≤ c) results → Forall (λ i, (i < length results)%nat) arrival →
  0 ≤ total →
  total + sumZ ((λ i, default 0 (results !! i)) <$> arrival) < 2 ^ 63 →
  collect (length arrival) arrival results total
  = Returns (total + sumZ ((λ i, default 0 (results !! i)) <$> arrival)).
Proof.
  intros total Hpos. revert total.
  induction arrival as [|i arrival IH]; intros total Hidx Ht Hb.
  - unfold sumZ. simpl. f_equal. lia.
  - apply Forall_cons in Hidx as [Hi Hidx].
    destruct (lookup_lt_is_Some_2 results i Hi) as [c Hc].
    rewrite fmap_cons, sumZ_cons in Hb |- *.
    cbn [length collect]. rewrite Hc in Hb |- *. cbn [default] in Hb |- *.
    assert (0 ≤ c) as Hc0.
    { rewrite Forall_forall in Hpos. apply Hpos. by eapply list_elem_of_lookup_2. }
    assert (0 ≤ sumZ ((λ i, default 0 (results !! i)) <$> arrival)) as Hrest.
    { apply sumZ_nonneg. rewrite Forall_fmap. apply Forall_forall.
      intros j Hj. simpl. destruct (results !! j) as [x|] eqn:Hx; simpl; [|lia].
      rewrite Forall_forall in Hpos. apply Hpos. by eapply list_elem_of_lookup_2. }
    unfold id in Hb |- *.
    set (rest := sumZ _) in *.
    assert (- 2 ^ 63 ≤ total + c < 2 ^ 63) as Hsmall by lia.
    rewrite wrap64_small by exact Hsmall.
    rewrite IH; [f_equal; lia|done|lia|]. fold rest. lia.
Qed.

(** X16. [Count] returns the number of elements of [d] that satisfy [f],
    whatever the number of CPUs (at least one) and in whatever order the
    goroutines deliver their counts; it does not panic and does not wait
    for ever.  (A slice has fewer than 2^63 elements.) *)
Theorem Count_counts cpuCount arrival d :
  0 < cpuCount → arrival ≡ₚ seq 0 (Z.to_nat cpuCount) →
  Z.of_nat (length d) < 2 ^ 63 →
  Count f cpuCount arrival d = Returns (satisfying f d).
Proof.
  intros Hcpu Harr Hlen. unfold Count.
  destruct (Z.eqb_spec cpuCount 0) as [|_]; [lia|].
  set (len := Z.of_nat (length d)).
  rewrite Z.quot_div_nonneg, Z.rem_mod_nonneg by lia.
  pose proof (Z.div_mod len cpuCount ltac:(lia)) as Hdm.
  pose proof (Z.mod_pos_bound len cpuCount Hcpu) as Hmod.
  assert (0 ≤ len `div` cpuCount) as Hdiv by (apply Z.div_pos; lia).
  set (b := Z.to_nat (len `div` cpuCount)).
  set (r := Z.to_nat (len `mod` cpuCount)).
  set (n := Z.to_nat cpuCount).
  assert (Z.of_nat b = len `div` cpuCount) as Hb by (unfold b; lia).
  assert (Z.of_nat r = len `mod` cpuCount) as Hr by (unfold r; lia).
  assert (Z.of_nat n = cpuCount) as Hn by (unfold n; lia).
  assert (length d = n * b + r)%nat as Hsplit by (unfold len in *; nia).
  assert (sumtotal :
    (if 0 <? len `div` cpuCount
     then spawn f n d (len `div` cpuCount) 0 ≫= λ results, collect n arrival results 0
     else Returns 0) = Returns (satisfying f (take (n * b) d))).
  { destruct (Z.ltb_spec 0 (len `div` cpuCount)) as [Hpos|Hzero].
    - destruct (spawn_spec d b n 0) as (results & Hs & Hl & Hnn & Hsum); [lia|done|].
      rewrite Hb in Hs.
      change (Z.of_nat 0) with 0 in Hs. rewrite Hs. simpl.
      assert (length arrival = n) as Hla.
      { rewrite Harr. apply length_seq. }
      assert (sumZ ((λ i, default 0 (results !! i)) <$> arrival) = sumZ results) as Hpick.
      { rewrite (sumZ_perm _ ((λ i, default 0 (results !! i)) <$> seq 0 n))
          by (by apply fmap_Permutation).
        by rewrite <- Hl, pick_all. }
      rewrite <- Hla at 1. rewrite collect_spec.
      + rewrite Hpick, Hsum, drop_0. f_equal.
      + done.
      + rewrite Harr. apply Forall_forall. intros i Hi%elem_of_seq. lia.
      + done.
      + rewrite Hpick, Hsum, drop_0.
        pose proof (satisfying_bounds (take (n * b) d)) as Hbd.
        rewrite length_take in Hbd. lia.
    - assert (b = 0)%nat as -> by lia.
      rewrite Nat.mul_0_r, take_0. done. }
  rewrite sumtotal. simpl.
  destruct (Z.ltb_spec 0 (len `mod` cpuCount)) as [Hrem|Hrem].
  - replace (len - len `mod` cpuCount) with (Z.of_nat (n * b)) by (unfold len in *; lia).
    unfold len. rewrite slice_in_range by lia. simpl.
    pose proof (satisfying_bounds (take (n * b) d)) as Hbd.
    rewrite length_take in Hbd.
    rewrite count_in_spec.
    + f_equal. rewrite (take_ge (drop (n * b) d)) by (rewrite length_drop; lia).
      rewrite <- satisfying_app. by rewrite take_drop.
    + lia.
    + rewrite length_take, length_drop. lia.
  - f_equal. rewrite take_ge by lia. done.
Qed.
End Count_properties.

(** arrayUtils_test.go counts with a predicate that is always true; here 11
    elements on 4 CPUs, the goroutines delivering in the order 2, 0, 3, 1,
    and the even numbers among them. *)
Lemma Count_counts_witness :
  Count.Count (λ _ : Z, true) 4 [2; 0; 3; 1]%nat (seqZ 0 11) = Returns 11 ∧
  Count.Count Z.even 4 [2; 0; 3; 1]%nat (seqZ 0 11) = Returns 6 ∧
  Count.Count Z.even 16 (seq 0 16) (seqZ 0 11) = Returns 6.
Proof.
  assert ([2; 0; 3; 1]%nat ≡ₚ seq 0 (Z.to_nat 4)) as Hperm.
  { apply (bool_decide_unpack _). vm_compute. exact I. }
  split; [|split].
  - exact (Count_counts (λ _ : Z, true) 4 [2; 0; 3; 1]%nat (seqZ 0 11)
             eq_refl Hperm eq_refl).
  - exact (Count_counts Z.even 4 [2; 0; 3; 1]%nat (seqZ 0 11)
             eq_refl Hperm eq_refl).
  - refine (Count_counts Z.even 16 (seq 0 16) (seqZ 0 11) eq_refl _ eq_refl).
    reflexivity.
Defined.

(** ** PubSub: calls of several goroutines *)

Section PubSubSteps_properties.
Import Chan PubSub PubSubSteps.
Context {T : Type} {sz : Sizeof T}.
Implicit Types (s : PubSub) (σ : gmap nat (chan T)) (c : handle).
Implicit Types (st : state T) (a : action T).

Lemma recv_not_Panics σ c : recv (T:=T) σ c ≠ Panics.
Proof.
  unfold recv. destruct (σ !! c) as [ch|]; [|done].
  destruct (buf ch); [|done]. by destruct (closed ch).
Qed.

Lemma send_all_open σ c (msg : T) :
  all_open σ →
  send σ c msg ≠ Panics ∧ ∀ σ', send σ c msg = Returns σ' → all_open σ'.
Proof.
  intros Hall. unfold send. destruct (σ !! c) as [ch|] eqn:Hch; [|done].
  rewrite (Hall c ch Hch). destruct (_ <? _)%nat; [|done].
  split; [done|]. intros σ' [= <-] c' ch' Hc'.
  destruct (decide (c = c')) as [->|Hne].
  - rewrite lookup_insert_eq in Hc'. injection Hc' as <-. simpl. by eapply Hall.
  - rewrite lookup_insert_ne in Hc' by done. by eapply Hall.
Qed.

Lemma handoff_all_open σ c :
  all_open σ →
  handoff σ c ≠ Panics ∧ ∀ σ', handoff σ c = Returns σ' → σ' = σ.
Proof.
  intros Hall. unfold handoff. destruct (σ !! c) as [ch|] eqn:Hch; [|done].
  rewrite (Hall c ch Hch). destruct (buf ch); [|done].
  split; [done|]. by intros σ' [= <-].
Qed.

(** A step of the revision of src/email.go panics only in the [make] of a
    [Register], and closes no channel. *)
Lemma exec_all_open a st :
  all_open (chans st) →
  (exec Unregister a st = Panics →
   ∃ n, a = DoRegister n ∧ size_out_of_range (sizeof T) (Z.of_nat n) = true) ∧
  (∀ st', exec Unregister a st = Returns st' → all_open (chans st')).
Proof.
  intros Hall. destruct a as [n|c|msg|i|i|c]; cbn [exec].
  - destruct (Register (pubsub st) (chans st) n) as [[[c0 s1] σ1]| |] eqn:Hr; simpl.
    + split; [done|]. intros st' [= <-]. simpl.
      apply Register_Returns_inv in Hr as (_ & -> & -> & ->).
      intros c ch Hc. destruct (decide (fresh (dom (chans st)) = c)) as [<-|Hne].
      * rewrite lookup_insert_eq in Hc. by injection Hc as <-.
      * rewrite lookup_insert_ne in Hc by done. by eapply Hall.
    + done.
    + split; [|done]. intros _. exists n. split; [done|].
      unfold Register, make in Hr.
      by destruct (size_out_of_range (sizeof T) (Z.of_nat n)).
  - destruct (Unregister_keeps_store (pubsub st) (chans st) c) as [s1 ->]. simpl.
    split; [done|]. by intros st' [= <-].
  - split; [done|]. by intros st' [= <-].
  - destruct (under_way st !! i) as [[msg [|v rest]]|]; try done.
    destruct (send_all_open (chans st) v msg Hall) as [Hnp Hopen].
    destruct (send (chans st) v msg) as [σ1| |]; simpl; try done.
    split; [done|]. intros st' [= <-]. simpl. by apply Hopen.
  - destruct (under_way st !! i) as [[msg [|v rest]]|]; try done.
    destruct (handoff_all_open (chans st) v Hall) as [Hnp Hsame].
    destruct (handoff (chans st) v) as [σ1| |]; simpl; try done.
    split; [done|]. intros st' [= <-]. simpl. by rewrite (Hsame σ1).
  - pose proof (recv_not_Panics (chans st) c) as Hnp.
    destruct (recv (chans st) c) as [[v σ1]| |] eqn:Hr; simpl; try done.
    split; [done|]. intros st' [= <-]. simpl.
    by apply (recv_keeps _ _ _ _ Hr).
Qed.

Lemma run_all_open acts : ∀ st,
  all_open (chans st) →
  (run Unregister acts st = Panics →
   ∃ n, DoRegister n ∈ acts ∧ size_out_of_range (sizeof T) (Z.of_nat n) = true) ∧
  (∀ st', run Unregister acts st = Returns st' → all_open (chans st')).
Proof.
  induction acts as [|a acts IH]; intros st Hall; cbn [run].
  - split; [done|]. by intros st' [= <-].
  - destruct (exec_all_open a st Hall) as [Hp Hr].
    destruct (exec Unregister a st) as [st1| |]; simpl.
    + destruct (IH st1 (Hr st1 eq_refl)) as [Hp1 Hr1]. split; [|done].
      intros (n & Hn & Hrange)%Hp1. exists n. split; [|done].
      apply elem_of_cons. by right.
    + done.
    + split; [|done]. intros _. destruct (Hp eq_refl) as (n & -> & Hrange).
      exists n. split; [|done]. apply elem_of_cons. by left.
Qed.

(** X17. Goroutines that call [Register], [Unregister] and [Broadcast] on a
    [PubSub] of src/email.go that starts empty, and receive from its
    channels, in any interleaving of their steps: the only panic is that of
    a [Register] with a size that [make] refuses, and no channel is ever
    closed.  In the revision of src/unnamed/part_005, where [Unregister]
    closes the channel, a [Broadcast] that has taken its snapshot panics at
    its send to a channel that was unregistered in between (send on closed
    channel); the same steps with the [Unregister] of src/email.go do not
    panic. *)
Theorem PubSub_interleavings :
  (∀ acts, run Unregister acts initial = Panics →
     ∃ n, DoRegister n ∈ acts ∧
          size_out_of_range (sizeof T) (Z.of_nat n) = true) ∧
  (∀ acts st, run Unregister acts initial = Returns st → all_open (chans st)) ∧
  (∀ n st, size_out_of_range (sizeof T) (Z.of_nat n) = true →
     exec Unregister (DoRegister n) st = Panics) ∧
  (∀ st i (msg : T) c rest,
     under_way st !! i = Some (msg, c :: rest) →
     c ∈ clients (pubsub st) → is_open (chans st) c →
     (∃ st1, exec PubSubClosing.Unregister (DoUnregister c) st = Returns st1 ∧
             (∃ ch, chans st1 !! c = Some ch ∧ closed ch = true) ∧
             under_way st1 = under_way st ∧
             exec PubSubClosing.Unregister (Send i) st1 = Panics ∧
             exec PubSubClosing.Unregister (Handoff i) st1 = Panics) ∧
     (∃ st1, exec Unregister (DoUnregister c) st = Returns st1 ∧
             chans st1 = chans st ∧ under_way st1 = under_way st ∧
             exec Unregister (Send i) st1 ≠ Panics ∧
             exec Unregister (Handoff i) st1 ≠ Panics)).
Proof.
  assert (all_open (chans (T:=T) initial)) as Hall0.
  { intros c ch Hc. simpl in Hc. by rewrite lookup_empty in Hc. }
  split; [|split; [|split]].
  - intros acts. by apply run_all_open.
  - intros acts st. by apply run_all_open.
  - intros n st Hrange. cbn [exec]. unfold Register.
    by rewrite make_out_of_range.
  - intros st i msg c rest Hi Hc (ch & Hch & Hop).
    destruct (Unregister_closing_present (pubsub st) (chans st) c ch Hc Hch Hop)
      as (s' & Hu & Hu').
    split.
    + eexists. cbn [exec]. rewrite Hu'. simpl. split; [reflexivity|].
      split. { exists (shut ch). simpl. by rewrite lookup_insert_eq. }
      split; [done|]. cbn [exec under_way chans]. rewrite Hi. simpl.
      unfold send, handoff. by rewrite lookup_insert_eq.
    + eexists. cbn [exec]. rewrite Hu. simpl. split; [reflexivity|].
      split; [done|]. split; [done|]. cbn [exec under_way chans]. rewrite Hi.
      unfold send, handoff. rewrite Hch, Hop. simpl.
      split; [by destruct (_ <? _)%nat|by destruct (buf ch)].
Qed.
End PubSubSteps_properties.

Lemma PubSub_interleavings_witness :
  let calls := [PubSubSteps.DoRegister 1; PubSubSteps.Snapshot 7;
                PubSubSteps.DoUnregister 0; PubSubSteps.Send 0] in
  PubSubSteps.run (T:=Z) PubSubClosing.Unregister calls PubSubSteps.initial
    = Panics ∧
  (∃ st, PubSubSteps.run (T:=Z) PubSub.Unregister calls PubSubSteps.initial
         = Returns st ∧
         PubSub.clients (PubSubSteps.pubsub st) = [] ∧
         (Chan.buf <$> PubSubSteps.chans st !! 0%nat) = Some [7] ∧
         Chan.all_open (PubSubSteps.chans st)) ∧
  PubSubSteps.exec (T:=Z) PubSub.Unregister
    (PubSubSteps.DoRegister (Z.to_nat (2 ^ 62))) PubSubSteps.initial = Panics.
Proof.
  intros calls.
  pose (ch := {| Chan.cap := 1%nat; Chan.buf := @nil Z; Chan.closed := false |}).
  pose (st := {| PubSubSteps.pubsub := {| PubSub.clients := [0%nat] |};
                 PubSubSteps.chans := ({[ 0%nat := ch ]} : gmap nat (Chan.chan Z));
                 PubSubSteps.under_way := [(7, [0%nat])] |}).
  destruct (PubSub_interleavings (T:=Z)) as (Hpanic & Hopen & Hmake & Hrace).
  destruct (Hrace st 0%nat 7 0%nat [] eq_refl) as [(st1 & Hu & _ & _ & Hsend & _) _].
  { by apply list_elem_of_singleton. }
  { exists ch. by split. }
  split; [|split].
  - change (PubSubSteps.run PubSubClosing.Unregister calls PubSubSteps.initial)
      with (PubSubSteps.exec PubSubClosing.Unregister (PubSubSteps.DoUnregister 0) st
            ≫= λ st', PubSubSteps.exec PubSubClosing.Unregister (PubSubSteps.Send 0) st'
            ≫= λ st'', Returns st'').
    rewrite Hu. cbn [mbind outcome_bind]. by rewrite Hsend.
  - eexists. split; [vm_compute; reflexivity|]. split; [reflexivity|].
    split; [reflexivity|].
    apply (Hopen calls). vm_compute. reflexivity.
  - apply Hmake. rewrite Z2Nat.id by lia. reflexivity.
Defined.

(** ** WorkerPool: an open pool can always deliver *)

Section WorkerPool_progress.
Import WorkerPool.
Context {W R : Type} {sizeW : Sizeof W} {sizeR : Sizeof R}.
Variable f : W → R.
Variable backlog : Z.
Implicit Types s : WorkerPool W R.

Lemma exec_staffed a s s' n :
  exec f backlog a s = Some s' →
  (closed s = false → (idle s + length (holding s))%nat = n) →
  closed s' = false → (idle s' + length (holding s'))%nat = n.
Proof.
  intros Hex Hst.
  destruct a as [w|i|i| |i| | |i|i| ]; simpl in Hex.
  - injection Hex as <-. simpl. done.
  - destruct (posting s !! i) as [w|]; [|done].
    destruct (_ && _); [|done]. injection Hex as <-. done.
  - destruct (posting s !! i) as [w|]; [|done].
    destruct (work s) as [|w0 rest]; [|done].
    destruct (idle s) as [|k] eqn:Hidle; [done|].
    destruct (negb (closed s)); [|done]. injection Hex as <-. simpl.
    intros Hcl. specialize (Hst Hcl). rewrite length_app. simpl. lia.
  - destruct (work s) as [|w rest]; [done|].
    destruct (idle s) as [|k] eqn:Hidle; [done|]. injection Hex as <-. simpl.
    intros Hcl. specialize (Hst Hcl). rewrite length_app. simpl. lia.
  - destruct (holding s !! i) as [v|] eqn:Hi; [|done].
    destruct (_ <? _); [|done]. injection Hex as <-. simpl.
    intros Hcl. specialize (Hst Hcl). rewrite length_delete by eauto.
    apply lookup_lt_Some in Hi. lia.
  - destruct (work s) as [|w rest]; [|done].
    destruct (idle s) as [|k] eqn:Hidle; [done|].
    destruct (closed s) eqn:Hcl; [|done]. injection Hex as <-. simpl.
    intros Hfalse. discriminate Hfalse.
  - destruct (result s) as [|v rest]; [done|]. injection Hex as <-. done.
  - destruct (holding s !! i) as [v|] eqn:Hi; [|done].
    destruct (result s) as [|v0 rest]; [|done]. injection Hex as <-. simpl.
    intros Hcl. specialize (Hst Hcl). rewrite length_delete by eauto.
    apply lookup_lt_Some in Hi. lia.
  - destruct (receiving s !! i) as [v|]; [|done]. injection Hex as <-. done.
  - destruct (closed s); [done|]. injection Hex as <-. done.
Qed.

Lemma reachable_staffed numWorkers s0 s :
  NewWorkerPool backlog numWorkers = Returns s0 →
  rtc (step f backlog) s0 s →
  1 ≤ numWorkers ∧
  (closed s = false → (idle s + length (holding s))%nat = Z.to_nat numWorkers).
Proof.
  intros (_ & Hn & _ & _ & ->)%NewWorkerPool_Returns_inv Hrun. split; [done|].
  revert Hrun. apply (rtc_ind_r (λ s,
    closed s = false → (idle s + length (holding s))%nat = Z.to_nat numWorkers)).
  - simpl. lia.
  - intros s1 s2 _ [a Ha] IH. by eapply exec_staffed.
Qed.

(** X18. While the work channel has not been closed, a pool that owes a
    result can deliver it: from every state with more items posted than
    results returned there is a schedule of at most three steps of the
    workers and of a [Result] call after which that call returns a result.
    No posted item is stuck in an open pool. *)
Theorem WorkerPool_can_deliver numWorkers s0 s :
  NewWorkerPool backlog numWorkers = Returns s0 →
  rtc (step f backlog) s0 s →
  closed s = false →
  (length (retrieved s) < length (posted s))%nat →
  ∃ acts s' r,
    (length acts ≤ 3)%nat ∧ run f backlog acts s = Some s' ∧
    retrieved s' = retrieved s ++ [r] ∧ posted s' = posted s.
Proof.
  intros Hnew Hrun Hopen Hlt.
  destruct (reachable_inv f backlog s0 s Hrun) as [Hc _].
  { by eapply NewWorkerPool_inv. }
  pose proof (conserved_lengths f s Hc) as Hl.
  destruct (reachable_staffed numWorkers s0 s Hnew Hrun) as [Hn Hst].
  specialize (Hst Hopen).
  destruct s as [wk rs cl cnt idl hold pst rcv psd rtv]. simpl in *. subst cl.
  destruct rcv as [|r rcv].
  2:{ exists [ResultAdd 0]. eexists. exists r.
      split; [simpl; lia|]. split; [reflexivity|]. by split. }
  destruct rs as [|v rs].
  2:{ exists [ResultRecv; ResultAdd 0]. eexists. exists v.
      split; [simpl; lia|]. split; [reflexivity|]. by split. }
  destruct hold as [|v hold].
  2:{ exists [ResultHandoff 0; ResultAdd 0]. eexists. exists v.
      split; [simpl; lia|]. split; [reflexivity|]. by split. }
  simpl in Hst. destruct idl as [|k]; [lia|].
  destruct wk as [|w wk].
  2:{ exists [WorkerTake; ResultHandoff 0; ResultAdd 0]. eexists. exists (f w).
      split; [simpl; lia|]. split; [reflexivity|]. by split. }
  destruct pst as [|w pst]; [simpl in Hl; lia|].
  exists [PostHandoff 0; ResultHandoff 0; ResultAdd 0]. eexists. exists (f w).
  split; [simpl; lia|]. split; [reflexivity|]. by split.
Qed.
End WorkerPool_progress.

Lemma WorkerPool_can_deliver_witness :
  let s : WorkerPool.WorkerPool Z Z :=
    {| WorkerPool.work := []; WorkerPool.result := [];
       WorkerPool.closed := false; WorkerPool.count := 1;
       WorkerPool.idle := 1; WorkerPool.holding := [];
       WorkerPool.posting := [7]; WorkerPool.receiving := [];
       WorkerPool.posted := [7]; WorkerPool.retrieved := [] |} in
  ∃ s0 : WorkerPool.WorkerPool Z Z,
    WorkerPool.NewWorkerPool 0 1 = Returns s0 ∧
    WorkerPool.run id 0 [WorkerPool.PostAdd 7] s0 = Some s ∧
    ∃ acts s' r,
      (length acts ≤ 3)%nat ∧ WorkerPool.run id 0 acts s = Some s' ∧
      WorkerPool.retrieved s' = [] ++ [r] ∧ WorkerPool.posted s' = [7].
Proof.
  intros s.
  pose (s0 := {| WorkerPool.work := @nil Z; WorkerPool.result := @nil Z;
                 WorkerPool.closed := false; WorkerPool.count := 0;
                 WorkerPool.idle := 1%nat; WorkerPool.holding := [];
                 WorkerPool.posting := []; WorkerPool.receiving := [];
                 WorkerPool.posted := []; WorkerPool.retrieved := [] |}).
  assert (WorkerPool.NewWorkerPool 0 1 = Returns s0) as Hnew by reflexivity.
  exists s0. split; [exact Hnew|]. split; [reflexivity|].
  apply (WorkerPool_can_deliver (W:=Z) (R:=Z) id 0 1 s0 s Hnew).
  - apply (run_rtc id 0 [WorkerPool.PostAdd 7]). reflexivity.
  - reflexivity.
  - simpl. lia.
Defined.
